(* ===== verification/_CoqProject ===== *)
-Q . S2P
Prelude.v
Encoding.v
Index.v
Store.v
Directory.v
Segment.v
CommitLog.v
Recovery.v
Crash.v
Reader.v
ServerLog.v
HTTP.v
