(* ===== verification/Prelude.v ===== *)
(** * monolog: a verification development

    The repository zant/monolog is a commit log written in Go.  Its
    sources under src/ are:
    - [src/internal/log/index.go]: the segment index, a file of 12-byte
      entries (a 4-byte relative offset and an 8-byte store position, big
      endian) that is truncated up to [MaxIndexBytes] and memory-mapped
      while open, and truncated back to its logical size on close;
    - [src/internal/server/log.go]: the in-memory log the HTTP server uses,
      a slice of records behind a mutex;
    - [src/internal/server/http.go]: the HTTP server, [POST /] to produce a
      record and [GET /] to consume one by offset;
    - [src/cmd/server/main.go]: process wiring (listen on :8080).
    The index's collaborators in package [log] (the store, the segment, the
    segmented log, [Config], the [enc] byte order) are not under src/;
    the spec describes them.  [server_test.go] exercises a gRPC server and
    [log.NewLog], which are not under src/ either.

    How the parts interact: a produce request is decoded by
    [handleProduce], which calls [Log.Append] (the offset is the slice
    length) and encodes the offset; a consume request is decoded by
    [handleConsume], which calls [Log.Read] and maps [ErrOffsetNotFound]
    to 404.  The index is used by a segment: [Write] appends
    (relative offset, store position), [Read] looks one up, [Read(-1)]
    gives the last entry, from which a reopened segment recomputes its
    next offset.

    ** Files
    - [Prelude] (this file): Go errors ([goerr]), a result monad with
      [x <- r ;; k] in [monolog_scope], the fault oracle [faults] that
      decides which system call fails, [uint32]/[uint64]/[int64]
      arithmetic on [Z] with its wrap-around ([wrap32], [wrap64],
      [to_int64]), bytes, [resize] (what truncate(2) does to a file's
      bytes), the hint databases [monolog] and [monolog_rw], and the
      tactics [zlia], [unwrap], [congr_lia].
    - [Encoding]: [BigEndian.PutUint32/PutUint64/Uint32/Uint64] (Go's
      [binary.BigEndian], with its panics on short slices) and
      [Slice.slice]/[Slice.update_slice] (Go slice expressions on the
      memory map: out-of-range bounds panic, writes through a sub-slice
      reach the map).  Round trips of the byte order.
    - [Index]: Module [Index] models index.go: the [index] record
      (file name, map bytes, logical size), [newIndex], [Read], [Write],
      [Close], [Name], the disk file as explicit state ([File]).
      [entries] is the abstract view (the list of decoded entries) and
      [wf] the invariant (size a multiple of 12, inside the map, map
      below 2^63 bytes).
    - [Store] (from the spec, section 4.2): Module [Store]: the record
      file as disk bytes plus a write buffer ([store]), [newStore],
      [Append], [Read] (flush, header, payload), [Close]; [holds s ps]
      says the store holds the payloads [ps] at their [position]s.
    - [Directory] (from the spec, sections 4.3 and 4.4): Module
      [Directory]: the log's directory as a [gmap] from file names to
      contents, the segment file names [store_name]/[index_name]
      (["<base>.store"], ["<base>.index"]), their parsing [parse_name]
      ([strconv.ParseUint] of the stem, proved to read back stdpp's
      [pretty]), the listing [segment_bases], and the library calls
      [open_create] ([os.OpenFile] with [O_CREATE]) and [remove_file]
      ([os.Remove]); [dir_canon] says every segment file has the log's
      name for one of a list of base offsets.
    - [Segment] (from the spec, section 4.3): Module [Segment] pairs an
      [Index.index] with a [Store.store] ([segment]): [newSegment] (opens
      or creates its two files in the directory, [nextOffset] from
      [Read(-1)]), [Append] (store, then index), [Read], [IsMaxed],
      [Close] (index then store, writing both files back), [Remove]
      (close, then delete both files); [seg_holds s rs] says the segment
      holds the records [rs], [seg_named] that its files are named after
      its base offset.
    - [CommitLog] (from the spec, sections 4.4 and 5): Module [CommitLog]:
      the [Log] (directory name, config, segments oldest first, closed
      flag) over a [directory] passed in and returned: [NewLog]
      (defaults, then one segment per base offset of the listing,
      deduplicated and sorted, or one at [InitialOffset]), [Append] (to
      the active segment, a new segment on new files at [nextOffset] once
      it is maxed), [Read] (the segment whose range holds the offset, else
      [OffsetOutOfRange]), [LowestOffset], [HighestOffset], [Truncate]
      (removes the segments below an offset with their files), [Close]
      and [Remove] (every segment through [teardown], which goes on after
      a failure and reports all of them); [log_holds l lo chunks] says
      the segments hold the consecutive runs of records [chunks] from
      offset [lo], [log_inv] adds what appending needs (a [conf_ok]
      configuration, an active segment that is not maxed, sealed segments
      that are not empty, indexes that fit the configured map), and
      [log_dir l d] says the log and the directory agree (every segment
      named after its base, every segment file of [d] one of theirs).
    - [Recovery]: closing, reopening and removing the segmented log.
    - [Crash]: the directory a crash leaves while the log is open
      ([crash]: flushed store bytes, whole index maps) and reopening it.
    - [Reader]: Module [LogReader]: the log's sequential reader (the
      stores' bytes in offset order) and [decode_records], the fuelled
      loop a consumer of that stream runs to split it into records.
    - [ServerLog]: Module [ServerLog] models log.go ([Record], [Log],
      [NewLog], [Append], [Read]); Module [LogMutex] models goroutines
      calling it under the mutex as a step relation ([step]: take the
      lock; run the method body one statement at a time, [body_step], on
      the shared slice; return and release it) from [init]; [run] is a
      method as one atomic step, [run_seq] the sequential reference,
      [pending] the steps left.
    - [HTTP]: Module [HTTP] models http.go: request and response types,
      [handleProduce], [handleConsume], the router of [NewHTTPServer]
      ([NewHTTPServer_route], [serve]), the [http.Server] it returns
      ([Server], [NewHTTPServer]), [ListenAndServe] answering a sequence
      of requests, and [main_server] (main.go); the response writer is
      the list of writes a handler makes.

    ** What is proved
    - The index refines a list of entries: [Write] appends one entry and
      keeps [wf] ([Write_appends]); [Read n] is the lookup of entry [n]
      with [io.EOF] past the end ([Read_entries]); [Read(-1)] is the last
      entry ([Read_last]); [Write] fails only with [io.EOF] when full
      ([Write_error]); closing and reopening gives the same entries
      ([Close_reopen]); [newIndex] establishes [wf] ([newIndex_wf]);
      [newIndex_error] and [Close_error] list every error and the file
      it leaves.
    - The server log: [Read] after [Append] returns the record stamped
      with its offset ([Read_Append]), earlier offsets are unchanged
      ([Read_Append_other]), successive appends get successive offsets
      ([append_all_offsets]), [Read] fails only with
      [ErrOffsetNotFound] past the end ([Read_error]), every record carries
      its position ([Append_wf]).  With the method bodies interleaved
      statement by statement, every interleaving is linearizable: the
      returned calls have an order, extending the order of any earlier
      point, in which their atomic [run]s from a new log give every
      response and the shared log ([linearizable]; the invariant
      [lin_inv], whose [body_inv] says how far the holder's body has got
      on the log it found); hence appends get distinct offsets naming
      their records ([concurrent_appends]); and no interleaving
      deadlocks ([all_return]).  Without [Lock]'s wait for a free mutex
      two appends would stamp the same length.
    - Store and segment: [Append_holds], [Read_holds], [Read_end] (store
      append/read round trip and end of file); [seg_Append], [seg_Read],
      [seg_Read_past] (a segment refines the list of records it holds);
      [seg_Append_index_full] (a full index leaves an orphan record in
      the store) and [seg_not_maxed_but_full] (with a [MaxIndexBytes] not
      a multiple of 12, [IsMaxed] is false while [Append] fails).
    - Directory: [parse_store_name] and [parse_index_name] (a segment
      file's name parses back to its kind and base offset, by the
      induction of [pretty_N_go_step]), hence distinct names for distinct
      files; [remove_files_lookup] (removal deletes exactly the files
      named).
    - Segmented log: [log_Read] (a read of an offset the log holds
      returns its record, through range search, index and store),
      [log_Append] (one append returns the next offset and keeps
      [log_inv] and [log_dir], rotating onto new files when the write
      leaves the active segment maxed), [log_append_read] (a sequence of
      appends returns consecutive offsets and every record reads back:
      the segmented log refines a list of records), [NewLog_fresh] (a
      directory with no segment file opens to one empty segment at
      [InitialOffset]), [log_Read_out_of_range] (offsets outside the
      log's range fail with [OffsetOutOfRange] carrying the offset),
      [log_offsets] (lowest and highest offset), [log_Truncate]
      (truncation below the end removes exactly the segments that end by
      [lowest], and their files, and keeps every later record readable),
      [Truncate_past_end] (truncation at or past the end removes the
      active segment too, which the spec's "exactly one active segment"
      does not provide for) and [log_Append_rotate_fails] (when the
      rotation after a write fails, [append] reports the error although
      the record is stored and reads back).  [log_inv] asks for a
      [conf_ok] configuration, an index limit that is a whole number of
      entries: the spec's scenario runs as [scenario_hi_hello], rotation
      as [log36_rotates], and [scenario_default_index_full] shows that
      with the default [MaxIndexBytes] of 1024 the 86th append fails with
      [io.EOF] instead of rotating.  The reader's stream is the layout of
      all records and decodes back to them ([Reader_layout],
      [decode_Reader]).
    - Recovery: closing a log that keeps [log_inv] and agrees with its
      directory, then opening the directory it leaves, gives a log with
      the same records that keeps [log_inv] and agrees with the new
      directory ([log_Close_reopen], run as [log36_reopen]); with
      [fsync] failing, [close] still closes every segment and reports one
      failure each ([Close_best_effort]); [remove()] deletes every segment
      file and no other whatever the closes did ([Remove_clears], run
      with failing closes as [remove_fsync_fails]).  After a crash,
      reopening succeeds with the same segments but every index comes
      back full, so every append fails with [io.EOF]
      ([log_crash_reopen], run as [log36_crash], where the records still
      in the stores' buffers are lost while the indexes report them).
    - HTTP: produce then consume returns the record ([produce_consume]);
      past the end is 404 and nothing else ([consume_past_end]); a
      malformed body is 400 ([produce_malformed]); the 500 branch of
      [handleConsume] (which lacks a return) is dead ([consume_status]);
      through [main]'s server a run of POSTs then GETs of every offset
      returns each record at its offset and 404 past the end
      ([main_produce_consume]); whether the response write fails changes
      neither the state nor the status ([encode_error_status]): the
      [http.Error] 500 after a failed [Encode] never reaches the client,
      since the failed write already committed 200.
    - Behaviours the spec does not expect, proved of the code:
      [Read_uint32_alias] ([Read(2^32)] reads entry 0),
      [crash_reopen] (after a crash the file is reopened at its
      over-allocated length, so it counts [MaxIndexBytes/12] entries),
      [newIndex_map_error_overallocates] (a failing map leaves the file
      truncated up), [newIndex_oversized_Read_panics] (a file longer than
      [MaxIndexBytes] opens with its size past the map and [Read(-1)]
      panics).

    ** Bounds and modelling choices
    The operations of the code are straight-line; the only loop with fuel
    is the stream consumer [decode_records], for which fuel one more than
    the stream's length is enough (each record takes at least 8 bytes)
    and more changes nothing ([decode_records_fuel]).  The interleavings
    of [LogMutex] are finite by the measure [pending] (each step takes a
    goroutine one statement closer to its return), which [all_return]
    uses to reach a world where every goroutine has returned.
    Integers keep the code's widths: [uint64] arithmetic is written with
    [wrap64], [uint32(...)] with [wrap32], [int64(...)] with [to_int64];
    the theorems assume what the code's types give ([is_u32 off],
    [is_u64 pos]) and, for the index, a map below 2^63 bytes (an [int64]
    file length).  [Read_last] assumes at most 2^32 entries, the range of
    the [uint32] the code casts the entry number to.  The system calls
    ([os.Stat], [os.Truncate], [gommap.Map], [MMap.Sync], [File.Sync],
    [File.Truncate], [File.Close], [os.Remove]) fail when the fault
    oracle says so, [os.Remove] of a missing file fails with
    [os.ErrNotExist],
    mmap(2) of an empty file and truncate(2) to a negative length fail
    with EINVAL, and the page cache is abstracted: the mapped bytes reach
    the file at [MMap.Sync].  The directory holds a file's contents as
    the model last wrote it: a segment's files are written when it is
    opened, created or closed, and its open store and index hold their
    contents in the meantime, as the process does.  [strconv.ParseUint]
    accepts decimal digits below 2^64; the log's base offsets are below
    2^63, so every name the log writes parses back.

    ** Not modelled
    The TCP listener of [ListenAndServe] and [log.Fatal] (I/O; requests
    are a given sequence), the chi middleware logger, JSON encoding
    itself (an input: a decoded request or a decode error, and whether
    writing the response succeeds), the failure of [os.OpenFile] and
    [os.ReadDir] themselves (the listing is a lookup in the directory),
    a [Reset] of the log (not in the spec), and the gRPC server of
    [server_test.go], whose sources are not in the repository. *)

From stdpp Require Import base list strings decidable relations sorting.
From Stdlib Require Import ZArith Lia Wf_nat.
From Stdlib Require Import Strings.Byte.

(** This file: the shared prelude.  Go's error values, a result type with
    its monad notation in [monolog_scope], the fault oracle that decides
    which system calls fail, machine-width integers ([uint32], [uint64],
    the [int64] conversion) written as [Z] with their wrap-around, bytes as
    [Byte.byte], the file-resizing function behind [truncate(2)], and the
    hint databases [monolog] (resolve) and [monolog_rw] (rewrite). *)

Declare Scope monolog_scope.
Delimit Scope monolog_scope with ml.
Open Scope Z_scope.

Create HintDb monolog.
Create Rewrite HintDb monolog_rw.

(** ** System calls and Go errors *)

(** The system calls the code makes, named after the Go call sites. *)
Inductive syscall :=
| SysStat        (* os.Stat *)
| SysTruncate    (* os.Truncate (by name) *)
| SysMmap        (* gommap.Map *)
| SysMsync       (* MMap.Sync *)
| SysFsync       (* File.Sync *)
| SysFtruncate   (* File.Truncate *)
| SysClose       (* File.Close *)
| SysWrite       (* File.Write, through a buffered writer's Flush *)
| SysRead        (* File.ReadAt *)
| SysRemove.     (* os.Remove *)

#[export] Instance syscall_eq_dec : EqDecision syscall.
Proof. solve_decision. Defined.

(** The error values the code returns or raises: [io.EOF], the server's
    [ErrOffsetNotFound], an I/O error of a system call (the oracle made it
    fail), [EINVAL] of a system call given an invalid argument, the
    [os.ErrNotExist] of a call on a file that does not exist, a Go
    run-time panic (slice bounds out of range), and the segmented log's
    [OffsetOutOfRange] (carrying the offset) and "closed" errors. *)
Inductive goerr : Type :=
| EOF
| ErrOffsetNotFound
| ErrIO (s : syscall)
| ErrInval (s : syscall)
| ErrNotExist (s : syscall)
| Panic
| ErrOffsetOutOfRange (off : Z)
| ErrClosed.

#[export] Instance goerr_eq_dec : EqDecision goerr.
Proof. solve_decision. Defined.

(** A fault oracle: [f s = true] when the next call of [s] fails with an
    I/O error.  The code never retries, so one answer per call site is
    enough. *)
Definition faults := syscall -> bool.
Definition no_faults : faults := fun _ => false.

(** ** Results and their monad *)

Inductive result (A : Type) :=
| Ok (a : A)
| Err (e : goerr).
Arguments Ok {A} a.
Arguments Err {A} e.

Definition bind {A B} (r : result A) (k : A -> result B) : result B :=
  match r with Ok a => k a | Err e => Err e end.

Notation "x <- r ;; k" := (bind r (fun x => k))
  (at level 65, r at next level, right associativity) : monolog_scope.
Open Scope monolog_scope.

(** A system call that may fail: the oracle decides, otherwise [k] runs. *)
Definition syscall_do {A} (f : faults) (s : syscall) (k : result A) : result A :=
  if f s then Err (ErrIO s) else k.

(** A lookup that fails with [e]. *)
Definition ok_or {A} (e : goerr) (o : option A) : result A :=
  match o with Some a => Ok a | None => Err e end.

Definition is_ok {A} (r : result A) : bool :=
  match r with Ok _ => true | Err _ => false end.

(** Best-effort teardown: the failure of one step, if any, joins the
    failures of the steps that follow. *)
Definition add_err {A} (r : result A) (es : list goerr) : list goerr :=
  match r with Ok _ => es | Err e => e :: es end.

Lemma bind_Ok {A B} (a : A) (k : A -> result B) : bind (Ok a) k = k a.
Proof. reflexivity. Qed.

Lemma bind_Err {A B} (e : goerr) (k : A -> result B) : bind (Err e) k = Err e.
Proof. reflexivity. Qed.

Lemma bind_eq_Ok {A B} (r : result A) (k : A -> result B) (b : B) :
  bind r k = Ok b <-> exists a, r = Ok a /\ k a = Ok b.
Proof.
  destruct r as [a|e]; simpl; split.
  - eauto.
  - intros (x & Hx & Hk). injection Hx as ->. exact Hk.
  - discriminate.
  - intros (x & Hx & _). discriminate.
Qed.

Lemma syscall_do_no_faults {A} s (k : result A) : syscall_do no_faults s k = k.
Proof. reflexivity. Qed.

#[export] Hint Rewrite @bind_Ok @bind_Err @syscall_do_no_faults : monolog_rw.

(** ** Machine integers *)

Definition wrap32 (z : Z) : Z := z mod 2 ^ 32.
Definition wrap64 (z : Z) : Z := z mod 2 ^ 64.

(** Go's [int64(u)] for a [uint64] [u]: the same bits read as two's
    complement. *)
Definition to_int64 (z : Z) : Z :=
  let w := wrap64 z in if w <? 2 ^ 63 then w else w - 2 ^ 64.

Definition is_u32 (z : Z) : Prop := 0 <= z < 2 ^ 32.
Definition is_u64 (z : Z) : Prop := 0 <= z < 2 ^ 64.

Lemma wrap32_small z : 0 <= z < 2 ^ 32 -> wrap32 z = z.
Proof. intros; apply Z.mod_small; lia. Qed.

Lemma wrap64_small z : 0 <= z < 2 ^ 64 -> wrap64 z = z.
Proof. intros; apply Z.mod_small; lia. Qed.

Lemma wrap32_range z : 0 <= wrap32 z < 2 ^ 32.
Proof. apply Z.mod_pos_bound; lia. Qed.

Lemma wrap64_range z : 0 <= wrap64 z < 2 ^ 64.
Proof. apply Z.mod_pos_bound; lia. Qed.

Lemma to_int64_small z : 0 <= z < 2 ^ 63 -> to_int64 z = z.
Proof.
  intros H. unfold to_int64. rewrite wrap64_small by lia.
  destruct (Z.ltb_spec z (2 ^ 63)); lia.
Qed.

#[export] Hint Rewrite wrap32_small wrap64_small to_int64_small using lia : monolog_rw.
#[export] Hint Resolve wrap32_range wrap64_range : monolog.

(** ** Bytes *)

Definition byte_to_Z (b : byte) : Z := Z.of_N (Byte.to_N b).

Definition byte_of_Z (z : Z) : byte :=
  match Byte.of_N (Z.to_N (z mod 256)) with Some b => b | None => Byte.x00 end.

#[export] Instance byte_eq_dec : EqDecision byte := Byte.byte_eq_dec.

Lemma byte_to_Z_range b : 0 <= byte_to_Z b < 256.
Proof. unfold byte_to_Z. pose proof (Byte.to_N_bounded b). lia. Qed.

Lemma byte_to_of_Z z : byte_to_Z (byte_of_Z z) = z mod 256.
Proof.
  unfold byte_of_Z, byte_to_Z.
  pose proof (Z.mod_pos_bound z 256 ltac:(lia)).
  destruct (Byte.of_N (Z.to_N (z mod 256))) as [b|] eqn:E.
  - apply Byte.to_of_N in E. lia.
  - apply Byte.of_N_None_iff in E. lia.
Qed.

Lemma byte_of_to_Z b : byte_of_Z (byte_to_Z b) = b.
Proof.
  unfold byte_of_Z, byte_to_Z.
  pose proof (Byte.to_N_bounded b).
  rewrite Z.mod_small by lia. rewrite N2Z.id, Byte.of_to_N. reflexivity.
Qed.

#[export] Hint Rewrite byte_to_of_Z byte_of_to_Z : monolog_rw.
#[export] Hint Resolve byte_to_Z_range : monolog.

(** ** Files *)

(** [truncate(2)] to [n] bytes: cut, or extend with zero bytes. *)
Definition resize (n : nat) (l : list byte) : list byte :=
  take n l ++ replicate (n - length l) Byte.x00.

Lemma length_resize n l : length (resize n l) = n.
Proof. unfold resize. rewrite length_app, length_take, length_replicate. lia. Qed.

Lemma take_resize k n l :
  (k <= n)%nat -> (k <= length l)%nat -> take k (resize n l) = take k l.
Proof.
  intros Hk Hl. unfold resize.
  rewrite take_app_le by (rewrite length_take; lia).
  rewrite take_take. f_equal. lia.
Qed.

Lemma resize_id n l : length l = n -> resize n l = l.
Proof.
  intros <-. unfold resize. rewrite take_ge by lia.
  rewrite Nat.sub_diag. apply app_nil_r.
Qed.

Lemma resize_le n l : (n <= length l)%nat -> resize n l = take n l.
Proof. intros H. unfold resize. replace (n - length l)%nat with 0%nat by lia. apply app_nil_r. Qed.

Lemma resize_take n s l :
  (s <= n)%nat -> (s <= length l)%nat ->
  resize n (take s l) = take s l ++ replicate (n - s) Byte.x00.
Proof.
  intros H1 H2. unfold resize. rewrite take_ge by (rewrite length_take; lia).
  rewrite length_take. do 3 f_equal. lia.
Qed.

#[export] Hint Rewrite length_resize : monolog_rw.

(** ** Windows of lists *)

(** The window of a list at the end of a prefix [l1] is the middle part. *)
Lemma take_drop_mid {A} (l1 l2 l3 : list A) (n : nat) :
  (n <= length l2)%nat -> take n (drop (length l1) (l1 ++ l2 ++ l3)) = take n l2.
Proof. intros H. rewrite drop_app_length, take_app_le by lia. reflexivity. Qed.

(** [last] of a suffix that is not empty. *)
Lemma last_drop {A} (l : list A) j : (j < length l)%nat -> list.last (drop j l) = list.last l.
Proof. intros H. rewrite !last_lookup, lookup_drop, length_drop. f_equal. lia. Qed.

(** Filtering out the elements that satisfy [P] keeps a list whose
    elements all fail [P]. *)
Lemma filter_not_all {A} (P : A -> Prop) `{!forall x, Decision (P x)} (l : list A) :
  Forall (fun x => ~ P x) l -> filter (fun x => ~ P x) l = l.
Proof.
  induction l as [|x l IH]; intros HF; [reflexivity|].
  inversion HF as [|? ? Hx Hl]; subst. rewrite filter_cons_True by exact Hx. f_equal. auto.
Qed.

(** When [P] holds of an element it holds of every earlier one, the
    elements that satisfy [P] are a prefix: filtering them out drops it. *)
Lemma elem_of_take_1 {A} (x : A) n l : x ∈ take n l -> x ∈ l.
Proof. intros (i & Hi & _)%elem_of_take. exact (list_elem_of_lookup_2 _ _ _ Hi). Qed.

Lemma filter_none {A} (P : A -> Prop) `{!forall x, Decision (P x)} (l : list A) :
  Forall (fun x => ~ P x) l -> filter P l = [].
Proof.
  induction l as [|x l IH]; intros HF; [reflexivity|].
  inversion HF as [|? ? Hx Hl]; subst. rewrite filter_cons_False by exact Hx. auto.
Qed.

Lemma filter_prefix_drop {A} (P : A -> Prop) `{!forall x, Decision (P x)} (l : list A) :
  (forall i k x y, (i <= k)%nat -> l !! i = Some x -> l !! k = Some y -> P y -> P x) ->
  exists j, filter (fun x => ~ P x) l = drop j l /\ filter P l = take j l
            /\ forall i x, l !! i = Some x -> (P x <-> (i < j)%nat).
Proof.
  induction l as [|x l IH]; intros Hmono.
  - exists 0%nat. split_and!; [reflexivity | reflexivity | intros i y Hy; discriminate].
  - destruct (decide (P x)) as [Hx|Hx].
    + destruct IH as (j & Hf & Ht & Hj).
      { intros i k a b Hik. exact (Hmono (S i) (S k) a b ltac:(lia)). }
      exists (S j). split_and!; [rewrite filter_cons_False by tauto; exact Hf
                               | rewrite filter_cons_True, Ht by exact Hx; reflexivity |].
      intros [|i] y Hy; cbn in Hy; [injection Hy as <-; split; [lia | auto]|].
      rewrite (Hj i y Hy). lia.
    + assert (HF : Forall (fun y => ~ P y) (x :: l)).
      { apply Forall_lookup. intros i y Hy Hp. exact (Hx (Hmono 0%nat i x y ltac:(lia) eq_refl Hy Hp)). }
      exists 0%nat. split_and!; [exact (filter_not_all P _ HF) | exact (filter_none P _ HF) |].
      intros i y Hy. split; [|lia]. intros Hp.
      exact (False_ind _ (proj1 (Forall_lookup _ _) HF i y Hy Hp)).
Qed.

(** Replacing element [i] of a list changes a sum over it by the
    difference. *)
Lemma sum_list_with_insert {A} (f : A -> nat) (l : list A) i x y :
  l !! i = Some y -> (sum_list_with f (<[i := x]> l) + f y = sum_list_with f l + f x)%nat.
Proof.
  intros H. pose proof (lookup_lt_Some _ _ _ H) as Hlt.
  rewrite insert_take_drop by exact Hlt. rewrite <- (take_drop_middle l i y H) at 3.
  rewrite !sum_list_with_app. cbn [sum_list_with]. lia.
Qed.

(** A relation along which a measure in [nat] decreases has no infinite
    chain: every element is strongly normalizing. *)
Lemma sn_measure {A} (R : relation A) (f : A -> nat) :
  (forall x y, R x y -> (f y < f x)%nat) -> forall x, sn R x.
Proof.
  intros Hf x. induction x as [x IH] using (well_founded_induction (well_founded_ltof _ f)).
  constructor. intros y Hy. apply IH, Hf, Hy.
Qed.

(** A list whose elements are pairwise related in index order is
    strongly sorted. *)
Lemma StronglySorted_lookup_2 {A} (R : relation A) (l : list A) :
  (forall i j x y, (i < j)%nat -> l !! i = Some x -> l !! j = Some y -> R x y) ->
  StronglySorted R l.
Proof.
  induction l as [|x l IH]; intros H; constructor.
  - apply IH. intros i j a b Hij Ha Hb. exact (H (S i) (S j) a b ltac:(lia) Ha Hb).
  - apply Forall_lookup. intros j y Hy. exact (H 0%nat (S j) x y ltac:(lia) eq_refl Hy).
Qed.

(** A list strongly sorted by an irreflexive relation has no duplicate. *)
Lemma StronglySorted_NoDup {A} (R : relation A) `{!Irreflexive R} (l : list A) :
  StronglySorted R l -> NoDup l.
Proof.
  induction 1 as [|x l _ IH HF]; constructor; [|exact IH].
  intros Hin. rewrite Forall_forall in HF. exact (irreflexivity R x (HF x Hin)).
Qed.

(** ** Tactics *)

(** Invert a hypothesis and clean up. *)
Ltac invc H := inversion H; subst; clear H.

(** Simplify the monadic glue of the model. *)
Ltac ml_simpl := autorewrite with monolog_rw in *; simpl in *.

(** Case analysis on a boolean comparison of integers in the goal. *)
Ltac case_zcmp :=
  match goal with
  | |- context [Z.ltb ?a ?b] => destruct (Z.ltb_spec a b)
  | |- context [Z.leb ?a ?b] => destruct (Z.leb_spec a b)
  | |- context [Z.eqb ?a ?b] => destruct (Z.eqb_spec a b)
  end.

(** [lia] after turning each [/] and [mod] into its Euclidean equations
    ([lia] alone does not reason about division here). *)
Ltac zlia := Z.to_euclidean_division_equations; lia.

(** Remove the wrap-around of in-range [uint32]/[uint64] arithmetic, from
    the innermost operation out, proving each range with [lia]. *)
Ltac unwrap :=
  repeat match goal with
    | |- context [wrap64 ?x] =>
        lazymatch x with context [wrap64 _] => fail | _ => rewrite (wrap64_small x) by zlia end
    | |- context [wrap32 ?x] =>
        lazymatch x with context [wrap32 _] => fail | _ => rewrite (wrap32_small x) by zlia end
    end.

(** Close an equation between terms that differ only in arithmetic
    arguments: descend with [f_equal], close the leaves with [lia]. *)
Ltac congr_lia := repeat (first [reflexivity | lia | progress f_equal]).
