(* ===== verification/Encoding.v ===== *)
(** * Encoding: big-endian integers and Go slices of a shared buffer

    [index.go] reads and writes its entries through [enc], the
    [binary.BigEndian] byte order declared next to the store (not under
    src/, modelled from the spec's on-disk layout, section 6), on
    sub-slices [i.mmap[lo:hi]] of the memory map.  A Go slice expression
    panics when its bounds are out of range, and writing into a sub-slice
    writes into the array it aliases: [update_slice] models both. *)

From stdpp Require Import base list.
From Stdlib Require Import ZArith Lia.
From Stdlib Require Import Strings.Byte.
From S2P Require Import Prelude.

Open Scope Z_scope.
Open Scope monolog_scope.

Module BigEndian.

(** [n] bytes of [z], most significant first ([byte(v >> 8k)]). *)
Fixpoint be_split (n : nat) (z : Z) : list byte :=
  match n with
  | O => []
  | S n' => byte_of_Z (Z.shiftr z (8 * Z.of_nat n')) :: be_split n' z
  end.

(** The unsigned integer whose big-endian bytes are [l]. *)
Fixpoint be_combine (l : list byte) : Z :=
  match l with
  | [] => 0
  | b :: l' => byte_to_Z b * 2 ^ (8 * Z.of_nat (length l')) + be_combine l'
  end.

(** [binary.BigEndian.PutUint32]: panics (the [_ = b[3]] bounds check)
    on a slice shorter than 4 bytes, else overwrites its first 4 bytes. *)
Definition PutUint32 (b : list byte) (v : Z) : result (list byte) :=
  if (length b <? 4)%nat then Err Panic else Ok (be_split 4 v ++ drop 4 b).

Definition PutUint64 (b : list byte) (v : Z) : result (list byte) :=
  if (length b <? 8)%nat then Err Panic else Ok (be_split 8 v ++ drop 8 b).

Definition Uint32 (b : list byte) : result Z :=
  if (length b <? 4)%nat then Err Panic else Ok (be_combine (take 4 b)).

Definition Uint64 (b : list byte) : result Z :=
  if (length b <? 8)%nat then Err Panic else Ok (be_combine (take 8 b)).

End BigEndian.

Module Slice.

(** [a[lo:hi]] for a slice whose capacity is its length (a memory map):
    a run-time panic unless [0 <= lo <= hi <= len(a)]. *)
Definition slice (a : list byte) (lo hi : Z) : result (list byte) :=
  if (0 <=? lo) && (lo <=? hi) && (hi <=? Z.of_nat (length a))
  then Ok (take (Z.to_nat (hi - lo)) (drop (Z.to_nat lo) a))
  else Err Panic.

(** [f(a[lo:hi])] where [f] writes into its argument: the write goes
    through to the backing array [a]. *)
Definition update_slice (a : list byte) (lo hi : Z)
           (f : list byte -> result (list byte)) : result (list byte) :=
  s <- slice a lo hi ;;
  s' <- f s ;;
  Ok (take (Z.to_nat lo) a ++ s' ++ drop (Z.to_nat hi) a).

Definition in_bounds (a : list byte) (lo hi : Z) : Prop :=
  0 <= lo <= hi /\ hi <= Z.of_nat (length a).

(** The buffer [a] with [bs] written over it from byte [k] on. *)
Definition splice (a : list byte) (k : nat) (bs : list byte) : list byte :=
  take k a ++ bs ++ drop (k + length bs) a.

End Slice.

Import BigEndian Slice.

(** ** Lemmas on the byte order *)

Lemma length_be_split n z : length (be_split n z) = n.
Proof. induction n; simpl; auto. Qed.

Lemma mod_mul_split z m :
  0 < m -> (z / m) mod 256 * m + z mod m = z mod (m * 256).
Proof.
  intros Hm.
  pose proof (Z.div_mod z m ltac:(lia)) as Hz.
  pose proof (Z.div_mod (z / m) 256 ltac:(lia)) as Hq.
  pose proof (Z.mod_pos_bound z m Hm).
  pose proof (Z.mod_pos_bound (z / m) 256 ltac:(lia)).
  apply (Z.mod_unique _ _ ((z / m) / 256)); nia.
Qed.

Lemma be_combine_split n z :
  be_combine (be_split n z) = z mod 2 ^ (8 * Z.of_nat n).
Proof.
  induction n as [|n IH]; simpl.
  - rewrite Z.mod_1_r. reflexivity.
  - rewrite IH, length_be_split, byte_to_of_Z, Z.shiftr_div_pow2 by lia.
    rewrite mod_mul_split by lia. f_equal.
    replace (8 * Z.of_nat (S n)) with (8 * Z.of_nat n + 8) by lia.
    rewrite Z.pow_add_r by lia. reflexivity.
Qed.

Lemma be_combine_range l : 0 <= be_combine l < 2 ^ (8 * Z.of_nat (length l)).
Proof.
  induction l as [|b l IH]; simpl; [lia|].
  pose proof (byte_to_Z_range b).
  replace (8 * Z.of_nat (S (length l))) with (8 * Z.of_nat (length l) + 8) by lia.
  rewrite Z.pow_add_r by lia. nia.
Qed.

Lemma byte_to_Z_inj b1 b2 : byte_to_Z b1 = byte_to_Z b2 -> b1 = b2.
Proof. intros H. rewrite <- (byte_of_to_Z b1), <- (byte_of_to_Z b2), H. reflexivity. Qed.

Lemma be_combine_inj l1 l2 :
  length l1 = length l2 -> be_combine l1 = be_combine l2 -> l1 = l2.
Proof.
  revert l2. induction l1 as [|b1 l1 IH]; intros [|b2 l2] Hlen Hc; simpl in *;
    try discriminate; [reflexivity|].
  injection Hlen as Hlen. rewrite Hlen in Hc.
  pose proof (be_combine_range l1). pose proof (be_combine_range l2).
  rewrite Hlen in *.
  pose proof (byte_to_Z_range b1). pose proof (byte_to_Z_range b2).
  assert (Hb : byte_to_Z b1 = byte_to_Z b2) by nia.
  f_equal; [apply byte_to_Z_inj, Hb | apply IH; [lia | nia]].
Qed.

Lemma be_split_combine l : be_split (length l) (be_combine l) = l.
Proof.
  apply be_combine_inj; [apply length_be_split|].
  rewrite be_combine_split. apply Z.mod_small, be_combine_range.
Qed.

#[export] Hint Rewrite length_be_split be_combine_split be_split_combine : monolog_rw.

(** ** Lemmas on slices of a shared buffer *)

Lemma slice_ok a lo hi :
  in_bounds a lo hi ->
  slice a lo hi = Ok (take (Z.to_nat (hi - lo)) (drop (Z.to_nat lo) a)).
Proof.
  intros [? ?]. unfold slice.
  destruct (Z.leb_spec 0 lo), (Z.leb_spec lo hi), (Z.leb_spec hi (Z.of_nat (length a)));
    simpl; first [reflexivity | lia].
Qed.

Lemma slice_panic a lo hi : ~ in_bounds a lo hi -> slice a lo hi = Err Panic.
Proof.
  unfold in_bounds, slice. intros H.
  destruct (Z.leb_spec 0 lo), (Z.leb_spec lo hi), (Z.leb_spec hi (Z.of_nat (length a)));
    simpl; first [reflexivity | exfalso; lia].
Qed.

(** Writing [n] big-endian bytes through a sub-slice of exactly [n] bytes. *)
Lemma update_slice_put a lo (n : nat) (put : list byte -> result (list byte)) bs :
  in_bounds a lo (lo + Z.of_nat n) ->
  length bs = n ->
  (forall s, length s = n -> put s = Ok (bs ++ drop n s)) ->
  update_slice a lo (lo + Z.of_nat n) put = Ok (splice a (Z.to_nat lo) bs).
Proof.
  intros Hb Hlen Hput. unfold update_slice. rewrite slice_ok by exact Hb.
  destruct Hb as [? ?]. simpl.
  rewrite Hput.
  2:{ rewrite length_take, length_drop. lia. }
  simpl. rewrite drop_ge by (rewrite length_take; lia). rewrite app_nil_r.
  unfold splice. rewrite Z2Nat.inj_add, Nat2Z.id, Hlen by lia. reflexivity.
Qed.

Lemma PutUint32_put s v : length s = 4%nat -> PutUint32 s v = Ok (be_split 4 v ++ drop 4 s).
Proof. intros H. unfold PutUint32. rewrite H. reflexivity. Qed.

Lemma PutUint64_put s v : length s = 8%nat -> PutUint64 s v = Ok (be_split 8 v ++ drop 8 s).
Proof. intros H. unfold PutUint64. rewrite H. reflexivity. Qed.

(** Reading [n] bytes back through a sub-slice. *)
Lemma slice_read a lo (n : nat) :
  in_bounds a lo (lo + Z.of_nat n) ->
  slice a lo (lo + Z.of_nat n) = Ok (take n (drop (Z.to_nat lo) a))
  /\ length (take n (drop (Z.to_nat lo) a)) = n.
Proof.
  intros Hb. rewrite slice_ok by exact Hb. destruct Hb.
  split; [do 3 f_equal; lia|]. rewrite length_take, length_drop. lia.
Qed.

Lemma Uint32_take s : length s = 4%nat -> Uint32 s = Ok (be_combine s).
Proof. intros H. unfold Uint32. rewrite H, take_ge by lia. reflexivity. Qed.

Lemma Uint64_take s : length s = 8%nat -> Uint64 s = Ok (be_combine s).
Proof. intros H. unfold Uint64. rewrite H, take_ge by lia. reflexivity. Qed.

(** A decoded [uint32] or [uint64] is in the range of its Go type. *)
Lemma Uint32_range b z : Uint32 b = Ok z -> is_u32 z.
Proof.
  unfold Uint32, is_u32. destruct (Nat.ltb_spec (length b) 4); [discriminate|]. intros [= <-].
  pose proof (be_combine_range (take 4 b)) as Hr. rewrite length_take, Nat.min_l in Hr by lia.
  exact Hr.
Qed.

Lemma Uint64_range b z : Uint64 b = Ok z -> is_u64 z.
Proof.
  unfold Uint64, is_u64. destruct (Nat.ltb_spec (length b) 8); [discriminate|]. intros [= <-].
  pose proof (be_combine_range (take 8 b)) as Hr. rewrite length_take, Nat.min_l in Hr by lia.
  exact Hr.
Qed.

(** A window inside the prefix [take s a] of a buffer does not see what
    follows the prefix. *)
Lemma take_drop_prefix {A} (a rest : list A) (s i j : nat) :
  (i + j <= s)%nat -> (s <= length a)%nat ->
  take j (drop i (take s a ++ rest)) = take j (drop i a).
Proof.
  intros H1 H2.
  rewrite drop_app_le by (rewrite length_take; lia).
  rewrite take_app_le by (rewrite length_drop, length_take; lia).
  rewrite skipn_firstn_comm, take_take. f_equal. lia.
Qed.

Lemma length_splice a k bs :
  (k + length bs <= length a)%nat -> length (splice a k bs) = length a.
Proof.
  intros H. unfold splice. rewrite !length_app, length_take, length_drop. lia.
Qed.

(** Two adjacent writes are one write of the concatenation. *)
Lemma splice_splice a k b1 b2 :
  (k + length b1 + length b2 <= length a)%nat ->
  splice (splice a k b1) (k + length b1) b2 = splice a k (b1 ++ b2).
Proof.
  intros H. unfold splice.
  set (rest := drop (k + length b1) a).
  assert (Hl : length (take k a ++ b1) = (k + length b1)%nat)
    by (rewrite length_app, length_take; lia).
  rewrite (app_assoc (take k a) b1 rest).
  rewrite take_app_length' by (symmetry; exact Hl).
  rewrite drop_app_ge by lia. rewrite Hl.
  unfold rest. rewrite drop_drop, length_app, <- !app_assoc.
  replace (k + length b1 + (k + length b1 + length b2 - (k + length b1)))%nat
    with (k + (length b1 + length b2))%nat by lia.
  reflexivity.
Qed.

(** What lies before a write is unchanged by it. *)
Lemma take_drop_splice a k bs i j :
  (i + j <= k)%nat -> (k <= length a)%nat ->
  take j (drop i (splice a k bs)) = take j (drop i a).
Proof. intros. unfold splice. apply take_drop_prefix; lia. Qed.

(** The written bytes are read back where they were written. *)
Lemma drop_splice a k bs :
  (k <= length a)%nat -> drop k (splice a k bs) = bs ++ drop (k + length bs) a.
Proof. intros. unfold splice. apply drop_app_length'. rewrite length_take. lia. Qed.
