(* ===== verification/Index.v ===== *)
(** * Index: the memory-mapped offset index of src/internal/log/index.go

    The Go [index] holds the index file, its memory map and the logical
    size in bytes.  Here the disk file is explicit state ([File]), the map
    is a byte list whose length is the mapped capacity, and every system
    call consults the fault oracle.  Operations: [newIndex], [Read],
    [Write], [Close], [Name].  The abstract view of an index is the list of
    its entries ([entries]); [Read] and [Write] refine list lookup and
    append on it, [Close] followed by [newIndex] gives the entries back,
    and the open issues of the code (the [uint32] read cast, crash
    recovery, the error paths of [newIndex]) are theorems about the same
    definitions. *)

From stdpp Require Import base list strings.
From Stdlib Require Import ZArith Lia.
From Stdlib Require Import Strings.Byte.
From S2P Require Import Prelude Encoding.
Import BigEndian Slice.

Open Scope Z_scope.
Open Scope monolog_scope.

(** The segment part of the log package's [Config] (declared beside the
    segment, not under src/): all three fields are [uint64]. *)
Record SegmentConfig := {
  MaxStoreBytes : Z;
  MaxIndexBytes : Z;
  InitialOffset : Z
}.
Record Config := { Segment : SegmentConfig }.

(** A file on disk: its name and its bytes. *)
Record File := { fname : string; fdata : list byte }.

Module Index.

(** [offWidth], [posWidth], [entWidth] (index.go, lines 13-21). *)
Definition offWidth : Z := 4.
Definition posWidth : Z := 8.
Definition entWidth : Z := offWidth + posWidth.

(** [type index struct { file; mmap; size }]: the file by its name (the
    [*os.File] handle), the mapped bytes, the logical size. *)
Record index := { file : string; mmap : list byte; size : Z }.

(** [newIndex(f, c)]: stat the file (its length becomes [size]),
    truncate it to [MaxIndexBytes] (converted to [int64]) and map the
    whole file.  The disk is changed by the truncation even when the
    map then fails, so the result is the file and the outcome. *)
Definition newIndex (flt : faults) (f : File) (c : Config) : File * result index :=
  if flt SysStat then (f, Err (ErrIO SysStat)) else
  let sz := Z.of_nat (length (fdata f)) in
  let n := to_int64 (MaxIndexBytes (Segment c)) in
  if flt SysTruncate then (f, Err (ErrIO SysTruncate)) else
  if n <? 0 then (f, Err (ErrInval SysTruncate)) else
  let f' := {| fname := fname f; fdata := resize (Z.to_nat n) (fdata f) |} in
  if flt SysMmap then (f', Err (ErrIO SysMmap)) else
  (* mmap(2) of an empty file is EINVAL *)
  if (length (fdata f') =? 0)%nat then (f', Err (ErrInval SysMmap)) else
  (f', Ok {| file := fname f; mmap := fdata f'; size := sz |}).

(** [Close()]: msync the map (the mapped bytes reach the file), fsync,
    truncate the file to the logical size, close it. *)
Definition Close (flt : faults) (i : index) (f : File) : File * result unit :=
  if flt SysMsync then (f, Err (ErrIO SysMsync)) else
  let f1 := {| fname := fname f; fdata := mmap i |} in
  if flt SysFsync then (f1, Err (ErrIO SysFsync)) else
  let n := to_int64 (size i) in
  if flt SysFtruncate then (f1, Err (ErrIO SysFtruncate)) else
  if n <? 0 then (f1, Err (ErrInval SysFtruncate)) else
  let f2 := {| fname := fname f; fdata := resize (Z.to_nat n) (fdata f1) |} in
  if flt SysClose then (f2, Err (ErrIO SysClose)) else
  (f2, Ok tt).

(** [Read(in int64) (out uint32, pos uint64, err error)]. *)
Definition Read (i : index) (in_ : Z) : result (Z * Z) :=
  if size i =? 0 then Err EOF else
  let out := if in_ =? -1 then wrap32 (wrap64 (size i / entWidth - 1))
             else wrap32 in_ in
  let pos := wrap64 (out * entWidth) in
  if size i <? wrap64 (pos + entWidth) then Err EOF else
  o <- (s <- slice (mmap i) pos (wrap64 (pos + offWidth)) ;; Uint32 s) ;;
  p <- (s <- slice (mmap i) (wrap64 (pos + offWidth)) (wrap64 (pos + entWidth)) ;;
        Uint64 s) ;;
  Ok (o, p).

(** [Write(off uint32, pos uint64) error]. *)
Definition Write (i : index) (off pos : Z) : result index :=
  if Z.of_nat (length (mmap i)) <? wrap64 (size i + entWidth) then Err EOF else
  m1 <- update_slice (mmap i) (size i) (wrap64 (size i + offWidth))
                     (fun s => PutUint32 s off) ;;
  m2 <- update_slice m1 (wrap64 (size i + offWidth)) (wrap64 (size i + entWidth))
                     (fun s => PutUint64 s pos) ;;
  Ok {| file := file i; mmap := m2; size := wrap64 (size i + entWidth) |}.

(** [Name()]. *)
Definition Name (i : index) : string := file i.

(** ** Abstract view *)

(** The entry stored in a 12-byte chunk. *)
Definition entry_of (c : list byte) : Z * Z :=
  (be_combine (take 4 c), be_combine (take 8 (drop 4 c))).

(** Entry [k] of a buffer. *)
Definition entry_at (m : list byte) (k : nat) : Z * Z :=
  entry_of (take 12 (drop (12 * k) m)).

(** The entries of an index: one per whole 12 bytes of its logical size. *)
Definition entries (i : index) : list (Z * Z) :=
  entry_at (mmap i) <$> seq 0 (Z.to_nat (size i / entWidth)).

(** Well-formedness: the logical size is a whole number of entries and
    lies inside the map, and the map is addressable by an [int64]. *)
Definition wf (i : index) : Prop :=
  size i mod entWidth = 0 /\ 0 <= size i <= Z.of_nat (length (mmap i))
  /\ Z.of_nat (length (mmap i)) < 2 ^ 63.

End Index.

Import Index.

(** ** Lemmas on [Write] and [Read] *)

(** Unfold the entry widths to the literal 12. *)
Ltac widths := unfold entWidth, offWidth, posWidth in *; change (4 + 8) with 12 in *.

Section IndexLemmas.
Implicit Types (i : index) (off pos : Z).

Lemma wf_size_bound i : wf i -> 0 <= size i < 2 ^ 63.
Proof. unfold wf. lia. Qed.

(** The bytes an entry is stored as. *)
Definition entry_bytes off pos : list byte := be_split 4 off ++ be_split 8 pos.

Lemma length_entry_bytes off pos : length (entry_bytes off pos) = 12%nat.
Proof. unfold entry_bytes. rewrite length_app, !length_be_split. reflexivity. Qed.

Lemma entry_of_bytes off pos :
  entry_of (entry_bytes off pos) = (wrap32 off, wrap64 pos).
Proof.
  unfold entry_of, entry_bytes, wrap32, wrap64.
  rewrite take_app_length' by (rewrite length_be_split; reflexivity).
  rewrite drop_app_length' by (rewrite length_be_split; reflexivity).
  rewrite take_ge by (rewrite length_be_split; lia).
  rewrite !be_combine_split. reflexivity.
Qed.

(** [Write] with room for one more entry writes its 12 bytes at [size]. *)
Lemma Write_ok i off pos :
  wf i -> size i + entWidth <= Z.of_nat (length (mmap i)) ->
  Write i off pos =
  Ok {| file := file i;
        mmap := splice (mmap i) (Z.to_nat (size i)) (entry_bytes off pos);
        size := size i + entWidth |}.
Proof.
  intros (Hm & Hs & Hl) Hcap. unfold Write, entWidth, offWidth, posWidth in *.
  rewrite !wrap64_small by lia.
  destruct (Z.ltb_spec (Z.of_nat (length (mmap i))) (size i + (4 + 8))); [lia|].
  change (size i + 4) with (size i + Z.of_nat 4).
  rewrite (update_slice_put _ _ 4 _ (be_split 4 off)); cycle 1.
  { unfold in_bounds; lia. }
  { apply length_be_split. }
  { intros s Hs'. apply PutUint32_put, Hs'. }
  cbn [bind].
  replace (size i + (4 + 8)) with (size i + Z.of_nat 4 + Z.of_nat 8) by lia.
  rewrite (update_slice_put _ _ 8 _ (be_split 8 pos)); cycle 1.
  { unfold in_bounds. rewrite length_splice; rewrite ?length_be_split. all: lia. }
  { apply length_be_split. }
  { intros s Hs'. apply PutUint64_put, Hs'. }
  cbn [bind]. do 2 f_equal. unfold entry_bytes.
  replace (Z.to_nat (size i + Z.of_nat 4)) with (Z.to_nat (size i) + length (be_split 4 off))%nat
    by (rewrite length_be_split; lia).
  apply splice_splice. rewrite !length_be_split. lia.
Qed.

(** [Write] on a full index is [io.EOF] and changes nothing. *)
Lemma Write_full i off pos :
  wf i -> Z.of_nat (length (mmap i)) < size i + entWidth -> Write i off pos = Err EOF.
Proof.
  intros (Hm & Hs & Hl) Hcap. unfold Write, entWidth, offWidth, posWidth in *.
  rewrite wrap64_small by lia.
  destruct (Z.ltb_spec (Z.of_nat (length (mmap i))) (size i + (4 + 8))); [reflexivity|lia].
Qed.

Lemma entry_at_eq m k :
  entry_at m k = (be_combine (take 4 (drop (12 * k) m)),
                  be_combine (take 8 (drop (12 * k + 4) m))).
Proof.
  unfold entry_at, entry_of.
  rewrite take_take, skipn_firstn_comm, take_take, drop_drop. reflexivity.
Qed.

(** A window of [n] bytes inside the buffer, read through a slice and
    decoded. *)
Lemma slice_decode (m : list byte) lo (n : nat) (dec : list byte -> result Z) :
  0 <= lo -> lo + Z.of_nat n <= Z.of_nat (length m) ->
  (forall s, length s = n -> dec s = Ok (be_combine s)) ->
  (s <- slice m lo (lo + Z.of_nat n) ;; dec s)
  = Ok (be_combine (take n (drop (Z.to_nat lo) m))).
Proof.
  intros H1 H2 Hdec.
  destruct (slice_read m lo n) as [-> Hlen]; [unfold in_bounds; lia|].
  cbn [bind]. apply Hdec, Hlen.
Qed.

(** [Read] of entry [k] below the logical size decodes entry [k]. *)
Lemma Read_at i k :
  wf i -> 0 <= k < 2 ^ 32 -> entWidth * k + entWidth <= size i ->
  Read i k = Ok (entry_at (mmap i) (Z.to_nat k)).
Proof.
  intros (Hm & Hs & Hl) Hk Hsz. unfold Read, entWidth, offWidth, posWidth in *.
  destruct (Z.eqb_spec (size i) 0); [lia|].
  destruct (Z.eqb_spec k (-1)); [lia|]. cbv beta iota zeta.
  unwrap.
  destruct (Z.ltb_spec (size i) (k * (4 + 8) + (4 + 8))); [lia|].
  change (k * (4 + 8) + 4) with (k * (4 + 8) + Z.of_nat 4).
  rewrite slice_decode; [| lia | lia | apply Uint32_take].
  cbn [bind].
  replace (k * (4 + 8) + (4 + 8)) with (k * (4 + 8) + Z.of_nat 4 + Z.of_nat 8) by lia.
  rewrite slice_decode; [| lia | lia | apply Uint64_take].
  cbn [bind]. rewrite entry_at_eq. congr_lia.
Qed.

(** [Read] of an entry at or past the logical size is [io.EOF]. *)
Lemma Read_past i k :
  wf i -> 0 <= k < 2 ^ 32 -> size i < entWidth * k + entWidth -> Read i k = Err EOF.
Proof.
  intros (Hm & Hs & Hl) Hk Hsz. unfold Read, entWidth, offWidth, posWidth in *.
  destruct (Z.eqb_spec (size i) 0); [reflexivity|].
  destruct (Z.eqb_spec k (-1)); [lia|]. cbv beta iota zeta.
  unwrap.
  destruct (Z.ltb_spec (size i) (k * (4 + 8) + (4 + 8))); [reflexivity|lia].
Qed.

Lemma entry_at_splice_before m s bs k :
  (12 * k + 12 <= s)%nat -> (s <= length m)%nat ->
  entry_at (splice m s bs) k = entry_at m k.
Proof. intros. unfold entry_at. rewrite take_drop_splice by lia. reflexivity. Qed.

Lemma entry_at_splice_here m k off pos :
  (12 * k + 12 <= length m)%nat ->
  entry_at (splice m (12 * k) (entry_bytes off pos)) k = (wrap32 off, wrap64 pos).
Proof.
  intros H. unfold entry_at. rewrite drop_splice by lia.
  rewrite take_app_length' by (rewrite length_entry_bytes; reflexivity).
  apply entry_of_bytes.
Qed.

Lemma length_entries i : length (entries i) = Z.to_nat (size i / entWidth).
Proof. unfold entries. rewrite length_fmap, length_seq. reflexivity. Qed.

Lemma lookup_entries i k :
  (k < Z.to_nat (size i / entWidth))%nat -> entries i !! k = Some (entry_at (mmap i) k).
Proof. intros H. unfold entries. rewrite list_lookup_fmap, lookup_seq_lt by lia. reflexivity. Qed.

End IndexLemmas.

#[export] Hint Rewrite length_entry_bytes entry_of_bytes length_entries : monolog_rw.

(** ** The index refines a list of entries *)

Section IndexRefinement.
Implicit Types (i : index) (off pos : Z).

(** [Read(-1)] is [Read] of the last entry's number. *)
Lemma Read_minus1 i :
  size i <> 0 -> 0 <= size i / entWidth - 1 < 2 ^ 32 ->
  Read i (-1) = Read i (size i / entWidth - 1).
Proof.
  intros Hs Hk. unfold Read.
  destruct (Z.eqb_spec (size i) 0); [contradiction|].
  destruct (Z.eqb_spec (-1) (-1)); [|contradiction].
  destruct (Z.eqb_spec (size i / entWidth - 1) (-1)); [lia|].
  cbv beta iota zeta. unwrap. reflexivity.
Qed.

(** The index after one in-capacity write: its entries gain the written
    entry (at the integer widths), and it stays well formed. *)
Lemma entries_after_Write i off pos :
  wf i -> size i + entWidth <= Z.of_nat (length (mmap i)) ->
  let i' := {| file := file i;
               mmap := splice (mmap i) (Z.to_nat (size i)) (entry_bytes off pos);
               size := size i + entWidth |} in
  entries i' = entries i ++ [(wrap32 off, wrap64 pos)] /\ wf i'.
Proof.
  intros Hwf Hf. cbv zeta.
  pose proof Hwf as (Hm & Hs & Hl). unfold entries, wf in *. widths.
  cbn [mmap size file].
  replace (Z.to_nat ((size i + 12) / 12)) with (S (Z.to_nat (size i / 12))) by zlia.
  rewrite seq_S, fmap_app. rewrite length_splice by (rewrite length_entry_bytes; zlia).
  split_and!; [| zlia ..].
  f_equal.
  - apply list_fmap_ext. intros k x Hk. apply lookup_seq in Hk as [-> Hk].
    apply entry_at_splice_before; zlia.
  - replace (Z.to_nat (size i)) with (12 * (0 + Z.to_nat (size i / 12)))%nat by zlia.
    cbn [fmap list_fmap]. rewrite entry_at_splice_here by zlia. reflexivity.
Qed.

(** C1. [Write] appends its entry to the index's list of entries, keeps
    the index well formed, and keeps the file: the index is append-only
    and a write never rewrites an earlier entry. *)
Theorem Write_appends i off pos i' :
  wf i -> is_u32 off -> is_u64 pos -> Write i off pos = Ok i' ->
  entries i' = entries i ++ [(off, pos)] /\ wf i' /\ file i' = file i.
Proof.
  intros Hwf Ho Hp HW. unfold is_u32, is_u64 in *.
  destruct (Z.ltb_spec (Z.of_nat (length (mmap i))) (size i + entWidth)) as [Hf|Hf].
  { rewrite Write_full in HW by assumption. discriminate. }
  rewrite Write_ok in HW by assumption. injection HW as <-.
  destruct (entries_after_Write i off pos Hwf Hf) as [He Hw].
  rewrite wrap32_small, wrap64_small in He by lia. auto.
Qed.

(** C2. [Read] of an entry number that fits a [uint32] is the lookup of
    that entry in the list of entries, and [io.EOF] past its end. *)
Theorem Read_entries i n :
  wf i -> 0 <= n < 2 ^ 32 -> Read i n = ok_or EOF (entries i !! Z.to_nat n).
Proof.
  intros Hwf Hn. pose proof Hwf as (Hm & Hs & Hl).
  destruct (Z.le_gt_cases (entWidth * n + entWidth) (size i)).
  - rewrite Read_at by assumption. rewrite lookup_entries; [reflexivity|].
    unfold entWidth, offWidth, posWidth in *. zlia.
  - rewrite Read_past by (assumption || zlia). rewrite lookup_ge_None_2; [reflexivity|].
    rewrite length_entries. unfold entWidth, offWidth, posWidth in *. zlia.
Qed.

(** C3. [Read(-1)] returns the last entry, and [io.EOF] on an empty
    index, as long as the entry count fits the [uint32] the code casts
    it to. *)
Theorem Read_last i :
  wf i -> Z.of_nat (length (entries i)) <= 2 ^ 32 ->
  Read i (-1) = ok_or EOF (last (entries i)).
Proof.
  intros Hwf Hn. pose proof Hwf as (Hm & Hs & Hl).
  rewrite length_entries in Hn. unfold entWidth, offWidth, posWidth in *.
  destruct (Z.eqb_spec (size i) 0) as [H0|H0].
  - unfold Read, entries. rewrite H0. reflexivity.
  - rewrite Read_minus1 by (unfold entWidth, offWidth, posWidth; zlia).
    rewrite last_lookup, length_entries, Read_at by (assumption || widths; zlia).
    rewrite lookup_entries by (widths; zlia). widths. cbn [ok_or]. do 2 f_equal. zlia.
Qed.

End IndexRefinement.

(** ** Opening and closing *)

Section IndexLifecycle.
Implicit Types (i : index) (f : File) (c : Config).

Lemma newIndex_ok f c :
  0 < MaxIndexBytes (Segment c) < 2 ^ 63 ->
  newIndex no_faults f c =
  ({| fname := fname f; fdata := resize (Z.to_nat (MaxIndexBytes (Segment c))) (fdata f) |},
   Ok {| file := fname f;
         mmap := resize (Z.to_nat (MaxIndexBytes (Segment c))) (fdata f);
         size := Z.of_nat (length (fdata f)) |}).
Proof.
  intros H. unfold newIndex, no_faults. rewrite to_int64_small by lia.
  destruct (Z.ltb_spec (MaxIndexBytes (Segment c)) 0); [lia|]. cbn [fdata].
  rewrite length_resize. destruct (Nat.eqb_spec (Z.to_nat (MaxIndexBytes (Segment c))) 0); [lia|].
  reflexivity.
Qed.

Lemma Close_ok i f :
  wf i ->
  Close no_faults i f =
  ({| fname := fname f; fdata := take (Z.to_nat (size i)) (mmap i) |}, Ok tt).
Proof.
  intros (Hm & Hs & Hl). unfold Close, no_faults. rewrite to_int64_small by lia.
  destruct (Z.ltb_spec (size i) 0); [lia|]. cbn [fdata].
  rewrite resize_le by lia. reflexivity.
Qed.

Lemma entry_at_prefix m rest s k :
  (12 * k + 12 <= s)%nat -> (s <= length m)%nat ->
  entry_at (take s m ++ rest) k = entry_at m k.
Proof. intros. unfold entry_at. rewrite take_drop_prefix by lia. reflexivity. Qed.

(** Opening the file that holds the first [size i] bytes of a well-formed
    index's map gives an index with the same entries and size, mapped at
    [MaxIndexBytes]. *)
Lemma newIndex_prefix i name c :
  wf i -> 0 < MaxIndexBytes (Segment c) < 2 ^ 63 -> size i <= MaxIndexBytes (Segment c) ->
  exists i', snd (newIndex no_faults {| fname := name; fdata := take (Z.to_nat (size i)) (mmap i) |} c)
               = Ok i'
             /\ entries i' = entries i /\ wf i' /\ size i' = size i /\ file i' = name
             /\ Z.of_nat (length (mmap i')) = MaxIndexBytes (Segment c).
Proof.
  intros Hwf HM Hle. pose proof Hwf as (Hm & Hs & Hl).
  rewrite newIndex_ok by exact HM. cbn [snd fdata fname]. eexists. split; [reflexivity|].
  rewrite resize_take by lia. rewrite length_take.
  unfold entries, wf. cbn [mmap size file]. rewrite !length_app, length_take, length_replicate.
  widths. replace (Z.of_nat (Nat.min (Z.to_nat (size i)) (length (mmap i)))) with (size i) by lia.
  split_and!; [| lia .. | reflexivity | lia].
  apply list_fmap_ext. intros k x Hk. apply lookup_seq in Hk as [-> Hk].
  apply entry_at_prefix; zlia.
Qed.

(** C4. Closing a well-formed index and opening its file again gives an
    index with the same entries: [Close] truncates the over-allocated
    file to the logical size, from which [newIndex] recomputes it. *)
Theorem Close_reopen i f c :
  wf i -> 0 < MaxIndexBytes (Segment c) < 2 ^ 63 -> size i <= MaxIndexBytes (Segment c) ->
  exists f' i', Close no_faults i f = (f', Ok tt)
                /\ snd (newIndex no_faults f' c) = Ok i'
                /\ entries i' = entries i /\ wf i' /\ size i' = size i.
Proof.
  intros Hwf HM Hle. rewrite Close_ok by exact Hwf.
  destruct (newIndex_prefix i (fname f) c Hwf HM Hle) as (i' & Hr & He & Hw & Hs & _).
  do 2 eexists. split; [reflexivity|]. eauto.
Qed.

End IndexLifecycle.

(** ** Errors, bounds and the behaviours the spec does not expect *)

Section IndexFindings.
Implicit Types (i : index) (f : File) (c : Config).

(** C9. [Write] on a well-formed index fails only with [io.EOF], exactly when
    the mapped capacity cannot hold one more entry: it never panics. *)
Theorem Write_error i off pos e :
  wf i -> Write i off pos = Err e ->
  e = EOF /\ Z.of_nat (length (mmap i)) < size i + entWidth.
Proof.
  intros Hwf HW.
  destruct (Z.ltb_spec (Z.of_nat (length (mmap i))) (size i + entWidth)) as [Hf|Hf].
  - rewrite Write_full in HW by assumption. injection HW as <-. auto.
  - rewrite Write_ok in HW by assumption. discriminate.
Qed.

(** C13. [Read(in)] only looks at [uint32(in)]: an entry number of [2^32] or
    more, or a negative one other than -1, reads the entry its low 32
    bits name instead of failing. *)
Theorem Read_uint32_alias i n :
  n <> -1 -> Read i n = Read i (wrap32 n).
Proof.
  intros Hn. pose proof (wrap32_range n). unfold Read.
  destruct (Z.eqb_spec n (-1)); [contradiction|].
  destruct (Z.eqb_spec (wrap32 n) (-1)); [lia|].
  cbv beta iota zeta. rewrite (wrap32_small (wrap32 n)) by lia. reflexivity.
Qed.

(** C17. [newIndex] on a file no longer than [MaxIndexBytes] and holding whole
    entries opens a well-formed index of the file's entries, and leaves
    the file over-allocated to [MaxIndexBytes]. *)
Theorem newIndex_wf f c :
  0 < MaxIndexBytes (Segment c) < 2 ^ 63 ->
  Z.of_nat (length (fdata f)) <= MaxIndexBytes (Segment c) ->
  Z.of_nat (length (fdata f)) mod entWidth = 0 ->
  exists f' i, newIndex no_faults f c = (f', Ok i) /\ wf i
               /\ size i = Z.of_nat (length (fdata f))
               /\ Z.of_nat (length (fdata f')) = MaxIndexBytes (Segment c).
Proof.
  intros HM Hle Hmod. rewrite newIndex_ok by exact HM. do 2 eexists.
  split; [reflexivity|]. unfold wf. cbn [mmap size fdata]. rewrite length_resize.
  split_and!; lia.
Qed.

(** C14. A crash leaves the index file at its over-allocated length (the
    truncation of [Close] never ran); opening it again counts
    [MaxIndexBytes / 12] entries, whatever was written. *)
Theorem crash_reopen f c f1 i :
  0 < MaxIndexBytes (Segment c) < 2 ^ 63 ->
  newIndex no_faults f c = (f1, Ok i) ->
  forall data, length data = length (fdata f1) ->
  exists i2, snd (newIndex no_faults {| fname := fname f1; fdata := data |} c) = Ok i2
             /\ size i2 = MaxIndexBytes (Segment c)
             /\ Z.of_nat (length (entries i2)) = MaxIndexBytes (Segment c) / entWidth.
Proof.
  intros HM Hopen data Hlen. rewrite newIndex_ok in Hopen by exact HM.
  injection Hopen as <- _. cbn [fdata] in Hlen. rewrite length_resize in Hlen.
  rewrite newIndex_ok by exact HM. eexists. split; [reflexivity|].
  rewrite length_entries. cbn [size fdata]. rewrite Hlen. widths. zlia.
Qed.

(** C16. A failing [gommap.Map] leaves the file truncated up to
    [MaxIndexBytes]: [newIndex] does not undo the truncation on its
    error path. *)
Theorem newIndex_map_error_overallocates (flt : faults) f c :
  flt SysStat = false -> flt SysTruncate = false -> flt SysMmap = true ->
  0 <= MaxIndexBytes (Segment c) < 2 ^ 63 ->
  exists f', newIndex flt f c = (f', Err (ErrIO SysMmap))
             /\ Z.of_nat (length (fdata f')) = MaxIndexBytes (Segment c).
Proof.
  intros H1 H2 H3 HM. unfold newIndex. rewrite H1, H2, H3, to_int64_small by lia.
  destruct (Z.ltb_spec (MaxIndexBytes (Segment c)) 0); [lia|].
  eexists. split; [reflexivity|]. cbn [fdata]. rewrite length_resize. lia.
Qed.

(** C32. The errors of [newIndex] and the file each leaves: a failed
    stat or truncate leaves the file as it was; a failed map leaves it
    truncated to [MaxIndexBytes] (over-allocated). *)
Theorem newIndex_error (flt : faults) f c f' e :
  newIndex flt f c = (f', Err e) ->
  (f' = f /\ (e = ErrIO SysStat \/ e = ErrIO SysTruncate \/ e = ErrInval SysTruncate))
  \/ (f' = {| fname := fname f; fdata := resize (Z.to_nat (to_int64 (MaxIndexBytes (Segment c)))) (fdata f) |}
      /\ (e = ErrIO SysMmap \/ e = ErrInval SysMmap)).
Proof.
  unfold newIndex.
  repeat match goal with |- context [if ?b then _ else _] => destruct b end;
    intros H; inversion H; subst; auto 6.
Qed.

(** C33. The errors of [Close] and the file each leaves, on a well-formed
    index: a failed msync leaves the file as it was; a failed fsync or
    ftruncate leaves it holding the whole map, over-allocated as after a
    crash, so that reopening counts [MaxIndexBytes/12] entries; only a
    failed close(2) comes after the truncation. *)
Theorem Close_error (flt : faults) i f f' e :
  wf i -> Close flt i f = (f', Err e) ->
  (e = ErrIO SysMsync /\ f' = f)
  \/ ((e = ErrIO SysFsync \/ e = ErrIO SysFtruncate) /\ f' = {| fname := fname f; fdata := mmap i |})
  \/ (e = ErrIO SysClose
      /\ f' = {| fname := fname f; fdata := take (Z.to_nat (size i)) (mmap i) |}).
Proof.
  intros (Hm & Hs & Hl). unfold Close. rewrite to_int64_small by lia.
  destruct (flt SysMsync); [intros [= <- <-]; auto|].
  destruct (flt SysFsync); [intros [= <- <-]; auto|].
  destruct (flt SysFtruncate); [intros [= <- <-]; auto|].
  destruct (Z.ltb_spec (size i) 0); [lia|]. cbn [fdata]. rewrite resize_le by lia.
  destruct (flt SysClose); [intros [= <- <-]; auto | discriminate].
Qed.

(** C15. A file longer than [MaxIndexBytes] (left by a run with a larger
    setting) opens with a logical size past the end of the map, and
    [Read(-1)] then panics on a slice out of range. *)
Theorem newIndex_oversized_Read_panics f c f1 i :
  0 < MaxIndexBytes (Segment c) ->
  MaxIndexBytes (Segment c) / entWidth < 2 ^ 32 ->
  MaxIndexBytes (Segment c) mod entWidth = 0 ->
  Z.of_nat (length (fdata f)) = MaxIndexBytes (Segment c) + entWidth ->
  newIndex no_faults f c = (f1, Ok i) ->
  Z.of_nat (length (mmap i)) < size i /\ Read i (-1) = Err Panic.
Proof.
  intros HM Hsmall Hmod Hlen Hopen. widths.
  rewrite newIndex_ok in Hopen by zlia. injection Hopen as _ <-.
  unfold Read; cbn [mmap size]. rewrite length_resize. widths.
  split; [lia|].
  destruct (Z.eqb_spec (Z.of_nat (length (fdata f))) 0); [lia|].
  destruct (Z.eqb_spec (-1) (-1)); [|contradiction]. cbv beta iota zeta.
  rewrite Hlen. unwrap.
  case_zcmp; [zlia|].
  rewrite slice_panic; [reflexivity|]. unfold in_bounds. rewrite length_resize. zlia.
Qed.

End IndexFindings.

(** ** Concrete runs *)

Section IndexExamples.

Definition cfg36 : Config :=
  {| Segment := {| MaxStoreBytes := 1024; MaxIndexBytes := 36; InitialOffset := 0 |} |}.

Definition file0 : File := {| fname := "0.index"; fdata := [] |}.

(** The index [newIndex] opens on an empty file with room for three
    entries, and the same index after one [Write(0, 10)]. *)
Definition idx0 : index := {| file := "0.index"; mmap := replicate 36 Byte.x00; size := 0 |}.
Definition idx1 : index :=
  match Write idx0 0 10 with Ok i => i | Err _ => idx0 end.

Lemma idx1_wf : wf idx1.
Proof. unfold wf. vm_compute. split_and!; congruence. Qed.

Lemma Write_appends_witness :
  entries idx1 = entries idx0 ++ [(0, 10)] /\ wf idx1 /\ file idx1 = file idx0.
Proof.
  apply (Write_appends idx0 0 10 idx1);
    [unfold wf; vm_compute; split_and!; congruence | unfold is_u32; lia
    | unfold is_u64; lia | reflexivity].
Defined.

Lemma Read_entries_witness : Read idx1 0 = ok_or EOF (entries idx1 !! 0%nat).
Proof. apply (Read_entries idx1 0); [exact idx1_wf | lia]. Defined.


Lemma Read_last_witness : Read idx1 (-1) = ok_or EOF (last (entries idx1)).
Proof. apply (Read_last idx1); [exact idx1_wf | vm_compute; congruence]. Defined.

Lemma Close_reopen_witness :
  exists f' i', Close no_faults idx1 file0 = (f', Ok tt)
                /\ snd (newIndex no_faults f' cfg36) = Ok i'
                /\ entries i' = entries idx1 /\ wf i' /\ size i' = size idx1.
Proof. apply (Close_reopen idx1 file0 cfg36); [exact idx1_wf | vm_compute; auto | vm_compute; congruence]. Defined.

(** A full index: its 12 mapped bytes hold one entry. *)
Definition idx_full : index := {| file := "0.index"; mmap := replicate 12 Byte.x00; size := 12 |}.

Lemma Write_error_witness :
  Write idx_full 1 5 = Err EOF
  /\ (EOF = EOF /\ Z.of_nat (length (mmap idx_full)) < size idx_full + entWidth).
Proof.
  split; [reflexivity|].
  apply (Write_error idx_full 1 5 EOF); [unfold wf; vm_compute; split_and!; congruence | reflexivity].
Defined.

(** [Read(2^32)] returns entry 0 rather than [io.EOF]. *)
Lemma Read_uint32_alias_witness : Read idx1 (2 ^ 32) = Read idx1 0 /\ Read idx1 (2 ^ 32) = Ok (0, 10).
Proof.
  split; [apply (Read_uint32_alias idx1 (2 ^ 32)); lia | vm_compute; reflexivity].
Defined.

Lemma newIndex_wf_witness :
  exists f' i, newIndex no_faults file0 cfg36 = (f', Ok i) /\ wf i
               /\ size i = Z.of_nat (length (fdata file0))
               /\ Z.of_nat (length (fdata f')) = MaxIndexBytes (Segment cfg36).
Proof. apply newIndex_wf; vm_compute; first [split; reflexivity | congruence | reflexivity]. Defined.

Lemma crash_reopen_witness :
  exists i2, snd (newIndex no_faults {| fname := "0.index"; fdata := replicate 36 Byte.x00 |} cfg36) = Ok i2
             /\ size i2 = MaxIndexBytes (Segment cfg36)
             /\ Z.of_nat (length (entries i2)) = MaxIndexBytes (Segment cfg36) / entWidth.
Proof.
  apply (crash_reopen file0 cfg36 (fst (newIndex no_faults file0 cfg36))
           (match snd (newIndex no_faults file0 cfg36) with Ok i => i | Err _ => idx0 end));
    [vm_compute; split; reflexivity | reflexivity | reflexivity].
Defined.

Definition mmap_fails : faults := fun s => match s with SysMmap => true | _ => false end.

Lemma newIndex_map_error_witness :
  exists f', newIndex mmap_fails file0 cfg36 = (f', Err (ErrIO SysMmap))
             /\ Z.of_nat (length (fdata f')) = MaxIndexBytes (Segment cfg36).
Proof.
  apply newIndex_map_error_overallocates; [reflexivity | reflexivity | reflexivity | vm_compute; split; congruence].
Defined.

Lemma newIndex_error_witness :
  (({| fname := "0.index"; fdata := replicate 36 Byte.x00 |} : File) = file0
   /\ (ErrIO SysMmap = ErrIO SysStat \/ ErrIO SysMmap = ErrIO SysTruncate
       \/ ErrIO SysMmap = ErrInval SysTruncate))
  \/ (({| fname := "0.index"; fdata := replicate 36 Byte.x00 |} : File)
        = {| fname := fname file0;
             fdata := resize (Z.to_nat (to_int64 (MaxIndexBytes (Segment cfg36)))) (fdata file0) |}
      /\ (ErrIO SysMmap = ErrIO SysMmap \/ ErrIO SysMmap = ErrInval SysMmap)).
Proof. apply (newIndex_error mmap_fails file0 cfg36). vm_compute. reflexivity. Defined.

Definition fsync_fails : faults := fun s => match s with SysFsync => true | _ => false end.

(** Closing [idx1] with a failing fsync leaves its 36-byte map in the
    file, not the 12 bytes of its one entry. *)
Lemma Close_error_witness :
  (ErrIO SysFsync = ErrIO SysMsync /\ {| fname := fname file0; fdata := mmap idx1 |} = file0)
  \/ ((ErrIO SysFsync = ErrIO SysFsync \/ ErrIO SysFsync = ErrIO SysFtruncate)
      /\ ({| fname := fname file0; fdata := mmap idx1 |} : File) = {| fname := fname file0; fdata := mmap idx1 |})
  \/ (ErrIO SysFsync = ErrIO SysClose
      /\ ({| fname := fname file0; fdata := mmap idx1 |} : File)
         = {| fname := fname file0; fdata := take (Z.to_nat (size idx1)) (mmap idx1) |}).
Proof. apply (Close_error fsync_fails idx1 file0); [exact idx1_wf | vm_compute; reflexivity]. Defined.

Definition cfg12 : Config :=
  {| Segment := {| MaxStoreBytes := 1024; MaxIndexBytes := 12; InitialOffset := 0 |} |}.
Definition file24 : File := {| fname := "0.index"; fdata := replicate 24 Byte.x00 |}.

Lemma newIndex_oversized_witness :
  let i := match snd (newIndex no_faults file24 cfg12) with Ok i => i | Err _ => idx0 end in
  Z.of_nat (length (mmap i)) < size i /\ Read i (-1) = Err Panic.
Proof.
  apply (newIndex_oversized_Read_panics file24 cfg12 (fst (newIndex no_faults file24 cfg12)));
    [vm_compute; reflexivity | vm_compute; reflexivity | vm_compute; reflexivity
    | vm_compute; reflexivity | reflexivity].
Defined.

End IndexExamples.
