(* ===== verification/Store.v ===== *)
(** * Store: the length-prefixed record file of the log package

    The store is not under src/; it is modelled from the spec (sections
    4.2 and 6): an append-only file of records, each an 8-byte big-endian
    length followed by the payload, written through a buffer that is
    flushed before any read and on close.  The state is the file's bytes
    on disk, the buffered bytes and the tracked size.  The abstract view
    of a store is the list of payloads it holds ([holds]); [Append] adds
    one at the position it returns and [Read] at that position gives it
    back. *)

From stdpp Require Import base list strings.
From Stdlib Require Import ZArith Lia.
From Stdlib Require Import Strings.Byte.
From S2P Require Import Prelude Encoding.
Import BigEndian.

Open Scope Z_scope.
Open Scope monolog_scope.

Module Store.

(** [lenWidth]: the width of the length header. *)
Definition lenWidth : Z := 8.

(** A store: the file's name, the bytes on disk, the bytes still in the
    write buffer, and the size the store tracks. *)
Record store := { sname : string; disk : list byte; buf : list byte; ssize : Z }.

(** Opening: the size is the file's length; the buffer is empty. *)
Definition newStore (flt : faults) (name : string) (data : list byte) : result store :=
  syscall_do flt SysStat
    (Ok {| sname := name; disk := data; buf := []; ssize := Z.of_nat (length data) |}).

(** [append(payload)]: the header then the payload go to the buffer; the
    result is the number of bytes written and the record's position. *)
Definition Append (s : store) (p : list byte) : store * result (Z * Z) :=
  let pos := ssize s in
  let w := lenWidth + Z.of_nat (length p) in
  ({| sname := sname s; disk := disk s;
      buf := buf s ++ be_split 8 (Z.of_nat (length p)) ++ p;
      ssize := wrap64 (ssize s + w) |},
   Ok (w, pos)).

(** Flushing the buffer to the file. *)
Definition flush (flt : faults) (s : store) : store * result unit :=
  if flt SysWrite then (s, Err (ErrIO SysWrite)) else
  ({| sname := sname s; disk := disk s ++ buf s; buf := []; ssize := ssize s |}, Ok tt).

(** [File.ReadAt] of [n] bytes at [off]: a short read is [io.EOF]. *)
Definition ReadAt (flt : faults) (data : list byte) (n : nat) (off : Z) : result (list byte) :=
  syscall_do flt SysRead
    (if off <? 0 then Err (ErrInval SysRead)
     else if Z.of_nat (length data) <? off + Z.of_nat n then Err EOF
     else Ok (take n (drop (Z.to_nat off) data))).

(** [read(position)]: flush, read the header, then that many bytes. *)
Definition Read (flt : faults) (s : store) (pos : Z) : store * result (list byte) :=
  let '(s1, r) := flush flt s in
  match r with
  | Err e => (s1, Err e)
  | Ok _ =>
      (s1, hdr <- ReadAt flt (disk s1) (Z.to_nat lenWidth) (to_int64 pos) ;;
           let n := be_combine hdr in
           ReadAt flt (disk s1) (Z.to_nat n) (to_int64 (wrap64 (pos + lenWidth))))
  end.

(** [close()]: flush, then close the file. *)
Definition Close (flt : faults) (s : store) : store * result unit :=
  let '(s1, r) := flush flt s in
  match r with
  | Err e => (s1, Err e)
  | Ok _ => if flt SysClose then (s1, Err (ErrIO SysClose)) else (s1, Ok tt)
  end.

(** ** Abstract view *)

(** The bytes of one record and of a list of records. *)
Definition frame (p : list byte) : list byte := be_split 8 (Z.of_nat (length p)) ++ p.

Definition layout (ps : list (list byte)) : list byte := concat (frame <$> ps).

(** The position of record [k]. *)
Definition position (ps : list (list byte)) (k : nat) : Z :=
  Z.of_nat (length (layout (take k ps))).

(** [s] holds the payloads [ps]: its file and buffer are their frames and
    its size their length, which an [int64] file offset reaches. *)
Definition holds (s : store) (ps : list (list byte)) : Prop :=
  disk s ++ buf s = layout ps /\ ssize s = Z.of_nat (length (layout ps))
  /\ Z.of_nat (length (layout ps)) < 2 ^ 63.

End Store.

Import Store.

Section StoreLemmas.
Implicit Types (s : store) (p : list byte) (ps : list (list byte)).

Lemma length_frame p : length (frame p) = (8 + length p)%nat.
Proof. unfold frame. rewrite length_app, length_be_split. reflexivity. Qed.

Lemma layout_app ps qs : layout (ps ++ qs) = layout ps ++ layout qs.
Proof. unfold layout. rewrite fmap_app, concat_app. reflexivity. Qed.

Lemma layout_snoc ps p : layout (ps ++ [p]) = layout ps ++ frame p.
Proof. rewrite layout_app. unfold layout at 2. simpl. rewrite app_nil_r. reflexivity. Qed.

(** The layout around record [k]. *)
Lemma layout_split ps k p :
  ps !! k = Some p -> layout ps = layout (take k ps) ++ frame p ++ layout (drop (S k) ps).
Proof.
  intros H. rewrite <- (take_drop_middle ps k p H) at 1.
  rewrite layout_app. reflexivity.
Qed.

Lemma ReadAt_ok data n off :
  0 <= off -> off + Z.of_nat n <= Z.of_nat (length data) ->
  ReadAt no_faults data n off = Ok (take n (drop (Z.to_nat off) data)).
Proof.
  intros H1 H2. unfold ReadAt. rewrite syscall_do_no_faults.
  destruct (Z.ltb_spec off 0); [lia|].
  destruct (Z.ltb_spec (Z.of_nat (length data)) (off + Z.of_nat n)); [lia|]. reflexivity.
Qed.

Lemma ReadAt_short data n off :
  0 <= off -> Z.of_nat (length data) < off + Z.of_nat n -> ReadAt no_faults data n off = Err EOF.
Proof.
  intros H1 H2. unfold ReadAt. rewrite syscall_do_no_faults.
  destruct (Z.ltb_spec off 0); [lia|].
  destruct (Z.ltb_spec (Z.of_nat (length data)) (off + Z.of_nat n)); [reflexivity|lia].
Qed.

(** Reading flushes the buffer: afterwards the file holds everything. *)
Lemma flush_holds s ps :
  holds s ps ->
  flush no_faults s = ({| sname := sname s; disk := layout ps; buf := []; ssize := ssize s |}, Ok tt)
  /\ holds {| sname := sname s; disk := layout ps; buf := []; ssize := ssize s |} ps.
Proof.
  intros (Hd & Hs & Hb). unfold flush, no_faults. rewrite Hd. split; [reflexivity|].
  unfold holds. simpl. rewrite app_nil_r. auto.
Qed.

End StoreLemmas.

Section StoreTheorems.
Implicit Types (s : store) (p : list byte) (ps : list (list byte)).

(** Store [append] adds its payload to the payloads the store holds,
    and returns the bytes written (header and payload) and the record's
    position, the store's size before the write. *)
Theorem Append_holds s ps p :
  holds s ps -> Z.of_nat (length (layout ps)) + 8 + Z.of_nat (length p) < 2 ^ 63 ->
  holds (fst (Append s p)) (ps ++ [p])
  /\ snd (Append s p) = Ok (8 + Z.of_nat (length p), Z.of_nat (length (layout ps))).
Proof.
  intros (Hd & Hs & Hb) Hlen. unfold Append, holds, lenWidth. cbn [fst snd disk buf ssize].
  rewrite layout_snoc, length_app, length_frame. rewrite Hs.
  split; [|reflexivity]. unwrap. split_and!; [| lia | lia].
  rewrite app_assoc, Hd. reflexivity.
Qed.

(** Store [read] at the position of a held record returns its payload:
    the flush makes the buffered bytes readable, the header gives the
    payload's length. *)
Theorem Read_holds s ps k p :
  holds s ps -> ps !! k = Some p ->
  exists s', Read no_faults s (position ps k) = (s', Ok p) /\ holds s' ps.
Proof.
  intros Hh Hk. destruct (flush_holds s ps Hh) as [Hf Hh'].
  pose proof Hh as (Hd & Hs & Hb).
  pose proof (layout_split ps k p Hk) as Hsplit.
  assert (Hl : length (layout ps) = (length (layout (take k ps)) + (8 + length p)
                                     + length (layout (drop (S k) ps)))%nat)
    by (rewrite Hsplit, !length_app, length_frame; lia).
  eexists. split; [|exact Hh']. unfold Read, position, lenWidth. rewrite Hf. cbn [disk].
  apply pair_equal_spec. split; [reflexivity|].
  rewrite to_int64_small by lia.
  rewrite ReadAt_ok by (change (Z.to_nat 8) with 8%nat; lia).
  rewrite Nat2Z.id. cbn [bind]. rewrite Hsplit. unfold frame.
  rewrite <- (app_assoc (be_split _ _) p).
  rewrite take_drop_mid by (rewrite length_be_split; lia).
  change (Z.to_nat 8) with 8%nat. rewrite (take_ge (be_split 8 _) 8) by (rewrite length_be_split; lia). rewrite be_combine_split.
  unwrap. rewrite Z.mod_small by lia. rewrite Nat2Z.id.
  rewrite to_int64_small by lia. rewrite ReadAt_ok by (rewrite ?length_app, ?length_be_split; lia).
  replace (Z.to_nat (Z.of_nat (length (layout (take k ps))) + 8))
    with (length (layout (take k ps) ++ be_split 8 (Z.of_nat (length p))))
    by (rewrite length_app, length_be_split; lia).
  rewrite !app_assoc, <- (app_assoc _ p).
  rewrite take_drop_mid by lia. rewrite take_ge by lia. reflexivity.
Qed.

(** Store [read] at the end of the held records is [io.EOF]: there is no
    header to read. *)
Theorem Read_end s ps :
  holds s ps -> exists s', Read no_faults s (Z.of_nat (length (layout ps))) = (s', Err EOF).
Proof.
  intros Hh. destruct (flush_holds s ps Hh) as [Hf _]. pose proof Hh as (Hd & Hs & Hb).
  eexists. unfold Read, lenWidth. rewrite Hf. cbn [disk].
  rewrite to_int64_small by lia. rewrite ReadAt_short by (change (Z.to_nat 8) with 8%nat; lia).
  reflexivity.
Qed.

End StoreTheorems.
