(* ===== verification/Directory.v ===== *)
(** * Directory: the log's directory and the names of segment files

    The segmented log (spec, sections 4.3 and 4.4) keeps each segment in
    two files of one directory, named after the segment's base offset:
    ["<base>.store"] and ["<base>.index"].  Opening the log lists the
    directory, extracts the base offset of every file whose name has that
    form, and opens a segment per base offset; removing a segment or the
    log deletes files.  The directory is a finite map from file names to
    contents ([gmap string (list byte)]), as a one-level directory is in
    file-system models.  The operations: [open_create] ([os.OpenFile]
    with [O_CREATE]), [remove_file] ([os.Remove]), and the listing of base
    offsets [segment_bases], through [parse_name] (the extension, then
    [strconv.ParseUint] of the stem).  The theorems: a segment file's
    name parses back to its kind and base offset ([parse_store_name],
    [parse_index_name]), so the names of distinct files differ. *)

From stdpp Require Import base list strings pretty gmap.
From Stdlib Require Import ZArith Lia.
From Stdlib Require Import Strings.Byte.
From S2P Require Import Prelude.

Open Scope Z_scope.
Open Scope monolog_scope.

Module Directory.

(** A directory: the contents of each file, by name. *)
Abbreviation directory := (gmap string (list byte)).

(** The two files of the segment at [base]: the base offset in decimal
    and the extension. *)
Definition store_name (base : Z) : string := pretty (Z.to_N base) +:+ ".store".
Definition index_name (base : Z) : string := pretty (Z.to_N base) +:+ ".index".

(** The kind of a segment file, by its extension. *)
Inductive kind := StoreFile | IndexFile.

#[export] Instance kind_eq_dec : EqDecision kind.
Proof. solve_decision. Defined.

(** [strconv.ParseUint(s, 10, 64)]: decimal digits, most significant
    first; the empty string, any other character and a value outside
    the 64-bit range are errors. *)
Fixpoint parse_digits (s : string) (acc : N) : option N :=
  match s with
  | EmptyString => Some acc
  | String c s' => d ← Ascii.is_nat c; parse_digits s' (acc * 10 + N.of_nat d)%N
  end.

Definition ParseUint (s : string) : option N :=
  match s with
  | EmptyString => None
  | _ => n ← parse_digits s 0; if (n <? 2 ^ 64)%N then Some n else None
  end.

(** [strings.TrimSuffix] when the suffix is there: the stem before it. *)
Fixpoint strip_suffix (suf s : string) : option string :=
  if String.eqb s suf then Some EmptyString else
  match s with
  | EmptyString => None
  | String c s' => String c <$> strip_suffix suf s'
  end.

(** A segment file's kind and base offset, read off its name; [None] for
    the other files of the directory. *)
Definition parse_name (nm : string) : option (kind * Z) :=
  match strip_suffix ".store" nm with
  | Some stem => (fun n => (StoreFile, Z.of_N n)) <$> ParseUint stem
  | None =>
      match strip_suffix ".index" nm with
      | Some stem => (fun n => (IndexFile, Z.of_N n)) <$> ParseUint stem
      | None => None
      end
  end.

(** The base offsets the directory's file names give, once per file. *)
Definition segment_bases (d : directory) : list Z :=
  omap (fun kv => snd <$> parse_name kv.1) (map_to_list d).

(** [os.OpenFile(name, O_RDWR|O_CREATE|O_APPEND)]: the file's contents,
    and the directory with the file created empty if it was not there. *)
Definition open_create (d : directory) (nm : string) : directory * list byte :=
  match d !! nm with
  | Some data => (d, data)
  | None => (<[nm := []]> d, [])
  end.

(** [os.Remove(name)]. *)
Definition remove_file (flt : faults) (d : directory) (nm : string) : directory * result unit :=
  if flt SysRemove then (d, Err (ErrIO SysRemove)) else
  match d !! nm with
  | Some _ => (delete nm d, Ok tt)
  | None => (d, Err (ErrNotExist SysRemove))
  end.

(** Remove every file of a list, in order, going on after a failure; the
    failures in order. *)
Fixpoint remove_files (flt : faults) (d : directory) (nms : list string) : directory * list goerr :=
  match nms with
  | [] => (d, [])
  | nm :: nms' =>
      let '(d1, r) := remove_file flt d nm in
      let '(d2, es) := remove_files flt d1 nms' in
      (d2, add_err r es)
  end.

(** The names of the directory's segment files. *)
Definition segment_files (d : directory) : list string :=
  filter (fun nm => is_Some (parse_name nm)) (map_to_list d).*1.

(** [d'] differs from [d] only at names that satisfy [P]. *)
Definition changes_only (d d' : directory) (P : string -> Prop) : Prop :=
  forall nm, d' !! nm = d !! nm \/ P nm.

(** The name of the segment file of a kind and base offset. *)
Definition file_name (k : kind) (b : Z) : string :=
  match k with StoreFile => store_name b | IndexFile => index_name b end.

(** Every segment file of [d] has the name the log gives it, for one of
    the base offsets [bases]. *)
Definition dir_canon (bases : list Z) (d : directory) : Prop :=
  forall nm k b, parse_name nm = Some (k, b) -> is_Some (d !! nm) -> nm = file_name k b /\ b ∈ bases.

(** [dir_canon], decided over the listing. *)
Definition dir_canonb (bases : list Z) (d : directory) : bool :=
  forallb (fun kv => match parse_name kv.1 with
                     | Some (k, b) => bool_decide (kv.1 = file_name k b /\ b ∈ bases)
                     | None => true
                     end) (map_to_list d).

End Directory.

Import Directory.

Section DirectoryLemmas.
Implicit Types (d : directory) (s : string).

Lemma string_app_cons c s1 s2 : String c s1 +:+ s2 = String c (s1 +:+ s2).
Proof. reflexivity. Qed.

Lemma string_length_app s1 s2 : String.length (s1 +:+ s2) = (String.length s1 + String.length s2)%nat.
Proof. induction s1; [reflexivity|]. rewrite string_app_cons. cbn. rewrite IHs1. reflexivity. Qed.

Lemma list_ascii_of_string_app s1 s2 :
  String.list_ascii_of_string (s1 +:+ s2) = String.list_ascii_of_string s1 ++ String.list_ascii_of_string s2.
Proof. induction s1; [reflexivity|]. rewrite string_app_cons. cbn. rewrite IHs1. reflexivity. Qed.

Lemma strip_suffix_unfold suf s :
  strip_suffix suf s = if String.eqb s suf then Some EmptyString else
                       match s with
                       | EmptyString => None
                       | String c s' => String c <$> strip_suffix suf s'
                       end.
Proof. destruct s; reflexivity. Qed.

(** [strip_suffix] finds the suffix at the end and only there. *)
Lemma strip_suffix_app suf p : strip_suffix suf (p +:+ suf) = Some p.
Proof.
  rewrite strip_suffix_unfold.
  induction p as [|c p IH]; [change (EmptyString +:+ suf) with suf; rewrite String.eqb_refl; reflexivity|].
  destruct (String.eqb_spec (String c p +:+ suf) suf) as [E|_].
  - apply (f_equal String.length) in E. rewrite string_length_app in E. cbn in E. lia.
  - rewrite string_app_cons. cbn [strip_suffix]. rewrite <- strip_suffix_unfold in IH. rewrite IH. reflexivity.
Qed.

Lemma strip_suffix_sound suf s p : strip_suffix suf s = Some p -> s = p +:+ suf.
Proof.
  revert p. induction s as [|c s IH]; intros p; rewrite strip_suffix_unfold.
  - destruct (String.eqb_spec EmptyString suf) as [<-|_]; [intros [= <-]; reflexivity | discriminate].
  - destruct (String.eqb_spec (String c s) suf) as [<-|_]; [intros [= <-]; reflexivity|].
    destruct (strip_suffix suf s) as [p'|] eqn:E; [|discriminate].
    intros [= <-]. rewrite (IH p' eq_refl), string_app_cons. reflexivity.
Qed.

Lemma is_nat_pretty_N_char x : (x < 10)%N -> Ascii.is_nat (pretty_N_char x) = Some (N.to_nat x).
Proof.
  intros Hx. assert (x = 0 \/ x = 1 \/ x = 2 \/ x = 3 \/ x = 4 \/ x = 5 \/ x = 6 \/ x = 7
                     \/ x = 8 \/ x = 9)%N as H by lia.
  repeat destruct H as [->|H]; try reflexivity. subst. reflexivity.
Qed.

(** Reading the digits [pretty_N_go] writes in front of [s] continues
    with their value: the induction of [pretty_N_go_step]. *)
Lemma parse_digits_pretty_go x s : parse_digits (pretty_N_go x s) 0 = parse_digits s x.
Proof.
  revert s. induction x as [x IH] using (well_founded_induction N.lt_wf_0). intros s.
  destruct (decide (x = 0%N)) as [->|Hx]; [rewrite pretty_N_go_0; reflexivity|].
  rewrite pretty_N_go_step by lia. rewrite IH by (apply N.div_lt; lia).
  cbn [parse_digits]. rewrite is_nat_pretty_N_char by (apply N.mod_lt; lia). cbn [mbind option_bind].
  rewrite N2Nat.id. f_equal. pose proof (N.div_mod x 10). lia.
Qed.

Lemma pretty_N_go_nonempty x s : (0 < x)%N -> pretty_N_go x s <> EmptyString.
Proof.
  revert s. induction x as [x IH] using (well_founded_induction N.lt_wf_0). intros s Hx.
  rewrite pretty_N_go_step by lia.
  destruct (decide (x / 10 = 0)%N) as [E|E].
  - rewrite E, pretty_N_go_0. discriminate.
  - apply IH; [apply N.div_lt; lia | apply N.neq_0_lt_0; exact E].
Qed.

(** [strconv.ParseUint] reads back what [pretty] wrote. *)
Lemma ParseUint_pretty n : (n < 2 ^ 64)%N -> ParseUint (pretty n) = Some n.
Proof.
  intros Hn. unfold pretty, pretty_N. destruct (decide (n = 0%N)) as [->|Hx]; [reflexivity|].
  pose proof (parse_digits_pretty_go n EmptyString) as E. cbn [parse_digits] in E.
  destruct (pretty_N_go n EmptyString) as [|c s] eqn:Hs; [exfalso; exact (pretty_N_go_nonempty n _ ltac:(lia) Hs)|].
  unfold ParseUint. rewrite E. cbn. destruct (N.ltb_spec n (2 ^ 64)); [reflexivity | lia].
Qed.

Lemma index_not_store b : strip_suffix ".store" (index_name b) = None.
Proof.
  destruct (strip_suffix ".store" (index_name b)) as [p|] eqn:E; [|reflexivity].
  apply strip_suffix_sound in E. unfold index_name in E. exfalso.
  apply (f_equal String.list_ascii_of_string) in E. rewrite !list_ascii_of_string_app in E. apply app_inj_2 in E as [_ E]; [discriminate | reflexivity].
Qed.

(** A store file's name parses back to its base offset. *)
Lemma parse_store_name b : 0 <= b < 2 ^ 64 -> parse_name (store_name b) = Some (StoreFile, b).
Proof.
  intros Hb. unfold parse_name, store_name. rewrite strip_suffix_app, ParseUint_pretty by lia.
  cbn. rewrite Z2N.id by lia. reflexivity.
Qed.

(** An index file's name parses back to its base offset. *)
Lemma parse_index_name b : 0 <= b < 2 ^ 64 -> parse_name (index_name b) = Some (IndexFile, b).
Proof.
  intros Hb. unfold parse_name. rewrite index_not_store. unfold index_name.
  rewrite strip_suffix_app, ParseUint_pretty by lia. cbn. rewrite Z2N.id by lia. reflexivity.
Qed.

End DirectoryLemmas.

Section DirectoryNames.

(** The names of segment files are all distinct. *)
Lemma store_index_name_ne b b' :
  0 <= b < 2 ^ 64 -> 0 <= b' < 2 ^ 64 -> store_name b <> index_name b'.
Proof.
  intros Hb Hb' E. apply (f_equal parse_name) in E.
  rewrite parse_store_name, parse_index_name in E by assumption. discriminate.
Qed.

Lemma store_name_inj b b' :
  0 <= b < 2 ^ 64 -> 0 <= b' < 2 ^ 64 -> store_name b = store_name b' -> b = b'.
Proof.
  intros Hb Hb' E. apply (f_equal parse_name) in E.
  rewrite !parse_store_name in E by assumption. congruence.
Qed.

Lemma index_name_inj b b' :
  0 <= b < 2 ^ 64 -> 0 <= b' < 2 ^ 64 -> index_name b = index_name b' -> b = b'.
Proof.
  intros Hb Hb' E. apply (f_equal parse_name) in E.
  rewrite !parse_index_name in E by assumption. congruence.
Qed.

End DirectoryNames.

Section DirectoryChanges.
Implicit Types (d : directory) (P Q : string -> Prop).

Lemma changes_only_refl d P : changes_only d d P.
Proof. intros nm. auto. Qed.

Lemma changes_only_trans d1 d2 d3 P Q :
  changes_only d1 d2 P -> changes_only d2 d3 Q -> changes_only d1 d3 (fun nm => P nm \/ Q nm).
Proof. intros H1 H2 nm. destruct (H2 nm) as [->|]; [destruct (H1 nm)|]; auto. Qed.

Lemma changes_only_weaken d d' P Q :
  changes_only d d' P -> (forall nm, P nm -> Q nm) -> changes_only d d' Q.
Proof. intros H HPQ nm. destruct (H nm); auto. Qed.

Lemma changes_only_insert d a x : changes_only d (<[a := x]> d) (fun nm => nm = a).
Proof. intros nm. destruct (decide (nm = a)) as [|Hne]; [auto | rewrite lookup_insert_ne by congruence; auto]. Qed.

Lemma changes_only_delete d a : changes_only d (delete a d) (fun nm => nm = a).
Proof. intros nm. destruct (decide (nm = a)) as [|Hne]; [auto | rewrite lookup_delete_ne by congruence; auto]. Qed.

Lemma changes_only_open_create d a : changes_only d (open_create d a).1 (fun nm => nm = a).
Proof. unfold open_create. destruct (d !! a); [apply changes_only_refl | apply changes_only_insert]. Qed.

Lemma changes_only_remove_file flt d a : changes_only d (remove_file flt d a).1 (fun nm => nm = a).
Proof. unfold remove_file. repeat case_match; first [apply changes_only_refl | apply changes_only_delete]. Qed.

End DirectoryChanges.

Section DirectoryCanon.
Implicit Types (d : directory) (bases : list Z).

Lemma parse_file_name k b : 0 <= b < 2 ^ 64 -> parse_name (file_name k b) = Some (k, b).
Proof. destruct k; [apply parse_store_name | apply parse_index_name]. Qed.

(** A directory changed only at the files of base offsets in [bases'],
    named the log's way, keeps its segment files canonical. *)
Lemma dir_canon_update bases bases' d d' :
  dir_canon bases d -> bases ⊆ bases' ->
  (forall nm, d' !! nm = d !! nm \/ exists k b, nm = file_name k b /\ b ∈ bases' /\ 0 <= b < 2 ^ 64) ->
  dir_canon bases' d'.
Proof.
  intros Hc Hsub Hw nm k b Hp Hs. destruct (Hw nm) as [E | (k' & b' & -> & Hb' & Hr)].
  - rewrite E in Hs. destruct (Hc nm k b Hp Hs) as [Hn Hb]. split; [exact Hn | set_solver].
  - rewrite parse_file_name in Hp by exact Hr. injection Hp as <- <-. auto.
Qed.

(** The files of a base offset the log does not have are absent. *)
Lemma dir_canon_fresh bases d k b :
  dir_canon bases d -> b ∉ bases -> 0 <= b < 2 ^ 64 -> d !! file_name k b = None.
Proof.
  intros Hc Hb Hr. destruct (d !! file_name k b) eqn:E; [|reflexivity].
  exfalso. destruct (Hc (file_name k b) k b (parse_file_name k b Hr)) as [_ Hin]; [rewrite E; eauto|].
  contradiction.
Qed.

(** Once both files of the base offsets dropped from [bases] are gone,
    the segment files are canonical for the rest. *)
Lemma dir_canon_shrink bases bases' d :
  dir_canon bases d -> (forall b, b ∈ bases -> b ∉ bases' -> forall k, d !! file_name k b = None) ->
  dir_canon bases' d.
Proof.
  intros Hc Hgone nm k b Hp Hs. destruct (Hc nm k b Hp Hs) as [-> Hb]. split; [reflexivity|].
  destruct (decide (b ∈ bases')) as [|Hn]; [assumption|].
  rewrite (Hgone b Hb Hn k) in Hs. destruct Hs as [? [=]].
Qed.

Lemma elem_of_segment_bases d b :
  b ∈ segment_bases d <-> exists nm k, parse_name nm = Some (k, b) /\ is_Some (d !! nm).
Proof.
  unfold segment_bases. rewrite list_elem_of_omap. split.
  - intros ([nm x] & Hin & Hb). apply elem_of_map_to_list in Hin. cbn in Hb.
    destruct (parse_name nm) as [[k b']|] eqn:Hp; [|discriminate]. injection Hb as ->. eauto.
  - intros (nm & k & Hp & [x Hx]). exists (nm, x). split; [by apply elem_of_map_to_list|].
    cbn. rewrite Hp. reflexivity.
Qed.

(** The listing of a canonical directory names base offsets of the log,
    and every base offset whose store file is there. *)
Lemma segment_bases_canon bases d b : dir_canon bases d -> b ∈ segment_bases d -> b ∈ bases.
Proof.
  intros Hc Hb. apply elem_of_segment_bases in Hb as (nm & k & Hp & Hs). exact (proj2 (Hc nm k b Hp Hs)).
Qed.

Lemma segment_bases_store d b x :
  0 <= b < 2 ^ 64 -> d !! store_name b = Some x -> b ∈ segment_bases d.
Proof. intros Hr Hx. apply elem_of_segment_bases. exists (store_name b), StoreFile. rewrite parse_store_name; eauto. Qed.

Lemma dir_canonb_sound bases d : dir_canonb bases d = true -> dir_canon bases d.
Proof.
  intros H nm k b Hp [x Hx]. unfold dir_canonb in H. rewrite forallb_forall in H.
  specialize (H (nm, x) (proj1 (list_elem_of_In _ _) (proj2 (elem_of_map_to_list _ _ _) Hx))).
  cbn in H. rewrite Hp in H. exact (bool_decide_eq_true_1 _ H).
Qed.

(** A directory whose listing gives no base offset has no segment file. *)
Lemma dir_canon_nil d : segment_bases d = [] -> dir_canon [] d.
Proof.
  intros Hnil nm k b Hp Hs. exfalso. apply (not_elem_of_nil b). rewrite <- Hnil.
  apply elem_of_segment_bases. eauto.
Qed.

Lemma segment_bases_nil d :
  (forall nm, is_Some (parse_name nm) -> d !! nm = None) -> segment_bases d = [].
Proof.
  intros H. destruct (segment_bases d) as [|b bs] eqn:E; [reflexivity|exfalso].
  assert (Hb : b ∈ segment_bases d) by (rewrite E; left).
  apply elem_of_segment_bases in Hb as (nm & k & Hp & Hs). rewrite H in Hs by eauto. by destruct Hs.
Qed.

Lemma elem_of_segment_files d nm :
  nm ∈ segment_files d <-> is_Some (parse_name nm) /\ is_Some (d !! nm).
Proof.
  unfold segment_files. rewrite list_elem_of_filter, list_elem_of_fmap. split.
  - intros (Hp & [nm' x] & -> & Hin). apply elem_of_map_to_list in Hin. cbn. eauto.
  - intros (Hp & x & Hx). split; [exact Hp|]. exists (nm, x). split; [reflexivity|]. by apply elem_of_map_to_list.
Qed.

(** Removing a list of files, with removal not failing, deletes exactly
    those files. *)
Lemma remove_files_lookup flt d nms nm :
  flt SysRemove = false ->
  (remove_files flt d nms).1 !! nm = if decide (nm ∈ nms) then None else d !! nm.
Proof.
  intros Hf. revert d. induction nms as [|n nms IH]; intros d; [reflexivity|].
  cbn [remove_files]. unfold remove_file. rewrite Hf.
  destruct (d !! n) as [x|] eqn:Hn;
    [pose proof (IH (delete n d)) as IH'; destruct (remove_files _ (delete n d) nms) eqn:E
    |pose proof (IH d) as IH'; destruct (remove_files _ d nms) eqn:E];
    cbn [fst] in IH' |- *; rewrite IH'; destruct (decide (n = nm)) as [<-|Hne];
    rewrite ?lookup_delete_eq, ?lookup_delete_ne by assumption;
    repeat case_decide; first [reflexivity | exact Hn | set_solver].
Qed.

(** Removing every file of a list that are all there, each once, with
    no fault, reports no failure. *)
Lemma remove_files_ok d nms :
  NoDup nms -> Forall (fun nm => is_Some (d !! nm)) nms -> (remove_files no_faults d nms).2 = [].
Proof.
  intros Hnd. revert d. induction Hnd as [|n nms Hn Hnd IH]; intros d Hall; [reflexivity|].
  inversion Hall as [|? ? [x Hx] Hall']; subst. cbn [remove_files]. unfold remove_file.
  cbn [no_faults]. rewrite Hx. destruct (remove_files _ _ nms) as [d2 es] eqn:E.
  cbn [snd add_err]. specialize (IH (delete n d)). rewrite E in IH. apply IH.
  rewrite Forall_forall in Hall' |- *. intros nm Hin.
  rewrite lookup_delete_ne by (intros ->; contradiction). exact (Hall' nm Hin).
Qed.

End DirectoryCanon.
