(* ===== verification/Segment.v ===== *)
(** * Segment: one index and one store over a range of offsets

    The segment is not under src/; it is modelled from the spec (section
    4.3) on top of the models of [index.go] ([Index]) and of the store
    ([Store]).  A segment covers the offsets [baseOffset, nextOffset): its
    [Append] writes the record to the store, then the entry
    (nextOffset - baseOffset, position) to the index, then advances
    [nextOffset]; its [Read] looks the relative offset up in the index and
    reads the store at the position found; [newSegment] opens its two
    files in the [Directory], [Close] writes them back and [Remove]
    deletes them.  [seg_holds] relates a segment to the list of records
    it holds, [seg_named] names its files after its base offset. *)

From stdpp Require Import base list strings gmap.
From Stdlib Require Import ZArith Lia.
From Stdlib Require Import Strings.Byte.
From S2P Require Import Prelude Encoding Index Store Directory.
Import Index Store Directory.

Open Scope Z_scope.
Open Scope monolog_scope.

Module Segment.

Record segment := {
  store : Store.store;
  index : Index.index;
  baseOffset : Z;
  nextOffset : Z;
  config : Config
}.

(** The next offset of a reopened segment: one past the relative offset
    of the index's last entry, or the base offset when [Read(-1)] fails. *)
Definition next_of_index (idx : Index.index) (base : Z) : Z :=
  match Index.Read idx (-1) with
  | Ok (off, _) => wrap64 (base + off + 1)
  | Err _ => base
  end.

(** [newSegment(dir, baseOffset, c)]: open (creating it if absent) the
    store file ["<base>.store"] and make the store of its bytes, then open
    the index file ["<base>.index"] and make the index, which truncates
    the file to [MaxIndexBytes]; [nextOffset] comes from the index.  The
    directory is returned with the files as these calls leave them, the
    truncated index file included when the map then fails. *)
Definition newSegment (flt : faults) (d : directory) (base : Z) (c : Config)
  : directory * result segment :=
  let '(d1, sdata) := open_create d (store_name base) in
  match newStore flt (store_name base) sdata with
  | Err e => (d1, Err e)
  | Ok st =>
      let '(d2, idata) := open_create d1 (index_name base) in
      let '(f', ri) := newIndex flt {| fname := index_name base; fdata := idata |} c in
      (<[fname f' := fdata f']> d2,
       idx <- ri ;;
       Ok {| store := st; index := idx; baseOffset := base;
             nextOffset := next_of_index idx base; config := c |})
  end.

(** [append(record)]: store, then index, then [nextOffset]; an error of
    either is returned as it is, with the store as the failed call left
    it. *)
Definition Append (s : segment) (p : list byte) : segment * result Z :=
  let cur := nextOffset s in
  let '(st', r) := Store.Append (store s) p in
  let s1 := {| store := st'; index := index s; baseOffset := baseOffset s;
               nextOffset := nextOffset s; config := config s |} in
  match r with
  | Err e => (s1, Err e)
  | Ok (_, pos) =>
      match Index.Write (index s) (wrap32 (wrap64 (nextOffset s - baseOffset s))) pos with
      | Err e => (s1, Err e)
      | Ok idx' =>
          ({| store := st'; index := idx'; baseOffset := baseOffset s;
              nextOffset := wrap64 (nextOffset s + 1); config := config s |}, Ok cur)
      end
  end.

(** [read(globalOffset)]: the index entry of [off - baseOffset], then the
    store at its position (the read flushes the store's buffer). *)
Definition Read (s : segment) (off : Z) : segment * result (list byte) :=
  match Index.Read (index s) (to_int64 (wrap64 (off - baseOffset s))) with
  | Err e => (s, Err e)
  | Ok (_, pos) =>
      let '(st', r) := Store.Read no_faults (store s) pos in
      ({| store := st'; index := index s; baseOffset := baseOffset s;
          nextOffset := nextOffset s; config := config s |}, r)
  end.

(** [isMaxed()]: the store or the index has reached its maximum. *)
Definition IsMaxed (s : segment) : bool :=
  (MaxStoreBytes (Segment (config s)) <=? ssize (store s))
  || (MaxIndexBytes (Segment (config s)) <=? Index.size (index s)).

(** [close()]: the index (its truncating close of the mapped file), then
    the store (flush and close); the first failure is returned.  The
    directory is returned with the files as the calls leave them: the
    index file as its close left it, the store file with the bytes that
    reached it. *)
Definition Close (flt : faults) (s : segment) (d : directory) : directory * result unit :=
  let '(f', r) := Index.Close flt (index s) {| fname := Index.Name (index s); fdata := mmap (index s) |} in
  let d1 := <[fname f' := fdata f']> d in
  match r with
  | Err e => (<[sname (store s) := disk (store s)]> d1, Err e)
  | Ok _ => let '(st', r') := Store.Close flt (store s) in (<[sname st' := disk st']> d1, r')
  end.

(** [remove()]: close, then delete the index file, then the store file;
    the first failure stops. *)
Definition Remove (flt : faults) (s : segment) (d : directory) : directory * result unit :=
  let '(d1, r) := Close flt s d in
  match r with
  | Err e => (d1, Err e)
  | Ok _ =>
      let '(d2, r2) := remove_file flt d1 (Index.Name (index s)) in
      match r2 with
      | Err e => (d2, Err e)
      | Ok _ => remove_file flt d2 (sname (store s))
      end
  end.

(** The segment's files are the two files named after its base offset. *)
Definition seg_named (s : segment) : Prop :=
  sname (store s) = store_name (baseOffset s) /\ Index.file (index s) = index_name (baseOffset s).

(** The entries an index holds for records [rs]: record [k] at relative
    offset [k] and at its position in the store. *)
Definition index_entries (rs : list (list byte)) : list (Z * Z) :=
  imap (fun k _ => (Z.of_nat k, position rs k)) rs.

(** [s] holds the records [rs]: the store holds them, the index holds
    their entries, and [nextOffset] is one past the last. *)
Definition seg_holds (s : segment) (rs : list (list byte)) : Prop :=
  holds (store s) rs /\ wf (index s) /\ entries (index s) = index_entries rs
  /\ nextOffset s = baseOffset s + Z.of_nat (length rs)
  /\ 0 <= baseOffset s /\ nextOffset s < 2 ^ 63 /\ Z.of_nat (length rs) < 2 ^ 32.

End Segment.

Import Segment.

Section SegmentLemmas.
Implicit Types (s : segment) (p : list byte) (rs : list (list byte)).

Lemma position_snoc rs p k :
  (k <= length rs)%nat -> position (rs ++ [p]) k = position rs k.
Proof. intros H. unfold position. rewrite take_app_le by lia. reflexivity. Qed.

Lemma index_entries_snoc rs p :
  index_entries (rs ++ [p])
  = index_entries rs ++ [(Z.of_nat (length rs), Z.of_nat (length (layout rs)))].
Proof.
  unfold index_entries. rewrite imap_app. f_equal.
  - apply imap_ext. intros k x Hk. apply lookup_lt_Some in Hk.
    rewrite position_snoc by lia. reflexivity.
  - simpl. rewrite Nat.add_0_r, position_snoc by lia. unfold position.
    rewrite take_ge by lia. reflexivity.
Qed.

Lemma lookup_index_entries rs k p :
  rs !! k = Some p -> index_entries rs !! k = Some (Z.of_nat k, position rs k).
Proof. intros H. unfold index_entries. rewrite list_lookup_imap, H. reflexivity. Qed.

Lemma length_index_entries rs : length (index_entries rs) = length rs.
Proof. apply length_imap. Qed.

(** A segment's index holds exactly one entry per record. *)
Lemma seg_index_size s rs :
  seg_holds s rs -> Index.size (index s) = entWidth * Z.of_nat (length rs).
Proof.
  intros (Hh & Hwf & He & _). pose proof Hwf as (Hm & Hs & _).
  apply (f_equal length) in He. rewrite length_entries, length_index_entries in He.
  widths. zlia.
Qed.

(** The index and store calls keep the names of their files. *)
Lemma newIndex_fname flt f c : fname (newIndex flt f c).1 = fname f.
Proof. unfold newIndex. repeat case_match; reflexivity. Qed.

Lemma Index_Close_fname flt i f : fname (Index.Close flt i f).1 = fname f.
Proof. unfold Index.Close. repeat case_match; reflexivity. Qed.

Lemma Store_Close_sname flt st : sname (Store.Close flt st).1 = sname st.
Proof. unfold Store.Close, flush. repeat case_match; simplify_eq; reflexivity. Qed.

Lemma Write_file i off pos i' : Index.Write i off pos = Ok i' -> Index.file i' = Index.file i.
Proof.
  unfold Index.Write. case_match; [discriminate|].
  intros (m1 & _ & (m2 & _ & [= <-])%bind_eq_Ok)%bind_eq_Ok. reflexivity.
Qed.

End SegmentLemmas.

Section SegmentTheorems.
Implicit Types (s : segment) (p : list byte) (rs : list (list byte)).

(** Segment [append] with room in its index returns the segment's next
    offset and holds one more record; its base offset, configuration and
    map are kept. *)
Theorem seg_Append s rs p :
  seg_holds s rs ->
  Index.size (index s) + entWidth <= Z.of_nat (length (mmap (index s))) ->
  Z.of_nat (length (layout rs)) + 8 + Z.of_nat (length p) < 2 ^ 63 ->
  nextOffset s + 1 < 2 ^ 63 -> Z.of_nat (length rs) + 1 < 2 ^ 32 ->
  exists s', Append s p = (s', Ok (nextOffset s)) /\ seg_holds s' (rs ++ [p])
             /\ baseOffset s' = baseOffset s /\ config s' = config s
             /\ length (mmap (index s')) = length (mmap (index s)).
Proof.
  intros Hs Hroom Hst Hnext Hcnt. pose proof Hs as (Hh & Hwf & He & Hn & Hb & Hlt & Hc).
  destruct (Append_holds (store s) rs p Hh Hst) as [Hh' Hr].
  unfold Append. destruct (Store.Append (store s) p) as [st' r]. cbn [fst snd] in Hh', Hr. subst r.
  rewrite Hn. replace (baseOffset s + Z.of_nat (length rs) - baseOffset s)
    with (Z.of_nat (length rs)) by lia. unwrap.
  rewrite Write_ok by assumption.
  destruct (entries_after_Write (index s) (Z.of_nat (length rs)) (Z.of_nat (length (layout rs)))
              Hwf Hroom) as [He' Hwf'].
  eexists. split; [reflexivity|]. unfold seg_holds. cbn [store index nextOffset baseOffset config mmap].
  rewrite He', He, index_entries_snoc, length_app, length_splice
    by (rewrite length_entry_bytes; pose proof (wf_size_bound _ Hwf); widths; lia).
  unwrap. cbn [length]. split_and!; try first [assumption | reflexivity | lia].
Qed.

(** Segment [read] of an offset the segment holds returns its record. *)
Theorem seg_Read s rs k p :
  seg_holds s rs -> rs !! k = Some p ->
  exists s', Read s (baseOffset s + Z.of_nat k) = (s', Ok p) /\ seg_holds s' rs
             /\ baseOffset s' = baseOffset s.
Proof.
  intros Hs Hk. pose proof Hs as (Hh & Hwf & He & Hn & Hb & Hlt & Hc).
  pose proof (lookup_lt_Some _ _ _ Hk) as Hkl.
  pose proof (seg_index_size s rs Hs) as Hsz.
  unfold Read. replace (baseOffset s + Z.of_nat k - baseOffset s) with (Z.of_nat k) by lia.
  rewrite wrap64_small, to_int64_small by lia.
  rewrite Read_at by (assumption || widths; lia).
  assert (L : entries (index s) !! k = Some (entry_at (mmap (index s)) k))
    by (apply lookup_entries; rewrite Hsz; widths; zlia).
  rewrite He, (lookup_index_entries rs k p Hk) in L.
  assert (E : entry_at (mmap (index s)) k = (Z.of_nat k, position rs k)) by congruence.
  rewrite Nat2Z.id, E.
  destruct (Read_holds (store s) rs k p Hh Hk) as (st' & Hr & Hh').
  rewrite Hr. eexists. split; [reflexivity|].
  unfold seg_holds. cbn [store index nextOffset baseOffset]. auto 10.
Qed.

(** C26. Segment [read] at or past [nextOffset] (within the [uint32] range of
    relative offsets) fails with [io.EOF] and changes nothing. *)
Theorem seg_Read_past s rs off :
  seg_holds s rs -> nextOffset s <= off < baseOffset s + 2 ^ 32 ->
  Read s off = (s, Err EOF).
Proof.
  intros Hs Hoff. pose proof Hs as (Hh & Hwf & He & Hn & Hb & Hlt & Hc).
  pose proof (seg_index_size s rs Hs) as Hsz.
  unfold Read. rewrite wrap64_small, to_int64_small by lia.
  rewrite Read_past; [reflexivity | assumption | lia | rewrite Hsz; widths; lia].
Qed.

(** A segment created on files that do not exist yet holds no record: its
    index is mapped at [MaxIndexBytes] with size 0, so [Read(-1)] fails and
    [nextOffset] is the base offset; its files are named after [base]. *)
Lemma newSegment_empty d base c :
  0 <= base < 2 ^ 63 -> 0 < MaxIndexBytes (Segment c) < 2 ^ 63 ->
  d !! store_name base = None -> d !! index_name base = None ->
  exists s, snd (newSegment no_faults d base c) = Ok s
            /\ seg_holds s [] /\ baseOffset s = base /\ nextOffset s = base /\ config s = c
            /\ Z.of_nat (length (mmap (index s))) = MaxIndexBytes (Segment c)
            /\ ssize (store s) = 0 /\ seg_named s.
Proof.
  intros Hb Hm Hs Hi. unfold newSegment, open_create. rewrite Hs. unfold newStore.
  rewrite syscall_do_no_faults, lookup_insert_ne, Hi by (apply store_index_name_ne; lia).
  rewrite newIndex_ok by exact Hm. cbn [snd bind length fdata].
  eexists. split; [reflexivity|]. unfold seg_holds, seg_named, holds, wf. cbn -[resize Z.pow].
  rewrite length_resize.
  match goal with |- context [next_of_index ?i base] => change (next_of_index i base) with base end.
  split_and!; try reflexivity; lia.
Qed.

(** A segment that is not maxed, whose map has the configured size, a
    multiple of 12, has room for one more entry in its index and is below
    its store limit. *)
Lemma seg_room s rs :
  seg_holds s rs -> IsMaxed s = false ->
  Z.of_nat (length (mmap (index s))) = MaxIndexBytes (Segment (config s)) ->
  MaxIndexBytes (Segment (config s)) mod entWidth = 0 ->
  Index.size (index s) + entWidth <= Z.of_nat (length (mmap (index s)))
  /\ ssize (store s) < MaxStoreBytes (Segment (config s)).
Proof.
  intros Hs Hm Hlen Hmod. pose proof (seg_index_size s rs Hs) as Hsz.
  unfold IsMaxed in Hm. apply orb_false_iff in Hm as [H1 H2].
  apply Z.leb_gt in H1, H2. rewrite Hsz in H2 |- *. rewrite Hlen. widths. split; zlia.
Qed.

(** Closing a segment that holds [rs] succeeds and leaves the records'
    frames in the store file and the written entries in the index file. *)
Lemma seg_Close_ok s rs d :
  seg_holds s rs ->
  Close no_faults s d
  = (<[sname (store s) := layout rs]>
       (<[Index.file (index s) := take (Z.to_nat (Index.size (index s))) (mmap (index s))]> d), Ok tt).
Proof.
  intros Hs. pose proof Hs as (Hh & Hwf & _). unfold Close. rewrite Close_ok by exact Hwf.
  destruct (flush_holds (store s) rs Hh) as [Hf _]. unfold Store.Close. rewrite Hf. reflexivity.
Qed.

(** An index holding the entries of [rs] gives back [nextOffset]: one
    past the relative offset of its last entry, or the base when empty. *)
Lemma next_of_index_entries idx base rs :
  wf idx -> entries idx = index_entries rs -> Z.of_nat (length rs) < 2 ^ 32 ->
  0 <= base -> base + Z.of_nat (length rs) < 2 ^ 64 ->
  next_of_index idx base = base + Z.of_nat (length rs).
Proof.
  intros Hwf He Hc Hb Hn. pose proof Hwf as (Hm & Hs & Hl).
  pose proof (f_equal length He) as Hlen. rewrite length_entries, length_index_entries in Hlen.
  unfold next_of_index. destruct rs as [|p0 rs'] using rev_ind.
  - assert (Index.size idx = 0) by (cbn in Hlen; widths; zlia).
    unfold Index.Read. rewrite H. cbn. lia.
  - clear IHrs'. rewrite length_app in Hlen, Hc, Hn |- *. cbn [length] in *.
    rewrite Read_minus1 by (widths; zlia).
    rewrite Read_at by (assumption || widths; zlia).
    assert (L : entries idx !! length rs' = Some (entry_at (mmap idx) (length rs')))
      by (apply lookup_entries; lia).
    rewrite He, (lookup_index_entries (rs' ++ [p0]) (length rs') p0) in L
      by (rewrite lookup_app_r, Nat.sub_diag by lia; reflexivity).
    replace (Z.to_nat (Index.size idx / entWidth - 1)) with (length rs') by (widths; zlia).
    assert (E : entry_at (mmap idx) (length rs') = (Z.of_nat (length rs'), position (rs' ++ [p0]) (length rs'))) by congruence.
    rewrite E. unwrap. lia.
Qed.

(** Reopening the files a closed segment left in the directory gives a
    segment that holds the same records from the same base, with the
    index mapped at the configured [MaxIndexBytes] and the files named
    after the base. *)
Lemma seg_reopen s rs c d :
  seg_holds s rs -> 0 < MaxIndexBytes (Segment c) < 2 ^ 63 ->
  Index.size (index s) <= MaxIndexBytes (Segment c) ->
  d !! store_name (baseOffset s) = Some (layout rs) ->
  d !! index_name (baseOffset s) = Some (take (Z.to_nat (Index.size (index s))) (mmap (index s))) ->
  exists s', snd (newSegment no_faults d (baseOffset s) c) = Ok s'
             /\ seg_holds s' rs /\ baseOffset s' = baseOffset s /\ config s' = c
             /\ Z.of_nat (length (mmap (index s'))) = MaxIndexBytes (Segment c)
             /\ ssize (store s') = ssize (store s) /\ Index.size (index s') = Index.size (index s)
             /\ seg_named s'.
Proof.
  intros Hs HM Hle Hds Hdi. pose proof Hs as (Hh & Hwf & He & Hn & Hb & Hlt & Hc).
  pose proof Hh as (_ & Hss & Hbound).
  destruct (newIndex_prefix (index s) (index_name (baseOffset s)) c Hwf HM Hle)
    as (i' & Hi & He' & Hwf' & Hsz & Hf & Hml).
  unfold newSegment, open_create. rewrite Hds. unfold newStore. rewrite syscall_do_no_faults, Hdi.
  destruct (newIndex no_faults _ c) as [f' ri] eqn:E. cbn [snd] in Hi |- *. subst ri. cbn [bind].
  eexists. split; [reflexivity|].
  rewrite He in He'. rewrite (next_of_index_entries i' (baseOffset s) rs Hwf' He') by lia.
  unfold seg_holds, seg_named, holds. cbn [store index baseOffset nextOffset config disk buf ssize sname].
  rewrite app_nil_r. split_and!; first [reflexivity | assumption | lia].
Qed.

(** Opening a segment changes only its two files, closing or removing
    it only the files it has open, whatever the faults. *)
Lemma newSegment_dir flt d base c :
  changes_only d (newSegment flt d base c).1 (fun nm => nm = store_name base \/ nm = index_name base).
Proof.
  unfold newSegment. pose proof (changes_only_open_create d (store_name base)) as H1.
  destruct (open_create d (store_name base)) as [d1 sdata]. cbn [fst] in H1.
  destruct (newStore _ _ _); [|cbn [fst]; eapply changes_only_weaken; [exact H1 | intros ?; cbn beta; tauto]].
  pose proof (changes_only_open_create d1 (index_name base)) as H2.
  destruct (open_create d1 (index_name base)) as [d2 idata]. cbn [fst] in H2.
  pose proof (newIndex_fname flt {| fname := index_name base; fdata := idata |} c) as Hf.
  destruct (newIndex _ _ c) as [f' ri]. cbn [fst fname] in Hf |- *. rewrite Hf.
  eapply changes_only_weaken;
    [exact (changes_only_trans _ _ _ _ _ (changes_only_trans _ _ _ _ _ H1 H2) (changes_only_insert d2 _ (fdata f'))) | intros ?; cbn beta; tauto].
Qed.

Lemma seg_Close_dir flt s d :
  changes_only d (Close flt s d).1 (fun nm => nm = sname (store s) \/ nm = Index.file (index s)).
Proof.
  unfold Close. pose proof (Index_Close_fname flt (index s) {| fname := Index.Name (index s); fdata := mmap (index s) |}) as Hf.
  destruct (Index.Close _ _ _) as [f' r]. cbn [fst fname] in Hf. rewrite Hf. unfold Index.Name.
  pose proof (changes_only_insert d (Index.file (index s)) (fdata f')) as H1.
  destruct r as [|e].
  - pose proof (Store_Close_sname flt (store s)) as Hs. destruct (Store.Close flt (store s)) as [st' r'].
    cbn [fst] in Hs |- *. rewrite Hs.
    eapply changes_only_weaken; [exact (changes_only_trans _ _ _ _ _ H1 (changes_only_insert _ _ _)) | intros ?; cbn beta; tauto].
  - eapply changes_only_weaken; [exact (changes_only_trans _ _ _ _ _ H1 (changes_only_insert _ _ _)) | intros ?; cbn beta; tauto].
Qed.

Lemma seg_Remove_dir flt s d :
  changes_only d (Remove flt s d).1 (fun nm => nm = sname (store s) \/ nm = Index.file (index s)).
Proof.
  unfold Remove. pose proof (seg_Close_dir flt s d) as H1.
  destruct (Close flt s d) as [d1 r]. cbn [fst] in H1. destruct r; [|exact H1].
  pose proof (changes_only_remove_file flt d1 (Index.Name (index s))) as H2.
  destruct (remove_file flt d1 _) as [d2 r2]. cbn [fst] in H2 |- *. unfold Index.Name in H2.
  pose proof (changes_only_trans _ _ _ _ _ H1 H2) as H12.
  destruct r2; [|cbn [fst]; eapply changes_only_weaken; [exact H12 | intros ?; cbn beta; tauto]].
  eapply changes_only_weaken; [exact (changes_only_trans _ _ _ _ _ H12 (changes_only_remove_file flt d2 _)) | intros ?; cbn beta; tauto].
Qed.

(** Removing a segment that holds its records, with no fault, deletes
    exactly its two files. *)
Lemma seg_Remove_ok s rs d :
  seg_holds s rs -> sname (store s) <> Index.file (index s) ->
  exists d', Remove no_faults s d = (d', Ok tt)
    /\ forall nm, d' !! nm = if decide (nm = sname (store s) \/ nm = Index.file (index s)) then None
                             else d !! nm.
Proof.
  intros Hh Hne. unfold Remove. rewrite (seg_Close_ok s rs d Hh). unfold remove_file. cbn [no_faults].
  unfold Index.Name. rewrite lookup_insert_ne, lookup_insert_eq by congruence.
  rewrite lookup_delete_ne, lookup_insert_eq by congruence.
  eexists. split; [reflexivity|]. intros nm.
  destruct (decide (nm = sname (store s))) as [->|H1]; [rewrite lookup_delete_eq; case_decide; tauto|].
  rewrite lookup_delete_ne by congruence.
  destruct (decide (nm = Index.file (index s))) as [->|H2]; [rewrite lookup_delete_eq; case_decide; tauto|].
  rewrite lookup_delete_ne, !lookup_insert_ne by congruence. case_decide; [tauto | reflexivity].
Qed.

(** Segment [append] keeps the names of the segment's files. *)
Lemma seg_Append_named s p : seg_named s -> seg_named (Append s p).1.
Proof.
  unfold seg_named, Append. destruct (Store.Append (store s) p) as [st' r] eqn:E.
  assert (Hn : sname st' = sname (store s))
    by (unfold Store.Append in E; injection E as <- _; reflexivity).
  destruct r as [[w pos]|e]; [|cbn; rewrite Hn; tauto].
  destruct (Index.Write _ _ _) as [idx'|e] eqn:Ew; cbn [fst store index baseOffset]; rewrite Hn; [|tauto].
  rewrite (Write_file _ _ _ _ Ew). tauto.
Qed.

End SegmentTheorems.

Section SegmentFindings.
Implicit Types (s : segment) (p : list byte) (rs : list (list byte)).

(** C27. When the index is full, segment [append] fails with the index's
    [io.EOF] after the store has already taken the record: the store holds
    a record no index entry names, and [nextOffset] does not move. *)
Theorem seg_Append_index_full s rs p :
  seg_holds s rs ->
  Z.of_nat (length (mmap (index s))) < Index.size (index s) + entWidth ->
  Z.of_nat (length (layout rs)) + 8 + Z.of_nat (length p) < 2 ^ 63 ->
  exists s1, Append s p = (s1, Err EOF)
             /\ holds (store s1) (rs ++ [p]) /\ index s1 = index s
             /\ nextOffset s1 = nextOffset s.
Proof.
  intros Hs Hfull Hst. pose proof Hs as (Hh & Hwf & He & Hn & Hb & Hlt & Hc).
  destruct (Append_holds (store s) rs p Hh Hst) as [Hh' Hr].
  unfold Append. destruct (Store.Append (store s) p) as [st' r]. cbn [fst snd] in Hh', Hr. subst r.
  rewrite Write_full by assumption. eexists. split; [reflexivity|]. auto.
Qed.

(** C28. With a [MaxIndexBytes] that is not a multiple of 12, an index holding
    all the whole entries that fit is below [MaxIndexBytes], so the
    segment is not maxed, yet the next [append] fails with [io.EOF]: the
    rotation check that follows a write never sees this segment full. *)
Theorem seg_not_maxed_but_full s rs p :
  seg_holds s rs ->
  Z.of_nat (length (mmap (index s))) = MaxIndexBytes (Segment (config s)) ->
  MaxIndexBytes (Segment (config s)) mod entWidth <> 0 ->
  Z.of_nat (length rs) = MaxIndexBytes (Segment (config s)) / entWidth ->
  ssize (store s) < MaxStoreBytes (Segment (config s)) ->
  Z.of_nat (length (layout rs)) + 8 + Z.of_nat (length p) < 2 ^ 63 ->
  IsMaxed s = false /\ exists s1, Append s p = (s1, Err EOF).
Proof.
  intros Hs Hcap Hmod Hcnt Hstore Hst. pose proof (seg_index_size s rs Hs) as Hsz.
  split.
  - unfold IsMaxed. rewrite Hsz.
    destruct (Z.leb_spec (MaxStoreBytes (Segment (config s))) (ssize (store s))); [lia|].
    destruct (Z.leb_spec (MaxIndexBytes (Segment (config s))) (entWidth * Z.of_nat (length rs)));
      [widths; zlia | reflexivity].
  - pose proof Hs as (Hh & Hwf & _).
    destruct (Append_holds (store s) rs p Hh Hst) as [_ Hr].
    unfold Append. destruct (Store.Append (store s) p) as [st' r]. cbn [snd] in Hr. subst r.
    rewrite Write_full by (rewrite ?Hsz, ?Hcap; first [assumption | widths; zlia]). eauto.
Qed.

End SegmentFindings.

Section SegmentExamples.

(** An empty segment at base 0 whose index has room for three entries,
    and the same segment after appending the record "h". *)
Definition cfg_seg36 : Config :=
  {| Segment := {| MaxStoreBytes := 1024; MaxIndexBytes := 36; InitialOffset := 0 |} |}.
Definition cfg_seg16 : Config :=
  {| Segment := {| MaxStoreBytes := 1024; MaxIndexBytes := 16; InitialOffset := 0 |} |}.

Definition empty_segment (c : Config) : segment :=
  {| store := {| sname := "0.store"; disk := []; buf := []; ssize := 0 |};
     index := {| file := "0.index";
                 mmap := replicate (Z.to_nat (MaxIndexBytes (Segment c))) Byte.x00; size := 0 |};
     baseOffset := 0; nextOffset := 0; config := c |}.

Definition seg36_1 : segment := fst (Append (empty_segment cfg_seg36) [Byte.x68]).
Definition seg16_1 : segment := fst (Append (empty_segment cfg_seg16) [Byte.x68]).

(** Decide [seg_holds] of a concrete segment by computation. *)
Ltac seg_holds_compute :=
  unfold seg_holds, holds, wf; vm_compute; split_and!; first [reflexivity | congruence].

Lemma seg36_0_holds : seg_holds (empty_segment cfg_seg36) [].
Proof. seg_holds_compute. Qed.

Lemma seg36_1_holds : seg_holds seg36_1 [[Byte.x68]].
Proof. seg_holds_compute. Qed.

Lemma seg16_1_holds : seg_holds seg16_1 [[Byte.x68]].
Proof. seg_holds_compute. Qed.

Lemma seg_Read_past_witness : Read seg36_1 1 = (seg36_1, Err EOF).
Proof. apply (seg_Read_past seg36_1 [[Byte.x68]] 1); [exact seg36_1_holds | vm_compute; split; congruence]. Defined.

Lemma seg_Append_index_full_witness :
  exists s1, Append seg16_1 [Byte.x69] = (s1, Err EOF)
             /\ holds (store s1) ([[Byte.x68]] ++ [[Byte.x69]]) /\ index s1 = index seg16_1
             /\ nextOffset s1 = nextOffset seg16_1.
Proof. apply seg_Append_index_full; [exact seg16_1_holds | vm_compute; reflexivity .. ]. Defined.

Lemma seg_not_maxed_but_full_witness :
  IsMaxed seg16_1 = false /\ exists s1, Append seg16_1 [Byte.x69] = (s1, Err EOF).
Proof.
  apply (seg_not_maxed_but_full seg16_1 [[Byte.x68]]);
    [exact seg16_1_holds | vm_compute; first [reflexivity | congruence] .. ].
Defined.

End SegmentExamples.
