(* ===== verification/CommitLog.v ===== *)
(** * CommitLog: the segmented log of the log package

    The segmented log is not under src/; it is modelled from the spec
    (sections 4.4 and 5) over [Segment] and [Directory]: an ordered list
    of segments whose last one is active, kept in a directory of files.
    [NewLog] lists the directory, opens a segment per base offset its
    file names give (deduplicated and sorted) or creates one at
    [InitialOffset]; [Append] appends to the active segment and, when
    that leaves it maxed, creates the next segment at its [nextOffset];
    [Read] finds the segment whose range holds the offset or fails with
    [OffsetOutOfRange]; [Truncate] removes the segments entirely below an
    offset with their files; [Close] closes every segment and [Remove]
    then deletes every segment file, both going on after a failure and
    reporting all of them.  After [Close] every operation fails with the
    closed error.  [log_holds] relates a log to the records of its
    segments, one chunk per segment; [log_inv] is the invariant appends
    keep; [log_dir] relates the log to its directory.  The theorems:
    appends and reads refine a list of records, a fresh directory opens
    an empty log, truncation keeps the later records and removes the
    earlier files.  Closing, reopening and removal are in [Recovery]. *)

From stdpp Require Import base list strings pretty sorting gmap.
From Stdlib Require Import ZArith Lia.
From Stdlib Require Import Strings.Byte.
From S2P Require Import Prelude Encoding Index Store Directory Segment.
Import Index Store Directory Segment.

Open Scope Z_scope.
Open Scope monolog_scope.

Module CommitLog.

(** [type Log struct { Dir; Config; activeSegment; segments }]: the active
    segment is the last of [segments]; [closed] is the state after
    [Close]. *)
Record Log := { Dir : string; Conf : Config; segments : list segment; closed : bool }.

(** The defaults of the spec (section 6) for unset limits. *)
Definition with_defaults (c : Config) : Config :=
  let sc := Segment c in
  {| Segment := {| MaxStoreBytes := if MaxStoreBytes sc =? 0 then 1024 else MaxStoreBytes sc;
                   MaxIndexBytes := if MaxIndexBytes sc =? 0 then 1024 else MaxIndexBytes sc;
                   InitialOffset := InitialOffset sc |} |}.

(** Open the segment of each base offset, in order; the first failure
    stops. *)
Fixpoint open_segments (flt : faults) (d : directory) (c : Config) (bases : list Z)
  : directory * result (list segment) :=
  match bases with
  | [] => (d, Ok [])
  | b :: bs =>
      let '(d1, r) := newSegment flt d b c in
      match r with
      | Err e => (d1, Err e)
      | Ok s => let '(d2, rs) := open_segments flt d1 c bs in (d2, ss <- rs ;; Ok (s :: ss))
      end
  end.

(** [open(directory, config)]: the base offsets the file names give,
    deduplicated and sorted, a segment opened for each; on a directory
    with no segment file, one created at [InitialOffset]. *)
Definition NewLog (flt : faults) (dir : string) (c0 : Config) (d : directory)
  : directory * result Log :=
  let c := with_defaults c0 in
  let bases := merge_sort Z.le (remove_dups (segment_bases d)) in
  let '(d1, r) := open_segments flt d c bases in
  match r with
  | Err e => (d1, Err e)
  | Ok [] =>
      let '(d2, r2) := newSegment flt d1 (InitialOffset (Segment c)) c in
      (d2, s <- r2 ;; Ok {| Dir := dir; Conf := c; segments := [s]; closed := false |})
  | Ok segs => (d1, Ok {| Dir := dir; Conf := c; segments := segs; closed := false |})
  end.

Definition with_segments (l : Log) (segs : list segment) : Log :=
  {| Dir := Dir l; Conf := Conf l; segments := segs; closed := closed l |}.

(** [append(record)]: to the active segment; if that leaves it maxed, a
    new active segment starts at its [nextOffset], on new files. *)
Definition Append (flt : faults) (l : Log) (d : directory) (p : list byte)
  : Log * directory * result Z :=
  if closed l then (l, d, Err ErrClosed) else
  match last (segments l) with
  | None => (l, d, Err Panic)   (* no active segment: a nil dereference *)
  | Some act =>
      let '(act', r) := Segment.Append act p in
      let segs := <[pred (length (segments l)) := act']> (segments l) in
      match r with
      | Err e => (with_segments l segs, d, Err e)
      | Ok off =>
          if IsMaxed act' then
            let '(d1, rn) := newSegment flt d (nextOffset act') (Conf l) in
            match rn with
            | Ok ns => (with_segments l (segs ++ [ns]), d1, Ok off)
            | Err e => (with_segments l segs, d1, Err e)
            end
          else (with_segments l segs, d, Ok off)
      end
  end.

(** A client appending the payloads [ps] one after another; the results
    in order. *)
Fixpoint append_all (flt : faults) (l : Log) (d : directory) (ps : list (list byte))
  : Log * directory * list (result Z) :=
  match ps with
  | [] => (l, d, [])
  | p :: ps' => let '(l1, d1, r) := Append flt l d p in
                let '(l2, d2, rs) := append_all flt l1 d1 ps' in (l2, d2, r :: rs)
  end.

(** The segment whose range [baseOffset, nextOffset) holds [off]. *)
Definition in_range (off : Z) (s : segment) : Prop := baseOffset s <= off < nextOffset s.

#[export] Instance in_range_dec off s : Decision (in_range off s).
Proof. unfold in_range. apply _. Defined.

(** [read(globalOffset)]. *)
Definition Read (l : Log) (off : Z) : Log * result (list byte) :=
  if closed l then (l, Err ErrClosed) else
  match list_find (in_range off) (segments l) with
  | None => (l, Err (ErrOffsetOutOfRange off))
  | Some (k, s) =>
      let '(s', r) := Segment.Read s off in
      (with_segments l (<[k := s']> (segments l)), r)
  end.

(** [lowestOffset()] and [highestOffset()]; [None] is the empty signal. *)
Definition LowestOffset (l : Log) : option Z := baseOffset <$> head (segments l).

Definition HighestOffset (l : Log) : option Z :=
  match head (segments l), last (segments l) with
  | Some first, Some act =>
      if nextOffset act =? baseOffset first then None else Some (nextOffset act - 1)
  | _, _ => None
  end.

(** Apply a teardown step to every segment in order, going on after a
    failure (spec, section 5: one segment's failure does not prevent
    the others'); the failures in order. *)
Fixpoint teardown (op : segment -> directory -> directory * result unit)
         (segs : list segment) (d : directory) : directory * list goerr :=
  match segs with
  | [] => (d, [])
  | s :: ss => let '(d1, r) := op s d in
               let '(d2, es) := teardown op ss d1 in (d2, add_err r es)
  end.

(** The segments [truncate(lowest)] keeps: those with an offset past
    [lowest]. *)
Definition retained (l : Log) (lowest : Z) : list segment :=
  filter (fun s => ~ (nextOffset s <= lowest)) (segments l).

(** [truncate(lowest)]: remove every segment whose offsets are all below
    [lowest], its files included. *)
Definition Truncate (flt : faults) (l : Log) (lowest : Z) (d : directory)
  : Log * directory * list goerr :=
  if closed l then (l, d, [ErrClosed]) else
  let '(d1, es) := teardown (Segment.Remove flt) (filter (fun s => nextOffset s <= lowest) (segments l)) d in
  (with_segments l (retained l lowest), d1, es).

(** [close()]: close every segment; the log is closed after it, and a
    second [close] fails. *)
Definition Close (flt : faults) (l : Log) (d : directory) : Log * directory * list goerr :=
  if closed l then (l, d, [ErrClosed]) else
  let '(d1, es) := teardown (Segment.Close flt) (segments l) d in
  ({| Dir := Dir l; Conf := Conf l; segments := segments l; closed := true |}, d1, es).

(** [remove()]: close, then delete every segment file of the directory,
    going on after a failure. *)
Definition Remove (flt : faults) (l : Log) (d : directory) : Log * directory * list goerr :=
  let '(l1, d1, es) := Close flt l d in
  let '(d2, es2) := remove_files flt d1 (segment_files d1) in
  (l1, d2, es ++ es2).

(** The log holds the records [concat chunks] from offset [lo]: segment
    [i] holds chunk [i] and starts where the chunks before it end. *)
Definition log_holds (l : Log) (lo : Z) (chunks : list (list (list byte))) : Prop :=
  closed l = false /\ length (segments l) = length chunks /\ segments l <> []
  /\ (forall i s rs, segments l !! i = Some s -> chunks !! i = Some rs ->
        seg_holds s rs /\ baseOffset s = lo + Z.of_nat (length (concat (take i chunks)))).

(** A configuration the log runs on: positive limits, and an index limit
    that is a whole number of entries, at most the [uint32] range of
    relative offsets. *)
Definition conf_ok (c : Config) : Prop :=
  0 < MaxStoreBytes (Segment c)
  /\ 0 < MaxIndexBytes (Segment c) <= entWidth * (2 ^ 32 - 1)
  /\ MaxIndexBytes (Segment c) mod entWidth = 0.

(** Every segment but the active one holds a record: rotation only
    follows a write. *)
Definition sealed_nonempty (chunks : list (list (list byte))) : Prop :=
  forall i rs, chunks !! i = Some rs -> (S i < length chunks)%nat -> rs <> [].

(** The invariant of a log that appends: it holds its chunks, its
    configuration is [conf_ok], its active segment is not maxed, has
    the log's configuration and a map of [MaxIndexBytes] bytes, its
    sealed segments are not empty, and every index fits that map. *)
Definition log_inv (l : Log) (lo : Z) (chunks : list (list (list byte))) : Prop :=
  log_holds l lo chunks /\ conf_ok (Conf l)
  /\ (forall act, last (segments l) = Some act ->
        IsMaxed act = false /\ config act = Conf l
        /\ Z.of_nat (length (mmap (index act))) = MaxIndexBytes (Segment (Conf l)))
  /\ sealed_nonempty chunks
  /\ Forall (fun s => Index.size (index s) <= MaxIndexBytes (Segment (Conf l))) (segments l).

(** The log and its directory agree: every segment's files are named
    after its base offset, and every segment file of the directory is
    one of theirs. *)
Definition log_dir (l : Log) (d : directory) : Prop :=
  Forall seg_named (segments l) /\ dir_canon (baseOffset <$> segments l) d.

End CommitLog.

Import CommitLog.

Section CommitLogLemmas.
Implicit Types (chunks : list (list (list byte))).

(** Record [k] of the concatenation is record [k'] of chunk [i]. *)
Lemma lookup_concat_split chunks k (p : list byte) :
  concat chunks !! k = Some p ->
  exists i rs k', chunks !! i = Some rs /\ rs !! k' = Some p
                  /\ k = (length (concat (take i chunks)) + k')%nat.
Proof.
  revert k. induction chunks as [|c cs IH]; intros k H; [discriminate|].
  cbn [concat] in H. destruct (decide (k < length c)%nat) as [Hlt|Hge].
  - rewrite lookup_app_l in H by exact Hlt. exists 0%nat, c, k. auto.
  - rewrite lookup_app_r in H by lia. destruct (IH _ H) as (i & rs & k' & Hi & Hk & Heq).
    exists (S i), rs, k'. cbn [take concat]. rewrite length_app. split_and!; [exact Hi | exact Hk | lia].
Qed.

(** Earlier chunks end no later than later ones start. *)
Lemma length_concat_take_mono chunks i j :
  (i <= j)%nat -> (length (concat (take i chunks)) <= length (concat (take j chunks)))%nat.
Proof.
  intros H. rewrite <- (take_drop i (take j chunks)), take_take, Nat.min_l by exact H.
  rewrite concat_app, length_app. lia.
Qed.

Lemma length_concat_take_S chunks i rs :
  chunks !! i = Some rs ->
  length (concat (take (S i) chunks)) = (length (concat (take i chunks)) + length rs)%nat.
Proof. intros H. rewrite (take_S_r _ _ _ H), concat_app, length_app. cbn [concat]. rewrite app_nil_r. lia. Qed.

Lemma length_concat_take_le chunks i :
  (length (concat (take i chunks)) <= length (concat chunks))%nat.
Proof. rewrite <- (take_drop i chunks) at 2. rewrite concat_app, length_app. lia. Qed.

(** Segment [i] of a log that holds [chunks] covers the offsets of chunk
    [i]. *)
Lemma log_segment_range l lo chunks i s rs :
  log_holds l lo chunks -> segments l !! i = Some s -> chunks !! i = Some rs ->
  baseOffset s = lo + Z.of_nat (length (concat (take i chunks)))
  /\ nextOffset s = lo + Z.of_nat (length (concat (take (S i) chunks))).
Proof.
  intros (_ & _ & _ & Hall) Hs Hrs. destruct (Hall i s rs Hs Hrs) as [Hh Hb].
  pose proof Hh as (_ & _ & _ & Hn & _).
  rewrite (length_concat_take_S _ _ _ Hrs). split; [exact Hb | lia].
Qed.

(** Each segment of a log has its chunk. *)
Lemma log_chunk l lo chunks i s :
  log_holds l lo chunks -> segments l !! i = Some s -> exists rs, chunks !! i = Some rs.
Proof.
  intros (_ & Hlen & _) Hs. apply lookup_lt_is_Some_2.
  rewrite <- Hlen. eapply lookup_lt_Some; exact Hs.
Qed.

(** Later segments end no earlier: if one ends by [lowest], every earlier
    one does. *)
Lemma log_nextOffset_mono l lo chunks lowest i k x y :
  log_holds l lo chunks -> (i <= k)%nat -> segments l !! i = Some x -> segments l !! k = Some y ->
  nextOffset y <= lowest -> nextOffset x <= lowest.
Proof.
  intros Hl Hik Hx Hy Hle.
  destruct (log_chunk l lo chunks i x Hl Hx) as [ri Hri].
  destruct (log_chunk l lo chunks k y Hl Hy) as [rk Hrk].
  destruct (log_segment_range l lo chunks i x ri Hl Hx Hri) as [_ Hni].
  destruct (log_segment_range l lo chunks k y rk Hl Hy Hrk) as [_ Hnk].
  pose proof (length_concat_take_mono chunks (S i) (S k) ltac:(lia)). lia.
Qed.

(** Dropping the first [j] segments: the log holds the remaining chunks
    from where the dropped ones end. *)
Lemma log_holds_drop l lo chunks j :
  log_holds l lo chunks -> (j < length chunks)%nat ->
  log_holds (with_segments l (drop j (segments l)))
            (lo + Z.of_nat (length (concat (take j chunks)))) (drop j chunks).
Proof.
  intros (Hc & Hlen & Hne & Hall) Hj.
  unfold log_holds, with_segments. cbn [closed segments]. rewrite !length_drop, Hlen.
  split_and!; [exact Hc | reflexivity | |].
  - intros E. apply (f_equal length) in E. rewrite length_drop in E. simpl in E. lia.
  - intros i y rs Hy Hrs. rewrite lookup_drop in Hy. rewrite lookup_drop in Hrs.
    destruct (Hall _ y rs Hy Hrs) as [Hh Hb]. split; [exact Hh|].
    rewrite Hb, <- take_take_drop, concat_app, length_app. lia.
Qed.

(** The active segment of a log that holds [chunks] holds the last chunk
    and ends where the records end. *)
Lemma log_last l lo chunks :
  log_holds l lo chunks ->
  exists act rs, last (segments l) = Some act /\ segments l !! pred (length chunks) = Some act
    /\ chunks !! pred (length chunks) = Some rs /\ seg_holds act rs
    /\ nextOffset act = lo + Z.of_nat (length (concat chunks)).
Proof.
  intros Hl. pose proof Hl as (_ & Hlen & Hne & Hall).
  assert (Hn : (0 < length chunks)%nat) by (destruct (segments l); [done | simpl in Hlen; lia]).
  destruct (lookup_lt_is_Some_2 (segments l) (pred (length chunks))) as [act Hs]; [lia|].
  destruct (lookup_lt_is_Some_2 chunks (pred (length chunks))) as [rs Hrs]; [lia|].
  destruct (log_segment_range l lo chunks _ act rs Hl Hs Hrs) as [_ Hnx].
  exists act, rs. rewrite last_lookup, Hlen. split_and!; try assumption.
  - exact (proj1 (Hall _ act rs Hs Hrs)).
  - rewrite Hnx, take_ge by lia. reflexivity.
Qed.

(** Replacing the active segment by one that holds a new last chunk from
    the same base. *)
Lemma log_holds_update_last l lo chunks s rs s' rs' :
  log_holds l lo chunks ->
  segments l !! pred (length chunks) = Some s -> chunks !! pred (length chunks) = Some rs ->
  seg_holds s' rs' -> baseOffset s' = baseOffset s ->
  log_holds (with_segments l (<[pred (length chunks) := s']> (segments l))) lo
            (<[pred (length chunks) := rs']> chunks).
Proof.
  intros (Hc & Hlen & Hne & Hall) Hs Hi Hh' Hb'.
  pose proof (lookup_lt_Some _ _ _ Hs) as Hlt.
  unfold log_holds, with_segments. cbn [closed segments]. rewrite !length_insert.
  split_and!; [exact Hc | exact Hlen | |].
  - intros E. apply (f_equal length) in E. rewrite length_insert in E. simpl in E. lia.
  - intros j y rj Hj Hrj.
    assert (Hj' : (j < length chunks)%nat)
      by (apply lookup_lt_Some in Hrj; rewrite length_insert in Hrj; exact Hrj).
    rewrite take_insert_ge by lia.
    destruct (decide (j = pred (length chunks))) as [->|Hne'].
    + rewrite list_lookup_insert_eq in Hj by exact Hlt. injection Hj as <-.
      rewrite list_lookup_insert_eq in Hrj by lia. injection Hrj as <-. rewrite Hb'.
      split; [exact Hh' | exact (proj2 (Hall _ s rs Hs Hi))].
    + rewrite list_lookup_insert_ne in Hj by lia. rewrite list_lookup_insert_ne in Hrj by lia.
      exact (Hall j y rj Hj Hrj).
Qed.

(** Adding a new segment that holds nothing where the records end. *)
Lemma log_holds_snoc l lo chunks ns :
  log_holds l lo chunks -> seg_holds ns [] ->
  baseOffset ns = lo + Z.of_nat (length (concat chunks)) ->
  log_holds (with_segments l (segments l ++ [ns])) lo (chunks ++ [[]]).
Proof.
  intros (Hc & Hlen & Hne & Hall) Hh Hb.
  unfold log_holds, with_segments. cbn [closed segments]. rewrite !length_app, Hlen.
  split_and!; [exact Hc | reflexivity | by destruct (segments l) |].
  intros j y rj Hj Hrj. destruct (decide (j < length chunks)%nat) as [Hlt|Hge].
  - rewrite lookup_app_l in Hj by lia. rewrite lookup_app_l in Hrj by lia.
    rewrite take_app_le by lia. exact (Hall j y rj Hj Hrj).
  - rewrite lookup_app_r in Hj by lia. rewrite lookup_app_r in Hrj by lia.
    apply list_lookup_singleton_Some in Hj as [Hj <-]. apply list_lookup_singleton_Some in Hrj as [_ <-].
    replace j with (length chunks) by lia. rewrite take_app_length. split; [exact Hh | exact Hb].
Qed.

(** Appending to the last chunk appends to the records. *)
Lemma concat_insert_last chunks rs p :
  chunks !! pred (length chunks) = Some rs ->
  concat (<[pred (length chunks) := rs ++ [p]]> chunks) = concat chunks ++ [p].
Proof.
  intros H. pose proof (lookup_lt_Some _ _ _ H) as Hlt.
  transitivity (concat (take (S (pred (length chunks))) chunks) ++ [p]);
    [| rewrite take_ge by lia; reflexivity].
  rewrite (take_S_r _ _ _ H), insert_take_drop, drop_ge by lia.
  rewrite !concat_app. cbn [concat]. rewrite !app_nil_r, app_assoc. reflexivity.
Qed.

(** An empty segment under a [conf_ok] configuration is not maxed. *)
Lemma empty_not_maxed ns c :
  conf_ok c -> seg_holds ns [] -> config ns = c -> ssize (store ns) = 0 -> IsMaxed ns = false.
Proof.
  intros (Hs & Hm & _) Hh Hcn Hz. unfold IsMaxed.
  rewrite (seg_index_size ns [] Hh), Hz, Hcn. cbn [length Z.of_nat].
  apply orb_false_iff. split; apply Z.leb_gt; lia.
Qed.

(** Opening a segment at a base offset of [bases] keeps the directory's
    segment files canonical for [bases]. *)
Lemma newSegment_canon flt d b c bases :
  dir_canon bases d -> b ∈ bases -> 0 <= b < 2 ^ 64 -> dir_canon bases (newSegment flt d b c).1.
Proof.
  intros Hc Hb Hr. apply (dir_canon_update _ _ d _ Hc); [set_solver|].
  intros nm. destruct (newSegment_dir flt d b c nm) as [|[->| ->]]; [auto|..]; right.
  - exists StoreFile, b. auto.
  - exists IndexFile, b. auto.
Qed.

(** A segment created at a base offset of no segment file of a canonical
    directory, under a [conf_ok] configuration, is empty, not maxed, and
    named after its base. *)
Lemma newSegment_fresh bases d b c :
  conf_ok c -> dir_canon bases d -> 0 <= b < 2 ^ 63 -> b ∉ bases ->
  exists ns, snd (newSegment no_faults d b c) = Ok ns /\ seg_holds ns [] /\ baseOffset ns = b
             /\ nextOffset ns = b /\ config ns = c /\ IsMaxed ns = false
             /\ Z.of_nat (length (mmap (index ns))) = MaxIndexBytes (Segment c) /\ seg_named ns.
Proof.
  intros Hok Hc Hb Hnew. pose proof Hok as (_ & Hm & _).
  destruct (newSegment_empty d b c Hb) as (ns & Hr & Hh & Hbn & Hnn & Hcn & Hl & Hz & Hnm);
    [widths; lia | exact (dir_canon_fresh _ d StoreFile b Hc Hnew ltac:(lia))
    | exact (dir_canon_fresh _ d IndexFile b Hc Hnew ltac:(lia)) |].
  exists ns. split_and!; try assumption. exact (empty_not_maxed ns c Hok Hh Hcn Hz).
Qed.

Lemma bases_insert (segs : list segment) i s s' :
  segs !! i = Some s -> baseOffset s' = baseOffset s ->
  baseOffset <$> <[i := s']> segs = baseOffset <$> segs.
Proof. intros Hs Hb. rewrite list_fmap_insert, Hb. apply list_insert_id. rewrite list_lookup_fmap, Hs. reflexivity. Qed.

(** Replacing a segment by one with the same base and file names keeps
    the log and its directory agreeing. *)
Lemma log_dir_insert l d i s s' :
  log_dir l d -> segments l !! i = Some s -> seg_named s' -> baseOffset s' = baseOffset s ->
  log_dir (with_segments l (<[i := s']> (segments l))) d.
Proof.
  intros [Hn Hc] Hs Hn' Hb. split; cbn [with_segments segments].
  - apply Forall_insert; assumption.
  - rewrite (bases_insert _ i s s' Hs Hb). exact Hc.
Qed.

(** Adding a segment on the files [newSegment] opened keeps the log and
    its directory agreeing. *)
Lemma log_dir_snoc l d flt c ns :
  log_dir l d -> seg_named ns -> 0 <= baseOffset ns < 2 ^ 64 ->
  log_dir (with_segments l (segments l ++ [ns])) (newSegment flt d (baseOffset ns) c).1.
Proof.
  intros [Hn Hc] Hn' Hb. split; cbn [with_segments segments].
  - apply Forall_app. split; [exact Hn | apply Forall_singleton, Hn'].
  - rewrite fmap_app. apply newSegment_canon; [|set_solver | exact Hb].
    intros nm k b' Hp Hs. destruct (Hc nm k b' Hp Hs). split; [assumption | set_solver].
Qed.

Lemma sealed_insert_last chunks rs' :
  sealed_nonempty chunks -> sealed_nonempty (<[pred (length chunks) := rs']> chunks).
Proof.
  intros H i rs Hi Hlt. rewrite length_insert in Hlt.
  rewrite list_lookup_insert_ne in Hi by lia. exact (H i rs Hi Hlt).
Qed.

Lemma sealed_snoc chunks :
  sealed_nonempty chunks -> (forall rs, last chunks = Some rs -> rs <> []) ->
  sealed_nonempty (chunks ++ [[]]).
Proof.
  intros H Hl i rs Hi Hlt. rewrite length_app in Hlt. cbn [length] in Hlt.
  rewrite lookup_app_l in Hi by lia.
  destruct (decide (S i < length chunks)%nat); [exact (H i rs Hi ltac:(assumption))|].
  apply Hl. rewrite last_lookup. replace (pred (length chunks)) with i by lia. exact Hi.
Qed.

Lemma sealed_drop chunks j : sealed_nonempty chunks -> sealed_nonempty (drop j chunks).
Proof.
  intros H i rs Hi Hlt. rewrite lookup_drop in Hi. rewrite length_drop in Hlt.
  apply (H _ rs Hi). lia.
Qed.

End CommitLogLemmas.

Section CommitLogTheorems.
Implicit Types (chunks : list (list (list byte))).

(** The segment that [Read] finds for an offset of chunk [i] is segment
    [i]: the earlier segments end before that chunk starts. *)
Lemma log_find l lo chunks i s rs k' :
  log_holds l lo chunks -> segments l !! i = Some s -> chunks !! i = Some rs ->
  (k' < length rs)%nat ->
  list_find (in_range (lo + Z.of_nat (length (concat (take i chunks)) + k'))) (segments l)
  = Some (i, s).
Proof.
  intros Hl Hs Hi Hk. pose proof Hl as (_ & Hlen & _).
  destruct (log_segment_range l lo chunks i s rs Hl Hs Hi) as [Hb Hn].
  rewrite (length_concat_take_S _ _ _ Hi) in Hn.
  apply list_find_Some. split_and!; [exact Hs | unfold in_range; lia |].
  intros j y Hj Hji. unfold in_range.
  destruct (log_chunk l lo chunks j y Hl Hj) as [rj Hrj].
  destruct (log_segment_range l lo chunks j y rj Hl Hj Hrj) as [_ Hnj].
  pose proof (length_concat_take_mono chunks (S j) i ltac:(lia)). lia.
Qed.

(** Replacing segment [i] by one that holds the same chunk from the same
    base keeps the log holding its chunks. *)
Lemma log_holds_insert l lo chunks i s rs s' :
  log_holds l lo chunks -> segments l !! i = Some s -> chunks !! i = Some rs ->
  seg_holds s' rs -> baseOffset s' = baseOffset s ->
  log_holds (with_segments l (<[i := s']> (segments l))) lo chunks.
Proof.
  intros (Hc & Hlen & Hne & Hall) Hs Hi Hh' Hb'.
  pose proof (lookup_lt_Some _ _ _ Hs) as Hlt.
  unfold log_holds, with_segments. cbn [closed segments]. rewrite length_insert.
  split_and!; [exact Hc | exact Hlen | |].
  - intros E. apply (f_equal length) in E. rewrite length_insert in E. simpl in E. lia.
  - intros j y rj Hj Hrj. destruct (decide (i = j)) as [<-|Hne'].
    + rewrite list_lookup_insert_eq in Hj by exact Hlt. injection Hj as <-.
      rewrite Hi in Hrj. injection Hrj as <-. rewrite Hb'.
      split; [exact Hh' | exact (proj2 (Hall i s rs Hs Hi))].
    + rewrite list_lookup_insert_ne in Hj by exact Hne'. exact (Hall j y rj Hj Hrj).
Qed.

(** Every base offset of a log is at most the end of its records. *)
Lemma log_bases_le l lo chunks b :
  log_holds l lo chunks -> b ∈ baseOffset <$> segments l -> b <= lo + Z.of_nat (length (concat chunks)).
Proof.
  intros Hl Hb. apply list_elem_of_fmap in Hb as (s & -> & Hs). apply list_elem_of_lookup in Hs as [i Hi].
  destruct (log_chunk l lo chunks i s Hl Hi) as [rs Hrs].
  destruct (log_segment_range l lo chunks i s rs Hl Hi Hrs) as [Hb _].
  pose proof (length_concat_take_le chunks i). lia.
Qed.

(** The write of [append] to the active segment of a log that keeps
    [log_inv]: it returns the offset one past the last record, and the
    segment holds the records with the payload added. *)
Lemma active_Append l lo chunks p act :
  log_inv l lo chunks -> last (segments l) = Some act ->
  lo + Z.of_nat (length (concat chunks)) + 1 < 2 ^ 63 ->
  Z.of_nat (length p) + MaxStoreBytes (Segment (Conf l)) + 8 < 2 ^ 63 ->
  exists rs act', segments l !! pred (length chunks) = Some act /\ chunks !! pred (length chunks) = Some rs
    /\ Segment.Append act p = (act', Ok (lo + Z.of_nat (length (concat chunks))))
    /\ seg_holds act rs /\ nextOffset act = lo + Z.of_nat (length (concat chunks))
    /\ seg_holds act' (rs ++ [p]) /\ baseOffset act' = baseOffset act
    /\ config act' = Conf l /\ Z.of_nat (length (mmap (index act'))) = MaxIndexBytes (Segment (Conf l))
    /\ log_holds (with_segments l (<[pred (length chunks) := act']> (segments l))) lo
                 (<[pred (length chunks) := rs ++ [p]]> chunks)
    /\ concat (<[pred (length chunks) := rs ++ [p]]> chunks) = concat chunks ++ [p].
Proof.
  intros (Hl & Hc & Hact & _) Hlast Hoff Hp.
  destruct (log_last l lo chunks Hl) as (act0 & rs & Hlast0 & Hs & Hrs & Hh & Hn).
  rewrite Hlast in Hlast0. injection Hlast0 as <-.
  destruct (Hact act Hlast) as (Hm & Hcfg & Hmm). pose proof Hc as (_ & HM & Hmod).
  destruct (seg_room act rs Hh Hm) as [Hroom Hst]; [rewrite Hcfg; exact Hmm | rewrite Hcfg; exact Hmod |].
  pose proof (seg_index_size act rs Hh) as Hsz. pose proof Hh as ((_ & Hss & _) & _).
  rewrite Hcfg in Hst.
  destruct (seg_Append act rs p Hh Hroom) as (act' & Hap & Hh' & Hb' & Hcfg' & Hmm');
    [lia | lia | widths; lia |].
  exists rs, act'. rewrite <- Hn. split_and!; try first [assumption | reflexivity | congruence].
  - exact (log_holds_update_last l lo chunks act rs act' (rs ++ [p]) Hl Hs Hrs Hh' Hb').
  - exact (concat_insert_last chunks rs p Hrs).
Qed.

(** The log's [append] refines appending to its list of records: on a
    log that keeps [log_inv] and agrees with its directory, with no
    fault, it returns the offset one past the last record, the new log
    holds the records with the payload added, keeps [log_inv] and agrees
    with the new directory, whether or not the write made the active
    segment maxed and rotated a new one in on new files. *)
Theorem log_Append l lo chunks p d :
  log_inv l lo chunks -> log_dir l d ->
  lo + Z.of_nat (length (concat chunks)) + 1 < 2 ^ 63 ->
  Z.of_nat (length p) + MaxStoreBytes (Segment (Conf l)) + 8 < 2 ^ 63 ->
  exists l' d' chunks',
    Append no_faults l d p = (l', d', Ok (lo + Z.of_nat (length (concat chunks))))
    /\ log_inv l' lo chunks' /\ log_dir l' d' /\ concat chunks' = concat chunks ++ [p] /\ Conf l' = Conf l.
Proof.
  intros Hinv Hd Hoff Hp. pose proof Hinv as (Hl & Hc & Hact & Hsn & Hfit). pose proof Hl as (Hcl & Hlen & _).
  destruct (log_last l lo chunks Hl) as (act & rs0 & Hlast & _).
  destruct (active_Append l lo chunks p act Hinv Hlast Hoff Hp)
    as (rs & act' & Hs & Hrs & Hap & Hh & Hn & Hh' & Hb' & Hcfg' & Hmm' & Hl' & Hcat).
  pose proof (lookup_lt_Some _ _ _ Hs) as Hlt.
  pose proof (seg_Append_named act p (proj1 (Forall_lookup _ _) (proj1 Hd) _ _ Hs)) as Hnm'.
  rewrite Hap in Hnm'. cbn [fst] in Hnm'.
  pose proof (log_dir_insert l d _ act act' Hd Hs Hnm' Hb') as Hd'.
  unfold Append. rewrite Hcl, Hlast, Hap, Hlen. cbv iota. rewrite <- Hn.
  pose proof Hh' as (_ & Hwf' & _). pose proof Hwf' as (_ & Hle' & _).
  destruct (IsMaxed act') eqn:Hmax.
  - pose proof Hh' as (_ & _ & _ & Hn' & _). pose proof Hh as (_ & _ & _ & Hna & Hba & _).
    rewrite length_app, Hb' in Hn'. cbn [length] in Hn'.
    destruct (newSegment_fresh _ d (nextOffset act') (Conf l) Hc (proj2 Hd)) as (ns & Hns & Hhn & Hbn & _ & Hcn & Hmn & Hmmn & Hnn);
      [lia | intros Hin; pose proof (log_bases_le l lo chunks _ Hl Hin); lia |].
    pose proof (log_dir_snoc _ d no_faults (Conf l) ns Hd' Hnn ltac:(lia)) as Hd''. rewrite Hbn in Hd''.
    destruct (newSegment no_faults d (nextOffset act') (Conf l)) as [d1 rn]. cbn [snd fst] in Hns, Hd''.
    subst rn. eexists _, d1, (<[pred (length chunks) := rs ++ [p]]> chunks ++ [[]]). split; [reflexivity|].
    split; [split; [| split; [exact Hc | split; [| split]]] |
            split; [exact Hd'' | split; [rewrite concat_app, Hcat; cbn [concat]; rewrite ?app_nil_r; reflexivity
                                        | reflexivity]]].
    + refine (log_holds_snoc _ lo _ ns Hl' Hhn _).
      rewrite Hbn, Hn', Hcat, ?length_app. simpl. lia.
    + intros a Ha. cbn [with_segments segments Conf] in Ha |- *. rewrite last_snoc in Ha.
      injection Ha as <-. auto.
    + apply sealed_snoc; [exact (sealed_insert_last chunks _ Hsn)|].
      intros rs' Hr'. rewrite last_lookup, length_insert, list_lookup_insert_eq in Hr' by lia.
      injection Hr' as <-. by destruct rs.
    + cbn [with_segments segments Conf]. apply Forall_app. split; [apply Forall_insert; [exact Hfit | lia]|].
      apply Forall_singleton. rewrite (seg_index_size ns [] Hhn). cbn. lia.
  - eexists _, d, (<[pred (length chunks) := rs ++ [p]]> chunks). split; [reflexivity|].
    split; [split; [exact Hl' | split; [exact Hc | split; [| split; [exact (sealed_insert_last chunks _ Hsn) |]]]]
           | split; [exact Hd' | split; [exact Hcat | reflexivity]]];
      [| cbn [with_segments segments Conf]; apply Forall_insert; [exact Hfit | lia]].
    intros a Ha. cbn [with_segments segments Conf] in Ha |- *.
    rewrite last_lookup, length_insert, Hlen, list_lookup_insert_eq in Ha by lia.
    injection Ha as <-. rewrite Hcfg', Hmm'. auto.
Qed.



(** The log's [read] of the offset of a record it holds returns that
    record: the range search finds its segment, the segment's index its
    position, the store its bytes. *)
Theorem log_Read l lo chunks k p :
  log_holds l lo chunks -> concat chunks !! k = Some p ->
  exists l', Read l (lo + Z.of_nat k) = (l', Ok p) /\ log_holds l' lo chunks.
Proof.
  intros Hl Hk. pose proof Hl as (Hc & Hlen & Hne & Hall).
  destruct (lookup_concat_split _ _ _ Hk) as (i & rs & k' & Hi & Hk' & ->).
  destruct (lookup_lt_is_Some_2 (segments l) i) as [s Hs].
  { rewrite Hlen. eapply lookup_lt_Some; exact Hi. }
  destruct (Hall i s rs Hs Hi) as [Hh Hb].
  unfold Read. rewrite Hc. cbv iota.
  rewrite (log_find l lo chunks i s rs k' Hl Hs Hi) by (eapply lookup_lt_Some; exact Hk').
  replace (lo + Z.of_nat (length (concat (take i chunks)) + k'))
    with (baseOffset s + Z.of_nat k') by lia.
  destruct (seg_Read s rs k' p Hh Hk') as (s' & Hr & Hh' & Hb').
  rewrite Hr. eexists. split; [reflexivity|].
  exact (log_holds_insert l lo chunks i s rs s' Hl Hs Hi Hh' Hb').
Qed.

(** C24. The log's [read] of an offset below its lowest offset or at or past
    the end of its records fails with [OffsetOutOfRange] of that offset
    and changes nothing. *)
Theorem log_Read_out_of_range l lo chunks off :
  log_holds l lo chunks -> off < lo \/ lo + Z.of_nat (length (concat chunks)) <= off ->
  Read l off = (l, Err (ErrOffsetOutOfRange off)).
Proof.
  intros Hl Hoff. pose proof Hl as (Hc & Hlen & Hne & Hall).
  unfold Read. rewrite Hc. cbv iota.
  replace (list_find (in_range off) (segments l)) with (@None (nat * segment)); [reflexivity|].
  symmetry. apply list_find_None, Forall_lookup. intros j y Hj. unfold in_range.
  destruct (log_chunk l lo chunks j y Hl Hj) as [rj Hrj].
  destruct (log_segment_range l lo chunks j y rj Hl Hj Hrj) as [Hbj Hnj].
  pose proof (length_concat_take_le chunks (S j)). lia.
Qed.

(** C37. A rotation that fails after the write: when the record fills
    the active segment and creating the next segment fails (the new
    store's [os.Stat]), [append] reports the error, yet the record is
    stored at the offset [append] would have returned and reads back,
    and the maxed segment stays active. *)
Theorem log_Append_rotate_fails flt l lo chunks p d act :
  log_inv l lo chunks -> flt SysStat = true ->
  lo + Z.of_nat (length (concat chunks)) + 1 < 2 ^ 63 ->
  Z.of_nat (length p) + MaxStoreBytes (Segment (Conf l)) + 8 < 2 ^ 63 ->
  last (segments l) = Some act -> IsMaxed (Segment.Append act p).1 = true ->
  exists l' d' chunks', Append flt l d p = (l', d', Err (ErrIO SysStat))
    /\ log_holds l' lo chunks' /\ concat chunks' = concat chunks ++ [p]
    /\ (exists l'', Read l' (lo + Z.of_nat (length (concat chunks))) = (l'', Ok p))
    /\ last (segments l') = Some (Segment.Append act p).1.
Proof.
  intros Hinv Hf Hoff Hp Hlast Hmax. pose proof Hinv as ((Hcl & Hlen & _) & _).
  destruct (active_Append l lo chunks p act Hinv Hlast Hoff Hp)
    as (rs & act' & Hs & Hrs & Hap & _ & _ & _ & _ & _ & _ & Hl' & Hcat).
  pose proof (lookup_lt_Some _ _ _ Hs) as Hlt. rewrite Hap in Hmax |- *. cbn [fst] in Hmax |- *.
  unfold Append. rewrite Hcl, Hlast, Hap, Hlen. cbv iota. rewrite Hmax.
  unfold newSegment at 1. destruct (open_create d _) as [d1 sdata]. unfold newStore, syscall_do. rewrite Hf.
  eexists _, d1, _. split; [reflexivity|]. split_and!; [exact Hl' | exact Hcat | |].
  - destruct (log_Read _ lo _ (length (concat chunks)) p Hl') as (l'' & Hr & _); [|eauto].
    rewrite Hcat, lookup_app_r, Nat.sub_diag by lia. reflexivity.
  - cbn [with_segments segments]. rewrite last_lookup, length_insert, Hlen, list_lookup_insert_eq by lia.
    reflexivity.
Qed.

(** A sequence of appends keeps [log_inv] and the agreement with the
    directory; the [k]-th returns the offset [k] past the end of the
    records. *)
Lemma log_append_all l lo chunks ps d :
  log_inv l lo chunks -> log_dir l d ->
  lo + Z.of_nat (length (concat chunks)) + Z.of_nat (length ps) < 2 ^ 63 ->
  Forall (fun p => Z.of_nat (length p) + MaxStoreBytes (Segment (Conf l)) + 8 < 2 ^ 63) ps ->
  exists l' d' chunks',
    append_all no_faults l d ps
      = (l', d', imap (fun k _ => Ok (lo + Z.of_nat (length (concat chunks)) + Z.of_nat k)) ps)
    /\ log_inv l' lo chunks' /\ log_dir l' d' /\ concat chunks' = concat chunks ++ ps /\ Conf l' = Conf l.
Proof.
  revert l chunks d. induction ps as [|p ps IH]; intros l chunks d Hinv Hd Hoff Hps.
  - exists l, d, chunks. rewrite app_nil_r. auto.
  - apply Forall_cons in Hps as [Hp Hps]. cbn [length] in Hoff.
    destruct (log_Append l lo chunks p d Hinv Hd ltac:(lia) Hp) as (l1 & d1 & c1 & Hap & Hinv1 & Hd1 & Hcat1 & Hc1).
    assert (Hl1 : length (concat c1) = S (length (concat chunks)))
      by (rewrite Hcat1, length_app; simpl; lia).
    rewrite <- Hc1 in Hps.
    destruct (IH l1 c1 d1 Hinv1 Hd1 ltac:(lia) Hps) as (l2 & d2 & c2 & Hall & Hinv2 & Hd2 & Hcat2 & Hc2).
    exists l2, d2, c2. cbn [append_all]. rewrite Hap, Hall. split_and!.
    + rewrite imap_cons. f_equal. cbn [Z.of_nat]. rewrite Z.add_0_r. f_equal.
      apply imap_ext. intros k x _. cbn [compose]. rewrite Hl1. f_equal. lia.
    + exact Hinv2.
    + exact Hd2.
    + rewrite Hcat2, Hcat1, <- app_assoc. reflexivity.
    + congruence.
Qed.

(** C22. The segmented log refines a list of records: on a log that keeps
    [log_inv] and agrees with its directory, appending the payloads [ps]
    returns consecutive offsets from the end of its records, rotating
    segments onto new files as they fill, keeps [log_inv] and the
    agreement, and afterwards a read of every offset, old or new,
    returns its record. *)
Theorem log_append_read l lo chunks ps d :
  log_inv l lo chunks -> log_dir l d ->
  lo + Z.of_nat (length (concat chunks)) + Z.of_nat (length ps) < 2 ^ 63 ->
  Forall (fun p => Z.of_nat (length p) + MaxStoreBytes (Segment (Conf l)) + 8 < 2 ^ 63) ps ->
  exists l' d' chunks',
    append_all no_faults l d ps
      = (l', d', imap (fun k _ => Ok (lo + Z.of_nat (length (concat chunks)) + Z.of_nat k)) ps)
    /\ log_inv l' lo chunks' /\ log_dir l' d'
    /\ forall k p, (concat chunks ++ ps) !! k = Some p ->
                   exists l'', Read l' (lo + Z.of_nat k) = (l'', Ok p).
Proof.
  intros Hinv Hd Hoff Hps.
  destruct (log_append_all l lo chunks ps d Hinv Hd Hoff Hps) as (l' & d' & c' & Hall & Hinv' & Hd' & Hcat & _).
  exists l', d', c'. split_and!; [exact Hall | exact Hinv' | exact Hd' |].
  intros k p Hk. rewrite <- Hcat in Hk.
  destruct (log_Read l' lo c' k p (proj1 Hinv') Hk) as (l'' & Hr & _). eauto.
Qed.

(** C23. Opening a log in a directory with no segment files creates one
    segment at [InitialOffset] on new files: the log is empty
    ([HighestOffset] gives the empty signal), its lowest offset is
    [InitialOffset], it agrees with the directory, and it keeps
    [log_inv] when its configuration, defaults applied, is [conf_ok]. *)
Theorem NewLog_fresh dir c d :
  conf_ok (with_defaults c) -> 0 <= InitialOffset (Segment c) < 2 ^ 63 -> segment_bases d = [] ->
  exists l d', NewLog no_faults dir c d = (d', Ok l)
            /\ log_inv l (InitialOffset (Segment c)) [[]] /\ log_dir l d'
            /\ LowestOffset l = Some (InitialOffset (Segment c)) /\ HighestOffset l = None.
Proof.
  intros Hc Hi Hnil. unfold NewLog. rewrite Hnil.
  change (merge_sort Z.le (remove_dups [])) with (@nil Z). cbn [open_segments].
  pose proof (dir_canon_nil d Hnil) as Hc0.
  destruct (newSegment_fresh [] d (InitialOffset (Segment (with_defaults c))) (with_defaults c) Hc Hc0 Hi)
    as (ns & Hns & Hh & Hb & Hn & Hcn & Hmx & Hm & Hnm); [apply not_elem_of_nil|].
  pose proof (newSegment_canon no_faults d (InitialOffset (Segment (with_defaults c))) (with_defaults c)
                [InitialOffset (Segment c)]) as Hcan.
  destruct (newSegment no_faults d _ (with_defaults c)) as [d1 r]. cbn [snd fst] in Hns, Hcan. subst r.
  cbn [with_defaults Segment InitialOffset] in Hb, Hn |- *.
  eexists _, d1. split; [reflexivity|]. split; [split; [| split; [| split; [| split]]] | split; [| split]].
  - unfold log_holds. split_and!; [reflexivity .. | discriminate |].
    intros [|i] y rs Hy Hrs; [| discriminate]. injection Hy as <-. injection Hrs as <-.
    split; [exact Hh | cbn; lia].
  - exact Hc.
  - intros a Ha. injection Ha as <-. auto.
  - intros i rs Hri Hlt. cbn in Hlt. lia.
  - apply Forall_singleton. rewrite (seg_index_size ns [] Hh). pose proof Hc as (_ & HM & _). cbn [Conf length Z.of_nat]. widths. lia.
  - split; cbn [segments fmap list_fmap]; [apply Forall_singleton, Hnm|]. rewrite Hb.
    apply Hcan; [intros nm k b Hp Hs; destruct (Hc0 nm k b Hp Hs) as [_ []%not_elem_of_nil] | set_solver | cbn [with_defaults Segment InitialOffset]; lia].
  - cbn. rewrite Hb. reflexivity.
  - unfold HighestOffset. cbn [head last segments]. rewrite Hn, Hb, Z.eqb_refl. reflexivity.
Qed.

(** [lowestOffset()] is the base of the first segment, the offset of
    the first record; [highestOffset()] is the offset of the last record,
    or the empty signal when the log holds none. *)
Theorem log_offsets l lo chunks :
  log_holds l lo chunks ->
  LowestOffset l = Some lo
  /\ HighestOffset l = if (length (concat chunks) =? 0)%nat then None
                       else Some (lo + Z.of_nat (length (concat chunks)) - 1).
Proof.
  intros Hl. pose proof Hl as (_ & _ & Hne & _).
  destruct (log_last l lo chunks Hl) as (act & rs & Hlast & _ & _ & _ & Hn).
  destruct (segments l) as [|first segs] eqn:E; [contradiction|].
  assert (Hf : segments l !! 0%nat = Some first) by (rewrite E; reflexivity).
  destruct (log_chunk l lo chunks 0 first Hl Hf) as [r0 Hr0].
  destruct (log_segment_range l lo chunks 0 first r0 Hl Hf Hr0) as [Hb _].
  rewrite take_0 in Hb. cbn [concat length Z.of_nat] in Hb.
  unfold LowestOffset, HighestOffset. rewrite E. cbn [head fmap option_fmap option_map].
  rewrite Hlast, Hn, Hb. split; [f_equal; lia|].
  destruct (Nat.eqb_spec (length (concat chunks)) 0); case_zcmp; first [reflexivity | lia].
Qed.

(** [truncate] keeps a suffix of the segments and removes the prefix
    before it: exactly those that end by [lowest], since later segments
    end no earlier. *)
Lemma retained_drop l lo chunks lowest :
  log_holds l lo chunks ->
  exists j, retained l lowest = drop j (segments l)
            /\ filter (fun s => nextOffset s <= lowest) (segments l) = take j (segments l)
            /\ forall i x, segments l !! i = Some x -> (nextOffset x <= lowest <-> (i < j)%nat).
Proof.
  intros Hl. apply (filter_prefix_drop (fun s => nextOffset s <= lowest)).
  intros i k x y. exact (log_nextOffset_mono l lo chunks lowest i k x y Hl).
Qed.

Lemma log_holds_Forall2 l lo chunks : log_holds l lo chunks -> Forall2 seg_holds (segments l) chunks.
Proof.
  intros (_ & Hlen & _ & Hall). apply Forall2_same_length_lookup. split; [exact Hlen|].
  intros i s rs Hs Hrs. exact (proj1 (Hall i s rs Hs Hrs)).
Qed.

(** A segment's files have distinct names. *)
Lemma seg_names_ne s rs : seg_holds s rs -> seg_named s -> sname (store s) <> Index.file (index s).
Proof.
  intros (_ & _ & _ & Hn & Hb & Hlt & _) [-> ->]. apply store_index_name_ne; lia.
Qed.

(** Removing segments that hold their records, with no fault, reports no
    failure, deletes the files of each, and changes no other file. *)
Lemma teardown_remove_ok segs rss d :
  Forall2 seg_holds segs rss -> Forall seg_named segs ->
  exists d', teardown (Segment.Remove no_faults) segs d = (d', [])
    /\ (forall s, s ∈ segs -> d' !! sname (store s) = None /\ d' !! Index.file (index s) = None)
    /\ changes_only d d' (fun nm => exists s, s ∈ segs /\ (nm = sname (store s) \/ nm = Index.file (index s))).
Proof.
  intros H. revert d. induction H as [|s rs segs rss Hh _ IH]; intros d Hn.
  - exists d. split_and!; [reflexivity | set_solver | apply changes_only_refl].
  - inversion Hn as [|? ? Hns Hn']; subst.
    destruct (seg_Remove_ok s rs d Hh (seg_names_ne s rs Hh Hns)) as (d1 & Hr & Hd1).
    destruct (IH d1 Hn') as (d2 & Ht & Hgone & Hch). exists d2. cbn [teardown]. rewrite Hr, Ht.
    split_and!; [reflexivity | |].
    + intros x Hx. apply elem_of_cons in Hx as [->|Hx]; [|exact (Hgone x Hx)].
      split; [destruct (Hch (sname (store s))) as [E|(y & Hy & [E|E])]
             | destruct (Hch (Index.file (index s))) as [E|(y & Hy & [E|E])]]; rewrite E;
        first [rewrite Hd1; case_decide; tauto | exact (proj1 (Hgone y Hy)) | exact (proj2 (Hgone y Hy))].
    + intros nm. destruct (Hch nm) as [E|(y & Hy & Hnm)]; [|right; exists y; split; [set_solver | exact Hnm]].
      rewrite E, Hd1. case_decide; [right; exists s; split; [set_solver | assumption] | left; reflexivity].
Qed.

(** Every base offset of a log is in the range of its offsets. *)
Lemma log_base_range l lo chunks s :
  log_holds l lo chunks -> s ∈ segments l -> 0 <= baseOffset s < 2 ^ 63.
Proof.
  intros Hl Hs. apply list_elem_of_lookup in Hs as [i Hi].
  destruct (log_chunk l lo chunks i s Hl Hi) as [rs Hrs].
  pose proof (proj1 (proj2 (proj2 (proj2 Hl)) i s rs Hi Hrs)) as (_ & _ & _ & Hn & Hb & Hlt & _). lia.
Qed.

(** Removing a prefix of the segments, with no fault, leaves a log of the
    rest that agrees with the directory. *)
Lemma log_dir_remove_prefix l lo chunks d j :
  log_holds l lo chunks -> log_dir l d ->
  exists d', teardown (Segment.Remove no_faults) (take j (segments l)) d = (d', [])
             /\ log_dir (with_segments l (drop j (segments l))) d'.
Proof.
  intros Hl [Hn Hc].
  destruct (teardown_remove_ok (take j (segments l)) (take j chunks) d) as (d' & Ht & Hgone & Hch);
    [apply Forall2_take, (log_holds_Forall2 l lo chunks Hl) | apply Forall_take, Hn |].
  exists d'. split; [exact Ht|]. split; [apply Forall_drop, Hn|]. cbn [with_segments segments].
  apply (dir_canon_shrink (baseOffset <$> segments l)).
  - apply (dir_canon_update _ _ d _ Hc); [reflexivity|]. intros nm.
    destruct (Hch nm) as [|(s & Hs & Hnm)]; [auto | right].
    apply elem_of_take_1 in Hs as Hs'. destruct (proj1 (Forall_forall _ _) Hn s Hs') as [Es Ei].
    pose proof (log_base_range l lo chunks s Hl Hs').
    destruct Hnm as [->| ->]; [exists StoreFile | exists IndexFile]; exists (baseOffset s);
      (split; [assumption | split; [apply list_elem_of_fmap; eauto | lia]]).
  - intros b Hb Hnot k. rewrite <- (take_drop j (segments l)), fmap_app in Hb.
    apply elem_of_app in Hb as [Hb|]; [|contradiction].
    apply list_elem_of_fmap in Hb as (s & -> & Hs).
    destruct (proj1 (Forall_forall _ _) Hn s (elem_of_take_1 _ _ _ Hs)) as [Es Ei].
    destruct k; cbn [file_name]; [rewrite <- Es | rewrite <- Ei]; apply (Hgone s Hs).
Qed.

(** C25. [truncate(lowest)] below the end of the records removes exactly
    the segments that end by [lowest], with no fault reported: the log
    keeps [log_inv] over the remaining chunks and agrees with the
    directory, so the files of the removed segments are gone; every
    retained segment ends past [lowest], and every record at an offset
    of at least [lowest] still reads back. *)
Theorem log_Truncate l lo chunks lowest d :
  log_inv l lo chunks -> log_dir l d -> lowest < lo + Z.of_nat (length (concat chunks)) ->
  exists j l' d',
    Truncate no_faults l lowest d = (l', d', [])
    /\ log_inv l' (lo + Z.of_nat (length (concat (take j chunks)))) (drop j chunks)
    /\ log_dir l' d'
    /\ Forall (fun s => lowest < nextOffset s) (segments l')
    /\ forall k p, concat chunks !! k = Some p -> lowest <= lo + Z.of_nat k ->
                   exists l'', Read l' (lo + Z.of_nat k) = (l'', Ok p).
Proof.
  intros (Hl & Hc & Hact & Hsn & Hfit) Hd Hlow.
  destruct (retained_drop l lo chunks lowest Hl) as (j & Hseg & Hgone & Hj).
  destruct (log_last l lo chunks Hl) as (act & rs & Hlast & Hs & Hrs & Hh & Hn).
  pose proof (lookup_lt_Some _ _ _ Hs) as Hlt. pose proof Hl as (Hcl & Hlen & _).
  assert (Hjn : (j < length chunks)%nat).
  { destruct (decide (j < length chunks)%nat); [done|].
    pose proof (proj2 (Hj _ act Hs) ltac:(lia)). lia. }
  destruct (log_dir_remove_prefix l lo chunks d j Hl Hd) as (d' & Ht & Hd').
  pose proof (log_holds_drop l lo chunks j Hl Hjn) as Hl'. pose proof (Z.max_spec lo lowest) as Hmax.
  assert (Hlo' : lo + Z.of_nat (length (concat (take j chunks))) <= Z.max lo lowest).
  { destruct j as [|j']; [rewrite take_0; cbn [concat length Z.of_nat]; lia|].
    destruct (lookup_lt_is_Some_2 (segments l) j') as [y Hy]; [lia|].
    destruct (log_chunk l lo chunks j' y Hl Hy) as [ry Hry].
    destruct (log_segment_range l lo chunks j' y ry Hl Hy Hry) as [_ Hny].
    pose proof (proj2 (Hj j' y Hy) ltac:(lia)). lia. }
  exists j, (with_segments l (drop j (segments l))), d'. split_and!.
  - unfold Truncate. rewrite Hcl, Hgone, Ht, Hseg. reflexivity.
  - split; [exact Hl' | split; [exact Hc | split; [| split; [exact (sealed_drop chunks j Hsn) |
      cbn [with_segments segments Conf]; apply Forall_drop, Hfit]]]]. intros a Ha.
    cbn [with_segments segments Conf] in Ha |- *. rewrite last_drop in Ha by lia. exact (Hact a Ha).
  - exact Hd'.
  - cbn [with_segments segments]. apply Forall_lookup. intros i y Hy. rewrite lookup_drop in Hy.
    destruct (decide (nextOffset y <= lowest)) as [Hle|]; [|lia].
    apply (Hj _ y Hy) in Hle. lia.
  - intros k p Hk Hkl.
    assert (Hkm : (length (concat (take j chunks)) <= k)%nat) by lia.
    rewrite <- (take_drop j chunks), concat_app, lookup_app_r in Hk by exact Hkm.
    destruct (log_Read _ _ _ _ p Hl' Hk) as (l' & Hr & _). exists l'.
    rewrite <- Hr. f_equal. lia.
Qed.

(** [truncate(lowest)] at or past the end of the records removes every
    segment, the active one included: the log is left with no active
    segment, and the next [append] finds none. *)
Theorem Truncate_past_end l lo chunks lowest flt d p :
  log_holds l lo chunks -> lo + Z.of_nat (length (concat chunks)) <= lowest ->
  let '(l', d', _) := Truncate flt l lowest d in
  segments l' = [] /\ Append flt l' d' p = (l', d', Err Panic).
Proof.
  intros Hl Hend. pose proof Hl as (Hc & Hlen & _).
  destruct (retained_drop l lo chunks lowest Hl) as (j & Hseg & _ & Hj).
  destruct (log_last l lo chunks Hl) as (act & rs & _ & Hs & _ & _ & Hn).
  pose proof (lookup_lt_Some _ _ _ Hs) as Hlt.
  pose proof (proj1 (Hj _ act Hs) ltac:(lia)) as Hpj.
  assert (E : retained l lowest = []) by (rewrite Hseg; apply drop_ge; lia).
  unfold Truncate. rewrite Hc. destruct (teardown _ _ d) as [d1 es].
  split; [cbn; exact E|]. unfold Append. cbn [closed with_segments segments]. rewrite Hc, E. reflexivity.
Qed.

End CommitLogTheorems.

Section CommitLogExamples.
Local Open Scope string_scope.

Definition zero_config : Config :=
  {| Segment := {| MaxStoreBytes := 0; MaxIndexBytes := 0; InitialOffset := 0 |} |}.

(** The log [open] gives, and the directory it leaves. *)
Definition opened (r : directory * result Log) : Log * directory :=
  match r with
  | (d, Ok l) => (l, d)
  | (d, Err _) => ({| Dir := ""; Conf := zero_config; segments := []; closed := true |}, d)
  end.

Definition log_empty : Log := (opened (NewLog no_faults "log" zero_config ∅)).1.
Definition dir_empty : directory := (opened (NewLog no_faults "log" zero_config ∅)).2.

Definition bytes_of (v : string) : list byte := String.list_byte_of_string v.

(** The spec's scenario: on an empty log with the default configuration
    "helloWorld" is appended at offset 0 and read back. *)
Example scenario_helloWorld :
  let '(l1, _, r) := Append no_faults log_empty dir_empty (bytes_of "helloWorld") in
  r = Ok 0 /\ snd (Read l1 0) = Ok (bytes_of "helloWorld").
Proof. vm_compute. split; reflexivity. Qed.

(** "hi" then "hello" get offsets 0 and 1; offset 2 is out of range. *)
Example scenario_hi_hello :
  let '(l1, d1, r1) := Append no_faults log_empty dir_empty (bytes_of "hi") in
  let '(l2, _, r2) := Append no_faults l1 d1 (bytes_of "hello") in
  r1 = Ok 0 /\ r2 = Ok 1 /\ snd (Read l2 1) = Ok (bytes_of "hello")
  /\ snd (Read l2 2) = Err (ErrOffsetOutOfRange 2).
Proof. vm_compute. split_and!; reflexivity. Qed.

(** With the default [MaxIndexBytes] of 1024 (not a multiple of 12), the
    85 entries that fit leave the index at 1020 bytes, below the limit, so
    the log never rotates and the 86th append fails with [io.EOF]. *)
Example scenario_default_index_full :
  last (append_all no_faults log_empty dir_empty (replicate 86 [Byte.x61])).2 = Some (Err EOF)
  /\ (append_all no_faults log_empty dir_empty (replicate 85 [Byte.x61])).2 !! 84%nat = Some (Ok 84).
Proof. vm_compute. split; reflexivity. Qed.

(** The log after appending "hi" and "hello" holds them from offset 0,
    both in its first segment. *)
Definition log_hi_hello : Log :=
  (append_all no_faults log_empty dir_empty [bytes_of "hi"; bytes_of "hello"]).1.1.

(** Decide [log_holds] of a concrete log by computation, segment by
    segment. *)
Ltac log_holds_compute :=
  unfold log_holds; split_and!; [vm_compute; reflexivity | vm_compute; reflexivity
                                | vm_compute; discriminate |];
  intros i s rs Hs Hrs;
  repeat (destruct i as [|i];
          [vm_compute in Hs, Hrs; injection Hs as <-; injection Hrs as <-;
           split; [unfold seg_holds, holds, wf; vm_compute; split_and!; first [reflexivity | congruence]
                  | vm_compute; reflexivity] |]);
  vm_compute in Hrs; discriminate.

(** Decide [sealed_nonempty] of concrete chunks by computation. *)
Ltac sealed_compute :=
  intros i rs Hi Hlt;
  repeat (destruct i as [|i]; [vm_compute in Hi; injection Hi as <-; first [discriminate | vm_compute in Hlt; lia] |]);
  vm_compute in Hi; discriminate.

(** Decide [log_inv] and [log_dir] of a concrete log by computation. *)
Ltac log_inv_compute :=
  split; [log_holds_compute | split; [unfold conf_ok; vm_compute; split_and!; first [reflexivity | congruence]
                                     | split; [| split; [sealed_compute |
    vm_compute; repeat (constructor; [congruence |]); constructor]]]];
  intros a Ha; vm_compute in Ha; injection Ha as <-; vm_compute; split_and!; reflexivity.

Ltac log_dir_compute :=
  split; [vm_compute; repeat (constructor; [split; reflexivity |]); constructor
         | apply dir_canonb_sound; vm_compute; reflexivity].

Lemma log_hi_hello_holds : log_holds log_hi_hello 0 [[bytes_of "hi"; bytes_of "hello"]].
Proof. log_holds_compute. Qed.

(** A log whose index has room for three entries, opened on an empty
    directory. *)
Definition cfg_log36 : Config :=
  {| Segment := {| MaxStoreBytes := 1024; MaxIndexBytes := 36; InitialOffset := 0 |} |}.

Definition log36_empty : Log := (opened (NewLog no_faults "log" cfg_log36 ∅)).1.
Definition dir36 : directory := (opened (NewLog no_faults "log" cfg_log36 ∅)).2.

Definition ps4 : list (list byte) :=
  [bytes_of "hi"; bytes_of "hello"; bytes_of "!"; bytes_of "bye"].

Lemma conf_ok_log36 : conf_ok (with_defaults cfg_log36).
Proof. unfold conf_ok. vm_compute. split_and!; first [reflexivity | congruence]. Qed.

Lemma log36_empty_inv : log_inv log36_empty 0 [[]].
Proof. log_inv_compute. Qed.

Lemma log36_empty_dir : log_dir log36_empty dir36.
Proof. log_dir_compute. Qed.

(** The third append fills the index of the first segment, so the log
    rotates: the fourth record goes to a second segment based at 3, on
    the new files "3.store" and "3.index". *)
Example log36_rotates :
  (baseOffset <$> segments (append_all no_faults log36_empty dir36 ps4).1.1) = [0; 3]
  /\ (append_all no_faults log36_empty dir36 ps4).2 = [Ok 0; Ok 1; Ok 2; Ok 3]
  /\ merge_sort Z.le (remove_dups (segment_bases (append_all no_faults log36_empty dir36 ps4).1.2)) = [0; 3].
Proof. vm_compute. split_and!; reflexivity. Qed.

Lemma log_append_read_witness :
  exists l' d' chunks',
    append_all no_faults log36_empty dir36 ps4
      = (l', d', imap (fun k _ => Ok (0 + Z.of_nat (length (concat ([[]] : list (list (list byte))))) + Z.of_nat k)) ps4)
    /\ log_inv l' 0 chunks' /\ log_dir l' d'
    /\ forall k p, (concat ([[]] : list (list (list byte))) ++ ps4)%list !! k = Some p ->
                   exists l'', Read l' (0 + Z.of_nat k) = (l'', Ok p).
Proof.
  apply log_append_read; [exact log36_empty_inv | exact log36_empty_dir | vm_compute; reflexivity |].
  repeat (constructor; [vm_compute; reflexivity |]). constructor.
Defined.

(** After "hi" and "hello" the third record fills the index; with the
    new store's [os.Stat] failing, the rotation fails after the write. *)
Definition stat_fails : faults := fun s => match s with SysStat => true | _ => false end.
Definition log36_2 : Log := (append_all no_faults log36_empty dir36 [bytes_of "hi"; bytes_of "hello"]).1.1.
Definition dir36_2 : directory := (append_all no_faults log36_empty dir36 [bytes_of "hi"; bytes_of "hello"]).1.2.
Definition act36_2 : segment :=
  match list.last (segments log36_2) with Some a => a | None => empty_segment cfg_log36 end.

Lemma log36_2_inv : log_inv log36_2 0 [[bytes_of "hi"; bytes_of "hello"]].
Proof. log_inv_compute. Qed.

Lemma log_Append_rotate_fails_witness :
  exists l' d' chunks', Append stat_fails log36_2 dir36_2 (bytes_of "!") = (l', d', Err (ErrIO SysStat))
    /\ log_holds l' 0 chunks' /\ concat chunks' = (concat [[bytes_of "hi"; bytes_of "hello"]] ++ [bytes_of "!"])%list
    /\ (exists l'', Read l' (0 + Z.of_nat (length (concat [[bytes_of "hi"; bytes_of "hello"]])))
                    = (l'', Ok (bytes_of "!")))
    /\ last (segments l') = Some (Segment.Append act36_2 (bytes_of "!")).1.
Proof.
  apply (log_Append_rotate_fails stat_fails log36_2 0 _ (bytes_of "!") dir36_2 act36_2);
    [exact log36_2_inv | reflexivity | vm_compute; reflexivity .. ].
Defined.

(** The log after the four appends: segments based at 0 and 3. *)
Definition log36_4 : Log := (append_all no_faults log36_empty dir36 ps4).1.1.
Definition dir36_4 : directory := (append_all no_faults log36_empty dir36 ps4).1.2.
Definition chunks4 : list (list (list byte)) :=
  [[bytes_of "hi"; bytes_of "hello"; bytes_of "!"]; [bytes_of "bye"]].

Lemma log36_4_inv : log_inv log36_4 0 chunks4.
Proof. log_inv_compute. Qed.

Lemma log36_4_dir : log_dir log36_4 dir36_4.
Proof. log_dir_compute. Qed.

(** Truncating at 3 removes the first segment and its two files: offset
    3 still reads back, offset 2 is out of range, and the log now starts
    at 3. *)
Example log36_truncate :
  let '(l', d', es) := Truncate no_faults log36_4 3 dir36_4 in
  es = [] /\ snd (Read l' 3) = Ok (bytes_of "bye")
  /\ snd (Read l' 2) = Err (ErrOffsetOutOfRange 2)
  /\ LowestOffset l' = Some 3 /\ HighestOffset l' = Some 3 /\ segment_bases d' = [3; 3].
Proof. vm_compute. split_and!; reflexivity. Qed.

Lemma log_Truncate_witness :
  exists j l' d',
    Truncate no_faults log36_4 3 dir36_4 = (l', d', [])
    /\ log_inv l' (0 + Z.of_nat (length (concat (take j chunks4)))) (drop j chunks4)
    /\ log_dir l' d'
    /\ Forall (fun s => 3 < nextOffset s) (segments l')
    /\ forall k p, concat chunks4 !! k = Some p -> 3 <= 0 + Z.of_nat k ->
                   exists l'', Read l' (0 + Z.of_nat k) = (l'', Ok p).
Proof. apply log_Truncate; [exact log36_4_inv | exact log36_4_dir | vm_compute; reflexivity]. Defined.

Lemma Truncate_past_end_witness :
  let '(l', d', _) := Truncate no_faults log36_4 4 dir36_4 in
  segments l' = [] /\ Append no_faults l' d' (bytes_of "x") = (l', d', Err Panic).
Proof.
  apply (Truncate_past_end log36_4 0 chunks4 4 no_faults dir36_4 (bytes_of "x"));
    [exact (proj1 log36_4_inv) | vm_compute; congruence].
Defined.

Lemma log_offsets_witness :
  LowestOffset log36_4 = Some 0
  /\ HighestOffset log36_4 = if (length (concat chunks4) =? 0)%nat then None
                             else Some (0 + Z.of_nat (length (concat chunks4)) - 1).
Proof. apply (log_offsets log36_4 0 chunks4). exact (proj1 log36_4_inv). Defined.

Lemma NewLog_fresh_witness :
  exists l d', NewLog no_faults "log" cfg_log36 ∅ = (d', Ok l)
            /\ log_inv l (InitialOffset (Segment cfg_log36)) [[]] /\ log_dir l d'
            /\ LowestOffset l = Some (InitialOffset (Segment cfg_log36)) /\ HighestOffset l = None.
Proof. apply NewLog_fresh; [exact conf_ok_log36 | vm_compute; split; congruence | vm_compute; reflexivity]. Defined.

Lemma log_Read_witness :
  exists l', Read log_hi_hello (0 + Z.of_nat 1) = (l', Ok (bytes_of "hello"))
             /\ log_holds l' 0 [[bytes_of "hi"; bytes_of "hello"]].
Proof. apply (log_Read log_hi_hello 0 _ 1); [exact log_hi_hello_holds | reflexivity]. Defined.

Lemma log_Read_out_of_range_witness :
  Read log_hi_hello 2 = (log_hi_hello, Err (ErrOffsetOutOfRange 2)).
Proof.
  apply (log_Read_out_of_range log_hi_hello 0 [[bytes_of "hi"; bytes_of "hello"]] 2);
    [exact log_hi_hello_holds | right; vm_compute; congruence].
Defined.

End CommitLogExamples.
