(* ===== verification/Recovery.v ===== *)
(** * Recovery: closing, reopening and removing the segmented log

    [CommitLog.Close] closes every segment, writing its store and index
    files into the directory; [CommitLog.NewLog] lists the directory and
    reopens a segment per base offset; [CommitLog.Remove] closes and then
    deletes every segment file.  The theorems: closing a log that keeps
    [log_inv] and agrees with its directory succeeds, and opening the
    directory it leaves gives back a log holding the same records that
    keeps [log_inv] and agrees with the new directory ([log_Close_reopen]);
    teardown goes on after a failure ([Close_best_effort]); removal
    deletes every segment file and no other, whatever the closes did
    ([Remove_clears]). *)

From stdpp Require Import base list strings pretty sorting gmap.
From Stdlib Require Import ZArith Lia.
From Stdlib Require Import Strings.Byte.
From S2P Require Import Prelude Encoding Index Store Directory Segment CommitLog.
Import Index Store Directory Segment CommitLog.

Open Scope Z_scope.
Open Scope monolog_scope.

Section RecoveryLemmas.
Implicit Types (chunks : list (list (list byte))) (segs : list segment) (d : directory).

(** The names of a segment's two files. *)
Local Abbreviation seg_file s nm := (nm = sname (store s) \/ nm = Index.file (index s)).

(** A teardown changes only the files of the segments it visits, when
    each step changes only its segment's files. *)
Lemma teardown_changes (op : segment -> directory -> directory * result unit) segs d :
  (forall s d0, changes_only d0 (op s d0).1 (fun nm => seg_file s nm)) ->
  changes_only d (teardown op segs d).1 (fun nm => exists s, s ∈ segs /\ seg_file s nm).
Proof.
  intros Hop. revert d. induction segs as [|s segs IH]; intros d; [apply changes_only_refl|].
  cbn [teardown]. pose proof (Hop s d) as H1. destruct (op s d) as [d1 r]. cbn [fst] in H1.
  pose proof (IH d1) as H2. destruct (teardown op segs d1) as [d2 es]. cbn [fst] in H2.
  pose proof (changes_only_trans _ _ _ _ _ H1 H2) as H12.
  destruct r; cbn [fst]; eapply changes_only_weaken; try (exact H12 || exact H1);
    intros nm Hnm; cbn beta in Hnm;
    first [ destruct Hnm as [Hs|(x & Hx & Hn)];
            [exists s; split; [set_solver | exact Hs] | exists x; split; [set_solver | exact Hn]]
          | exists s; split; [set_solver | exact Hnm] ].
Qed.

(** The files of segments named after distinct base offsets in range
    have distinct names. *)
Lemma seg_files_disjoint s s' nm :
  seg_named s -> seg_named s' -> 0 <= baseOffset s < 2 ^ 64 -> 0 <= baseOffset s' < 2 ^ 64 ->
  baseOffset s <> baseOffset s' -> seg_file s nm -> ~ seg_file s' nm.
Proof.
  intros [Hs Hi] [Hs' Hi'] Hb Hb' Hne Hnm Hnm'. rewrite Hs, Hi in Hnm. rewrite Hs', Hi' in Hnm'.
  destruct Hnm as [->| ->], Hnm' as [E|E];
    first [ apply Hne, (store_name_inj _ _ Hb Hb' E) | apply Hne, (index_name_inj _ _ Hb Hb' E)
          | exact (store_index_name_ne _ _ Hb Hb' E) | exact (store_index_name_ne _ _ Hb' Hb (eq_sym E)) ].
Qed.

(** The index file a closed segment leaves: its written entries. *)
Local Abbreviation index_data s := (take (Z.to_nat (Index.size (index s))) (mmap (index s))).

(** A family of segments in range, named after distinct base offsets. *)
Definition segs_apart segs : Prop :=
  Forall seg_named segs /\ NoDup (baseOffset <$> segs) /\ Forall (fun s => 0 <= baseOffset s < 2 ^ 64) segs.

Lemma segs_apart_cons s segs :
  segs_apart (s :: segs) -> segs_apart segs /\ forall s', s' ∈ segs -> forall nm, seg_file s nm -> ~ seg_file s' nm.
Proof.
  intros (Hn & Hnd & Hr). inversion Hn as [|? ? Hns Hn']; inversion Hr as [|? ? Hrs Hr']; subst.
  cbn [fmap list_fmap] in Hnd. apply NoDup_cons in Hnd as [Hnin Hnd].
  split; [split_and!; assumption|]. intros s' Hs' nm. apply seg_files_disjoint; try assumption.
  - exact (proj1 (Forall_forall _ _) Hn' s' Hs').
  - exact (proj1 (Forall_forall _ _) Hr' s' Hs').
  - intros E. apply Hnin. rewrite E. apply list_elem_of_fmap. eauto.
Qed.

(** Closing segments that hold their chunks, with no fault, reports no
    failure and leaves each one's records in its store file and its
    written entries in its index file. *)
Lemma close_segments_ok segs chunks d :
  Forall2 seg_holds segs chunks -> segs_apart segs ->
  exists d', teardown (Segment.Close no_faults) segs d = (d', [])
    /\ Forall2 (fun s rs => d' !! sname (store s) = Some (layout rs)
                            /\ d' !! Index.file (index s) = Some (index_data s)) segs chunks.
Proof.
  intros H. revert d. induction H as [|s rs segs chunks Hh _ IH]; intros d Hap.
  - exists d. split; [reflexivity | constructor].
  - destruct (segs_apart_cons s segs Hap) as [Hap' Hdis].
    destruct (IH (<[sname (store s) := layout rs]> (<[Index.file (index s) := index_data s]> d)) Hap')
      as (d' & Ht & Hf).
    exists d'. cbn [teardown]. rewrite (seg_Close_ok s rs d Hh), Ht. split; [reflexivity|].
    constructor; [|exact Hf].
    pose proof (teardown_changes (Segment.Close no_faults) segs
                  (<[sname (store s) := layout rs]> (<[Index.file (index s) := index_data s]> d))
                  (fun s0 d0 => seg_Close_dir no_faults s0 d0)) as Hch. rewrite Ht in Hch. cbn [fst] in Hch.
    pose proof (seg_names_ne s rs Hh (Forall_inv (proj1 Hap))) as Hne.
    split; [destruct (Hch (sname (store s))) as [->|(x & Hx & Hn)]
           | destruct (Hch (Index.file (index s))) as [->|(x & Hx & Hn)]].
    + apply lookup_insert_eq.
    + exfalso. exact (Hdis x Hx _ (or_introl eq_refl) Hn).
    + rewrite lookup_insert_ne, lookup_insert_eq by congruence. reflexivity.
    + exfalso. exact (Hdis x Hx _ (or_intror eq_refl) Hn).
Qed.

(** The base offsets of a log whose sealed segments are not empty
    strictly increase. *)
Lemma log_bases_lt l lo chunks :
  log_holds l lo chunks -> sealed_nonempty chunks ->
  forall i j x y, (i < j)%nat -> (baseOffset <$> segments l) !! i = Some x ->
  (baseOffset <$> segments l) !! j = Some y -> x < y.
Proof.
  intros Hl Hsn i j x y Hij Hx Hy. pose proof Hl as (_ & Hlen & _).
  rewrite list_lookup_fmap in Hx, Hy.
  destruct (segments l !! i) as [si|] eqn:Hsi; [|discriminate].
  destruct (segments l !! j) as [sj|] eqn:Hsj; [|discriminate].
  injection Hx as <-. injection Hy as <-.
  destruct (log_chunk l lo chunks i si Hl Hsi) as [ri Hri].
  destruct (log_chunk l lo chunks j sj Hl Hsj) as [rj Hrj].
  destruct (log_segment_range l lo chunks i si ri Hl Hsi Hri) as [Hbi _].
  destruct (log_segment_range l lo chunks j sj rj Hl Hsj Hrj) as [Hbj _].
  pose proof (length_concat_take_S chunks i ri Hri).
  pose proof (length_concat_take_mono chunks (S i) j ltac:(lia)).
  assert (ri <> []) by (apply (Hsn i ri Hri); apply lookup_lt_Some in Hrj; lia).
  destruct ri; [contradiction|]. cbn [length] in *. lia.
Qed.

(** Deduplicating and sorting a directory listing that names exactly a
    strictly increasing list of base offsets gives that list. *)
Lemma sort_listing (found bases : list Z) :
  (forall i j x y, (i < j)%nat -> bases !! i = Some x -> bases !! j = Some y -> x < y) ->
  (forall b, b ∈ found <-> b ∈ bases) ->
  merge_sort Z.le (remove_dups found) = bases.
Proof.
  intros Hlt Hf. apply (Sorted_unique Z.le).
  - apply Sorted_merge_sort. intros a b. lia.
  - apply StronglySorted_Sorted, StronglySorted_lookup_2. intros i j x y Hij Hx Hy.
    pose proof (Hlt i j x y Hij Hx Hy). lia.
  - rewrite merge_sort_Permutation. apply NoDup_Permutation.
    + apply NoDup_remove_dups.
    + apply (StronglySorted_NoDup Z.lt), StronglySorted_lookup_2. exact Hlt.
    + intros b. rewrite elem_of_remove_dups. apply Hf.
Qed.

(** The reopened segments make a log that holds the same chunks. *)
Lemma log_holds_reopen l lo chunks segs' dir c :
  log_holds l lo chunks -> Forall2 seg_holds segs' chunks ->
  Forall2 (fun s' s => baseOffset s' = baseOffset s) segs' (segments l) ->
  log_holds {| Dir := dir; Conf := c; segments := segs'; closed := false |} lo chunks.
Proof.
  intros (_ & Hlen & Hne & Hall) H1 H2. pose proof (Forall2_length _ _ _ H1) as L1.
  pose proof (Forall2_length _ _ _ H2) as L2.
  unfold log_holds. cbn [closed segments]. split_and!; [reflexivity | exact L1 | |].
  - intros ->. cbn in L2. destruct (segments l); [contradiction | discriminate].
  - intros i s' rs Hs' Hrs. split; [exact (Forall2_lookup_lr _ _ _ _ _ _ H1 Hs' Hrs)|].
    destruct (Forall2_lookup_l _ _ _ _ _ H2 Hs') as (s & Hs & ->).
    exact (proj2 (Hall i s rs Hs Hrs)).
Qed.

(** A segment file named the log's way is the file of a kind at its base. *)
Lemma seg_file_name s nm :
  seg_named s -> seg_file s nm -> exists k, nm = file_name k (baseOffset s).
Proof. intros [Hs Hi] [->| ->]; [exists StoreFile; exact Hs | exists IndexFile; exact Hi]. Qed.

(** Writing only the files of segments named after base offsets in range
    keeps a directory canonical for their base offsets. *)
Lemma changes_canon segs d d' :
  segs_apart segs -> dir_canon (baseOffset <$> segs) d ->
  changes_only d d' (fun nm => exists s, s ∈ segs /\ seg_file s nm) ->
  dir_canon (baseOffset <$> segs) d'.
Proof.
  intros (Hn & _ & Hr) Hc Hch. apply (dir_canon_update _ _ d _ Hc); [reflexivity|].
  intros nm. destruct (Hch nm) as [|(s & Hs & Hf)]; [auto | right].
  destruct (seg_file_name s nm (proj1 (Forall_forall _ _) Hn s Hs) Hf) as [k ->].
  exists k, (baseOffset s). split_and!; [reflexivity | apply list_elem_of_fmap; eauto
                                        | apply (proj1 (Forall_forall _ _) Hr s Hs) ..].
Qed.

(** The listing of a directory holding the store file of every segment,
    canonical for their base offsets, gives exactly those base offsets. *)
Lemma closed_listing segs d :
  segs_apart segs -> dir_canon (baseOffset <$> segs) d ->
  Forall (fun s => is_Some (d !! sname (store s))) segs ->
  forall b, b ∈ segment_bases d <-> b ∈ baseOffset <$> segs.
Proof.
  intros (Hn & _ & Hr) Hc Hf b. split; [apply segment_bases_canon, Hc|].
  intros (s & -> & Hs)%list_elem_of_fmap. apply list_elem_of_lookup in Hs as [i Hi].
  destruct (proj1 (Forall_lookup _ _) Hf i s Hi) as [x Hx].
  destruct (proj1 (Forall_lookup _ _) Hn i s Hi) as [Es _]. rewrite Es in Hx.
  exact (segment_bases_store d _ _ (proj1 (Forall_lookup _ _) Hr i s Hi) Hx).
Qed.

(** Opening, in order, the segments whose files the directory holds
    gives segments that hold the same chunks from the same bases, named
    the same way, and changes only their files. *)
Lemma open_segments_reopen d c segs chunks :
  0 < MaxIndexBytes (Segment c) < 2 ^ 63 -> segs_apart segs ->
  Forall2 (fun s rs => seg_holds s rs /\ Index.size (index s) <= MaxIndexBytes (Segment c)) segs chunks ->
  (forall i s rs, segs !! i = Some s -> chunks !! i = Some rs ->
     d !! store_name (baseOffset s) = Some (layout rs) /\ d !! index_name (baseOffset s) = Some (index_data s)) ->
  exists segs' d', open_segments no_faults d c (baseOffset <$> segs) = (d', Ok segs')
    /\ Forall2 seg_holds segs' chunks
    /\ Forall2 (fun s' s => baseOffset s' = baseOffset s /\ config s' = c
                  /\ Z.of_nat (length (mmap (index s'))) = MaxIndexBytes (Segment c)
                  /\ ssize (store s') = ssize (store s)
                  /\ Index.size (index s') = Index.size (index s) /\ seg_named s') segs' segs
    /\ changes_only d d' (fun nm => exists s, s ∈ segs /\ seg_file s nm).
Proof.
  intros HM Hap Hf. revert d. induction Hf as [|s rs segs chunks (Hh & Hle) _ IH]; intros d Hd.
  - exists [], d. split_and!; [reflexivity | constructor | constructor | apply changes_only_refl].
  - destruct (segs_apart_cons s segs Hap) as [Hap' Hdis].
    destruct (Hd 0%nat s rs eq_refl eq_refl) as [Hs Hi].
    destruct (seg_reopen s rs c d Hh HM Hle Hs Hi) as (s' & Hr & Hh' & Hrel).
    pose proof (newSegment_dir no_faults d (baseOffset s) c) as Hch1.
    destruct (newSegment no_faults d (baseOffset s) c) as [d1 r] eqn:E. cbn [snd fst] in Hr, Hch1. subst r.
    destruct (Forall_inv (proj1 Hap)) as [Es Ei].
    destruct (IH Hap' d1) as (segs' & d2 & Hos & H1 & H2 & Hch2).
    { intros i t rt Ht Hrt. destruct (Hd (S i) t rt Ht Hrt) as [Ht1 Ht2].
      pose proof (list_elem_of_lookup_2 _ _ _ Ht) as Htin.
      destruct (proj1 (Forall_forall _ _) (proj1 Hap') t Htin) as [Ets Eti].
      split; [destruct (Hch1 (store_name (baseOffset t))) as [->|Hn]
             | destruct (Hch1 (index_name (baseOffset t))) as [->|Hn]]; try assumption;
        exfalso; rewrite <- Es, <- Ei in Hn; apply (Hdis t Htin _ Hn); [left | right]; symmetry; assumption. }
    exists (s' :: segs'), d2. cbn [fmap list_fmap open_segments]. rewrite E, Hos.
    split_and!; [reflexivity | constructor; assumption | constructor; [tauto | assumption] |].
    eapply changes_only_weaken; [exact (changes_only_trans _ _ _ _ _ Hch1 Hch2)|].
    intros nm [Hn|(x & Hx & Hn)]; [exists s; split; [set_solver | rewrite Es, Ei; exact Hn]
                                   | exists x; split; [set_solver | exact Hn]].
Qed.

(** The log reopened from those segments keeps [log_inv]. *)
Lemma log_inv_reopen l lo chunks c dir segs' :
  log_inv l lo chunks -> Conf l = with_defaults c ->
  Forall2 seg_holds segs' chunks ->
  Forall2 (fun s' s => baseOffset s' = baseOffset s /\ config s' = with_defaults c
                /\ Z.of_nat (length (mmap (index s'))) = MaxIndexBytes (Segment (with_defaults c))
                /\ ssize (store s') = ssize (store s)
                /\ Index.size (index s') = Index.size (index s) /\ seg_named s') segs' (segments l) ->
  log_inv {| Dir := dir; Conf := with_defaults c; segments := segs'; closed := false |} lo chunks.
Proof.
  intros (Hl & Hc & Hact & Hsn & Hfit) HC H1 H2.
  destruct (log_last l lo chunks Hl) as (act & rs & Hlast & Hs & _).
  pose proof (Forall2_length _ _ _ H1) as L1.
  split; [| split; [| split; [| split]]].
  - apply (log_holds_reopen l); [exact Hl | exact H1 |].
    eapply Forall2_impl; [exact H2 | intros ? ? (Hb & _); exact Hb].
  - cbn [Conf]. rewrite <- HC. exact Hc.
  - intros a Ha. cbn [segments Conf] in Ha |- *. rewrite last_lookup, L1 in Ha.
    destruct (Forall2_lookup_lr _ _ _ _ _ _ H2 Ha Hs) as (_ & Hcfg & Hmm & Hss & Hsz & _).
    destruct (Hact act Hlast) as (Hmax & Hcfg0 & _).
    split_and!; [| exact Hcfg | exact Hmm].
    unfold IsMaxed in *. rewrite Hcfg, Hss, Hsz, <- HC, <- Hcfg0. exact Hmax.
  - exact Hsn.
  - cbn [segments Conf]. apply Forall_lookup. intros i a Ha.
    destruct (Forall2_lookup_l _ _ _ _ _ H2 Ha) as (s & Hs' & _ & _ & _ & _ & Hsz & _).
    rewrite Forall_lookup in Hfit. rewrite <- HC, Hsz. exact (Hfit i s Hs').
Qed.

(** The segments of a log that keeps [log_inv] and agrees with its
    directory are named after distinct base offsets in range. *)
Lemma log_segs_apart l lo chunks d : log_inv l lo chunks -> log_dir l d -> segs_apart (segments l).
Proof.
  intros (Hl & _ & _ & Hsn & _) [Hn _]. split_and!; [exact Hn | |].
  - apply (StronglySorted_NoDup Z.lt), StronglySorted_lookup_2. exact (log_bases_lt l lo chunks Hl Hsn).
  - apply Forall_forall. intros s Hs. pose proof (log_base_range l lo chunks s Hl Hs). lia.
Qed.

End RecoveryLemmas.

Section RecoveryTheorems.
Implicit Types (chunks : list (list (list byte))) (d : directory).

Lemma bases_Forall2 (segs' segs : list segment) (P : segment -> segment -> Prop) :
  Forall2 (fun s' s => baseOffset s' = baseOffset s /\ P s' s) segs' segs ->
  baseOffset <$> segs' = baseOffset <$> segs.
Proof. induction 1 as [|? ? ? ? [Hb _] _ IH]; [reflexivity|]. cbn. rewrite Hb, IH. reflexivity. Qed.

(** C30. Recovery: closing a log that keeps [log_inv] and agrees with its
    directory succeeds with no failure, and opening the directory it
    leaves gives back a log that holds the same records from the same
    offset, keeps [log_inv] and agrees with the new directory: the
    listing gives the base offsets of the segments, and [nextOffset] of
    every segment is recovered from the last entry of its index, so
    appends continue where they stopped. *)
Theorem log_Close_reopen l lo chunks c d dir :
  log_inv l lo chunks -> log_dir l d -> Conf l = with_defaults c ->
  exists d1,
    Close no_faults l d = ({| Dir := Dir l; Conf := Conf l; segments := segments l; closed := true |}, d1, [])
    /\ exists l2 d2, NewLog no_faults dir c d1 = (d2, Ok l2) /\ log_inv l2 lo chunks /\ log_dir l2 d2.
Proof.
  intros Hinv Hd HC. pose proof Hinv as (Hl & Hc & _ & Hsn & Hfit). pose proof Hl as (Hcl & Hlen & Hne & _).
  pose proof (log_holds_Forall2 l lo chunks Hl) as HF2. pose proof (log_segs_apart l lo chunks d Hinv Hd) as Hap.
  destruct (close_segments_ok _ _ d HF2 Hap) as (d1 & Ht & Hfiles).
  exists d1. split; [unfold Close; rewrite Hcl, Ht; reflexivity|].
  pose proof (teardown_changes (Segment.Close no_faults) (segments l) d (seg_Close_dir no_faults)) as Hch.
  rewrite Ht in Hch. cbn [fst] in Hch. pose proof (changes_canon _ d d1 Hap (proj2 Hd) Hch) as Hcan1.
  pose proof (closed_listing (segments l) d1 Hap Hcan1) as Hlist.
  pose proof Hc as (_ & HM & _). rewrite HC in HM.
  destruct (open_segments_reopen d1 (with_defaults c) (segments l) chunks) as (segs' & d2 & Hos & H1 & H2 & Hch2);
    [widths; lia | exact Hap | | |].
  { apply Forall2_same_length_lookup. split; [exact Hlen|]. intros i s rs Hs Hrs.
    split; [exact (Forall2_lookup_lr _ _ _ _ _ _ HF2 Hs Hrs)|].
    rewrite Forall_lookup in Hfit. rewrite <- HC. exact (Hfit i s Hs). }
  { intros i s rs Hs Hrs. destruct (Forall2_lookup_lr _ _ _ _ _ _ Hfiles Hs Hrs) as [Hs1 Hi1].
    destruct (proj1 (Forall_lookup _ _) (proj1 Hap) i s Hs) as [Es Ei]. rewrite <- Es, <- Ei. auto. }
  unfold NewLog. rewrite (sort_listing (segment_bases d1) _ (log_bases_lt l lo chunks Hl Hsn)), Hos;
    [| apply Hlist, Forall_lookup; intros i s Hs;
       destruct (Forall2_lookup_l _ _ _ _ _ Hfiles Hs) as (rs & _ & Hx & _); eauto].
  pose proof (Forall2_length _ _ _ H1) as L1.
  destruct segs' as [|s0 segs0]; [destruct (segments l); [contradiction | cbn in Hlen, L1; lia]|].
  eexists _, d2. split; [reflexivity|]. split; [exact (log_inv_reopen l lo chunks c dir _ Hinv HC H1 H2)|].
  split; cbn [segments].
  - apply Forall_lookup. intros i a Ha.
    destruct (Forall2_lookup_l _ _ _ _ _ H2 Ha) as (s & _ & _ & _ & _ & _ & _ & Hn). exact Hn.
  - rewrite (bases_Forall2 _ _ _ H2). exact (changes_canon _ d1 d2 Hap Hcan1 Hch2).
Qed.

(** A teardown whose every step fails with [e] reports [e] once per
    segment: no failure stops it. *)
Lemma teardown_all_fail (op : segment -> directory -> directory * result unit) e segs d :
  (forall s d0, (op s d0).2 = Err e) -> (teardown op segs d).2 = replicate (length segs) e.
Proof.
  intros Hop. revert d. induction segs as [|s segs IH]; intros d; [reflexivity|].
  cbn [teardown]. pose proof (Hop s d) as H. destruct (op s d) as [d1 r]. cbn [snd] in H. subst r.
  pose proof (IH d1) as H2. destruct (teardown op segs d1). cbn in H2 |- *. rewrite H2. reflexivity.
Qed.

(** C35. Best-effort close (spec, section 5): when [fsync] of the index
    files fails, [close] still closes every segment in turn and reports
    the index's I/O error once for each, and the log is closed. *)
Theorem Close_best_effort flt l d :
  closed l = false -> flt SysMsync = false -> flt SysFsync = true ->
  (Close flt l d).2 = replicate (length (segments l)) (ErrIO SysFsync) /\ closed (Close flt l d).1.1 = true.
Proof.
  intros Hcl Hm Hf. unfold Close. rewrite Hcl.
  pose proof (teardown_all_fail (Segment.Close flt) (ErrIO SysFsync) (segments l) d) as H.
  destruct (teardown _ _ d). cbn in H |- *. split; [|reflexivity]. apply H.
  intros s d0. unfold Segment.Close, Index.Close. rewrite Hm, Hf. reflexivity.
Qed.

(** C36. Removal: on a log that keeps [log_inv] and agrees with its
    directory, [remove()], with [os.Remove] not failing, leaves the log
    closed and the directory with no segment file, whatever the closes
    reported, and every other file as it was. *)
Theorem Remove_clears flt l lo chunks d :
  log_inv l lo chunks -> log_dir l d -> flt SysRemove = false ->
  let '(l', d', _) := Remove flt l d in
  closed l' = true /\ segment_bases d' = [] /\ forall nm, parse_name nm = None -> d' !! nm = d !! nm.
Proof.
  intros Hinv Hd Hf. pose proof Hinv as ((Hcl & _) & _). pose proof (log_segs_apart l lo chunks d Hinv Hd) as (Hn & _ & Hr).
  unfold Remove, Close. rewrite Hcl.
  pose proof (teardown_changes (Segment.Close flt) (segments l) d (seg_Close_dir flt)) as Hch.
  destruct (teardown _ _ d) as [d1 es]. cbn [fst] in Hch.
  pose proof (fun nm => remove_files_lookup flt d1 (segment_files d1) nm Hf) as Hrm.
  destruct (remove_files flt d1 (segment_files d1)) as [d2 es2]. cbn [fst] in Hrm |- *.
  split; [reflexivity|]. split.
  - apply segment_bases_nil. intros nm Hp. rewrite Hrm. case_decide as Hin; [reflexivity|].
    destruct (d1 !! nm) eqn:E; [|reflexivity]. exfalso. apply Hin, elem_of_segment_files. eauto.
  - intros nm Hp. rewrite Hrm. case_decide as Hin; [apply elem_of_segment_files in Hin as [Hs _]; rewrite Hp in Hs; by destruct Hs|].
    destruct (Hch nm) as [|(s & Hs & Hsf)]; [assumption|exfalso].
    destruct (seg_file_name s nm (proj1 (Forall_forall _ _) Hn s Hs) Hsf) as [k ->].
    rewrite parse_file_name in Hp by exact (proj1 (Forall_forall _ _) Hr s Hs). discriminate.
Qed.

End RecoveryTheorems.

Section RecoveryExamples.
Local Open Scope string_scope.

(** Closing the log of [CommitLog] after its four appends and reopening
    its directory: the records read back, and the next append gets
    offset 4. *)
Example log36_reopen :
  let '(_, d1, es) := Close no_faults log36_4 dir36_4 in
  let '(_, r) := NewLog no_faults "log" cfg_log36 d1 in
  es = [] /\ match r with
             | Ok l2 => snd (Read l2 3) = Ok (bytes_of "bye") /\ snd (Read l2 0) = Ok (bytes_of "hi")
                        /\ (Append no_faults l2 d1 (bytes_of "x")).2 = Ok 4
             | Err _ => False
             end.
Proof. vm_compute. split_and!; reflexivity. Qed.

Lemma log_Close_reopen_witness :
  exists d1,
    Close no_faults log36_4 dir36_4
    = ({| Dir := Dir log36_4; Conf := Conf log36_4; segments := segments log36_4; closed := true |}, d1, [])
    /\ exists l2 d2, NewLog no_faults "log" cfg_log36 d1 = (d2, Ok l2) /\ log_inv l2 0 chunks4 /\ log_dir l2 d2.
Proof. apply log_Close_reopen; [exact log36_4_inv | exact log36_4_dir | vm_compute; reflexivity]. Defined.

Lemma Close_best_effort_witness :
  (Close fsync_fails log36_4 dir36_4).2 = replicate (length (segments log36_4)) (ErrIO SysFsync)
  /\ closed (Close fsync_fails log36_4 dir36_4).1.1 = true.
Proof. apply Close_best_effort; reflexivity. Defined.

Lemma Remove_clears_witness :
  let '(l', d', _) := Remove fsync_fails log36_4 dir36_4 in
  closed l' = true /\ segment_bases d' = [] /\ forall nm, parse_name nm = None -> d' !! nm = dir36_4 !! nm.
Proof. apply (Remove_clears fsync_fails log36_4 0 chunks4); [exact log36_4_inv | exact log36_4_dir | reflexivity]. Defined.

(** With [fsync] failing, [remove()] reports the failed close of both
    segments and still deletes their four files; opening the directory
    then starts a fresh log at offset 0. *)
Example remove_fsync_fails :
  let '(_, d', es) := Remove fsync_fails log36_4 dir36_4 in
  es = [ErrIO SysFsync; ErrIO SysFsync] /\ d' = ∅
  /\ match (NewLog no_faults "log" cfg_log36 d').2 with
     | Ok l2 => LowestOffset l2 = Some 0 /\ HighestOffset l2 = None
     | Err _ => False
     end.
Proof. vm_compute. split_and!; reflexivity. Qed.

(** A second [close] fails with the closed error and changes nothing. *)
Example close_twice :
  let '(l1, d1, _) := Close no_faults log36_4 dir36_4 in
  Close no_faults l1 d1 = (l1, d1, [ErrClosed]) /\ (Append no_faults l1 d1 (bytes_of "x")).2 = Err ErrClosed.
Proof. vm_compute. split; reflexivity. Qed.

End RecoveryExamples.
