(* ===== verification/Crash.v ===== *)
(** * Crash: reopening the segmented log after a crash

    A crash while the log is open leaves in each segment's files what
    reached them: the store file the bytes its buffered writer flushed,
    the index file the whole memory map, at the [MaxIndexBytes] length
    [newIndex] truncated it up to (the mapped bytes reach the file; only
    [Close] truncates it back to its entries).  [crash] is that
    directory.  Opening it with [NewLog] succeeds, but [newIndex] takes
    each index's logical size from its file's length, so every reopened
    index is full: the theorem [log_crash_reopen] shows that every
    [append] of the reopened log then fails with [io.EOF], the
    log-level consequence of [Index.crash_reopen]. *)

From stdpp Require Import base list strings pretty sorting gmap.
From Stdlib Require Import ZArith Lia.
From Stdlib Require Import Strings.Byte.
From S2P Require Import Prelude Encoding Index Store Directory Segment CommitLog Recovery.
Import Index Store Directory Segment CommitLog.

Open Scope Z_scope.
Open Scope monolog_scope.

(** The directory a crash leaves: each segment's store file holds its
    flushed bytes, its index file the whole map. *)
Fixpoint crash_segments (segs : list segment) (d : directory) : directory :=
  match segs with
  | [] => d
  | s :: ss => crash_segments ss (<[sname (store s) := disk (store s)]> (<[Index.file (index s) := mmap (index s)]> d))
  end.

Definition crash (l : Log) (d : directory) : directory := crash_segments (segments l) d.

Section CrashLemmas.
Implicit Types (segs : list segment) (d : directory).

(** A crash changes only the files of the log's segments. *)
Lemma crash_changes segs d :
  changes_only d (crash_segments segs d)
    (fun nm => exists s, s ∈ segs /\ (nm = sname (store s) \/ nm = Index.file (index s))).
Proof.
  revert d. induction segs as [|s segs IH]; intros d; [apply changes_only_refl|]. cbn [crash_segments].
  pose proof (changes_only_trans _ _ _ _ _ (changes_only_insert d (Index.file (index s)) (mmap (index s)))
                (changes_only_insert _ (sname (store s)) (disk (store s)))) as H1.
  eapply changes_only_weaken; [exact (changes_only_trans _ _ _ _ _ H1 (IH _))|].
  intros nm [[Hi|Hs]|(x & Hx & Hn)]; [exists s; split; [set_solver | tauto] .. | exists x; split; [set_solver | exact Hn]].
Qed.

(** After a crash the files of segments named apart hold their flushed
    store bytes and their whole maps. *)
Lemma crash_lookup segs d s :
  segs_apart segs -> s ∈ segs ->
  crash_segments segs d !! sname (store s) = Some (disk (store s))
  /\ crash_segments segs d !! Index.file (index s) = Some (mmap (index s)).
Proof.
  revert d. induction segs as [|s0 segs IH]; intros d Hap Hs; [set_solver|].
  destruct (segs_apart_cons s0 segs Hap) as [Hap' Hdis]. cbn [crash_segments].
  apply elem_of_cons in Hs as [<-|Hs]; [|exact (IH _ Hap' Hs)].
  assert (Hne : sname (store s) <> Index.file (index s)).
  { destruct (Forall_inv (proj1 Hap)) as [Es Ei]. pose proof (Forall_inv (proj2 (proj2 Hap))) as Hr.
    cbn beta in Hr. rewrite Es, Ei. apply store_index_name_ne; lia. }
  split; [destruct (crash_changes segs (<[sname (store s) := disk (store s)]> (<[Index.file (index s) := mmap (index s)]> d))
                      (sname (store s))) as [->|(x & Hx & Hn)]
         | destruct (crash_changes segs (<[sname (store s) := disk (store s)]> (<[Index.file (index s) := mmap (index s)]> d))
                      (Index.file (index s))) as [->|(x & Hx & Hn)]].
  - apply lookup_insert_eq.
  - exfalso. exact (Hdis x Hx _ (or_introl eq_refl) Hn).
  - rewrite lookup_insert_ne, lookup_insert_eq by congruence. reflexivity.
  - exfalso. exact (Hdis x Hx _ (or_intror eq_refl) Hn).
Qed.

(** With no fault, opening a segment succeeds whatever its files hold:
    its index takes its logical size from the index file's length. *)
Lemma newSegment_ok d b c data :
  0 < MaxIndexBytes (Segment c) < 2 ^ 63 -> 0 <= b < 2 ^ 64 -> d !! index_name b = Some data ->
  exists s, snd (newSegment no_faults d b c) = Ok s /\ baseOffset s = b /\ config s = c
            /\ Index.size (index s) = Z.of_nat (length data)
            /\ Z.of_nat (length (mmap (index s))) = MaxIndexBytes (Segment c).
Proof.
  intros HM Hb Hd. unfold newSegment, open_create.
  assert (Hi : forall x, (<[store_name b := x]> d) !! index_name b = Some data)
    by (intros x; rewrite lookup_insert_ne by (apply store_index_name_ne; lia); exact Hd).
  destruct (d !! store_name b); unfold newStore; rewrite syscall_do_no_faults; rewrite ?Hi, ?Hd;
    rewrite newIndex_ok by exact HM; cbn [snd bind fdata];
    (eexists; split; [reflexivity|]); cbn [baseOffset config index Index.size mmap];
    rewrite length_resize; split_and!; first [reflexivity | lia].
Qed.

(** With no fault, opening the segments of distinct base offsets whose
    index files exist succeeds, one segment per base offset. *)
Lemma open_segments_ok d c bases :
  0 < MaxIndexBytes (Segment c) < 2 ^ 63 -> NoDup bases -> Forall (fun b => 0 <= b < 2 ^ 64) bases ->
  Forall (fun b => is_Some (d !! index_name b)) bases ->
  exists segs d', open_segments no_faults d c bases = (d', Ok segs)
    /\ Forall2 (fun s b => baseOffset s = b /\ config s = c
                  /\ Z.of_nat (length (mmap (index s))) = MaxIndexBytes (Segment c)
                  /\ forall data, d !! index_name b = Some data -> Index.size (index s) = Z.of_nat (length data))
               segs bases.
Proof.
  intros HM Hnd. revert d. induction Hnd as [|b bs Hb Hnd IH]; intros d Hr Hf.
  - exists [], d. split; [reflexivity | constructor].
  - inversion Hr as [|? ? Hrb Hr']; inversion Hf as [|? ? [data Hd] Hf']; subst.
    destruct (newSegment_ok d b c data HM Hrb Hd) as (s & Hs & Hbs & Hcs & Hsz & Hmm).
    pose proof (newSegment_dir no_faults d b c) as Hch.
    destruct (newSegment no_faults d b c) as [d1 r] eqn:E. cbn [snd fst] in Hs, Hch. subst r.
    assert (Hkeep : forall b', b' ∈ bs -> d1 !! index_name b' = d !! index_name b').
    { intros b' Hb'. pose proof (proj1 (Forall_forall _ _) Hr' b' Hb') as Hrb'.
      destruct (Hch (index_name b')) as [|[E1|E1]]; [assumption | ..]; exfalso.
      - exact (store_index_name_ne b b' Hrb Hrb' (eq_sym E1)).
      - apply Hb. rewrite <- (index_name_inj b' b Hrb' Hrb E1). exact Hb'. }
    destruct (IH d1 Hr') as (segs & d2 & Hos & H2).
    { apply Forall_forall. intros b' Hb'. rewrite (Hkeep b' Hb'). exact (proj1 (Forall_forall _ _) Hf' b' Hb'). }
    exists (s :: segs), d2. cbn [open_segments]. rewrite E, Hos. split; [reflexivity|].
    constructor; [split_and!; [assumption .. | intros x Hx; rewrite Hd in Hx; injection Hx as <-; exact Hsz]|].
    apply Forall2_same_length_lookup. split; [exact (Forall2_length _ _ _ H2)|].
    intros i s' b' Hs' Hb'. destruct (Forall2_lookup_lr _ _ _ _ _ _ H2 Hs' Hb') as (? & ? & ? & Hsz').
    split_and!; try assumption. intros x Hx. apply Hsz'. rewrite Hkeep; [exact Hx | exact (list_elem_of_lookup_2 _ _ _ Hb')].
Qed.

(** Segment [append] on a segment whose index is full fails with
    [io.EOF]. *)
Lemma seg_Append_full s p :
  Index.size (index s) = Z.of_nat (length (mmap (index s))) -> Index.size (index s) < 2 ^ 63 ->
  snd (Segment.Append s p) = Err EOF.
Proof.
  intros Hf Hb. unfold Segment.Append, Store.Append. cbn [snd].
  unfold Index.Write. rewrite wrap64_small by (widths; lia).
  destruct (Z.ltb_spec (Z.of_nat (length (mmap (index s)))) (Index.size (index s) + entWidth)); [reflexivity|].
  widths. lia.
Qed.

End CrashLemmas.

Section CrashTheorems.
Implicit Types (chunks : list (list (list byte))) (d : directory).

(** C21. Crash recovery: after a crash of a log that keeps [log_inv] and
    agrees with its directory, opening the directory succeeds with the
    same segments, but every index comes back full (its logical size is
    its file's over-allocated length), so every [append] of the reopened
    log fails with [io.EOF]: the log accepts no more records, where the
    spec expects reopening after a crash to give the same offsets. *)
Theorem log_crash_reopen l lo chunks c d dir p :
  log_inv l lo chunks -> log_dir l d -> Conf l = with_defaults c ->
  exists l2 d2, NewLog no_faults dir c (crash l d) = (d2, Ok l2)
    /\ baseOffset <$> segments l2 = baseOffset <$> segments l
    /\ forall d3, exists l3, Append no_faults l2 d3 p = (l3, d3, Err EOF).
Proof.
  intros Hinv Hd HC. pose proof Hinv as (Hl & Hc & Hact & Hsn & _). pose proof Hl as (_ & Hlen & Hne & _).
  pose proof (log_segs_apart l lo chunks d Hinv Hd) as Hap. pose proof Hap as (Hn & Hnd & Hr).
  pose proof (changes_canon _ d _ Hap (proj2 Hd) (crash_changes (segments l) d)) as Hcan.
  assert (Hfiles : forall s, s ∈ segments l ->
            crash l d !! store_name (baseOffset s) = Some (disk (store s))
            /\ crash l d !! index_name (baseOffset s) = Some (mmap (index s))).
  { intros s Hs. destruct (proj1 (Forall_forall _ _) Hn s Hs) as [Es Ei]. rewrite <- Es, <- Ei.
    exact (crash_lookup _ d s Hap Hs). }
  pose proof Hc as (_ & HM & _). rewrite HC in HM.
  destruct (open_segments_ok (crash l d) (with_defaults c) (baseOffset <$> segments l))
    as (segs & d2 & Hos & H2); [widths; lia | exact Hnd | apply Forall_fmap, Hr |
      apply Forall_fmap, Forall_forall; intros s Hs; unfold compose; rewrite (proj2 (Hfiles s Hs)); eauto |].
  unfold NewLog. rewrite (sort_listing (segment_bases (crash l d)) _ (log_bases_lt l lo chunks Hl Hsn)), Hos;
    [| apply (closed_listing _ _ Hap Hcan), Forall_forall; intros s Hs; unfold crash;
       rewrite (proj1 (crash_lookup _ d s Hap Hs)); eauto].
  destruct (log_last l lo chunks Hl) as (act & rs & Hlast & Hs & _).
  pose proof (Forall2_length _ _ _ H2) as L2. rewrite length_fmap in L2.
  destruct (lookup_lt_is_Some_2 segs (pred (length chunks))) as [s2 Hs2]; [apply lookup_lt_Some in Hs; lia|].
  destruct (Forall2_lookup_lr _ _ _ _ _ _ H2 Hs2 (list_lookup_fmap_Some_2 _ _ _ _ Hs)) as (_ & _ & Hmm2 & Hsz2).
  destruct (Hact act Hlast) as (_ & _ & Hmm).
  specialize (Hsz2 _ (proj2 (Hfiles act (list_elem_of_lookup_2 _ _ _ Hs)))).
  assert (Hlast2 : last segs = Some s2) by (rewrite last_lookup, L2, Hlen; exact Hs2).
  destruct segs as [|s0 segs0]; [cbn in L2; destruct (segments l); [contradiction | cbn in *; lia]|].
  eexists _, d2. split; [reflexivity|]. split.
  - cbn [segments]. apply list_eq. intros i. rewrite list_lookup_fmap.
    destruct ((s0 :: segs0) !! i) as [x|] eqn:Hx.
    + destruct (Forall2_lookup_l _ _ _ _ _ H2 Hx) as (b & Hb & <- & _). symmetry. exact Hb.
    + apply lookup_ge_None_1 in Hx. symmetry. apply lookup_ge_None_2. rewrite length_fmap. lia.
  - intros d3. unfold Append. cbn [closed segments]. rewrite Hlast2.
    pose proof (seg_Append_full s2 p) as Hfull. destruct (Segment.Append s2 p) as [s2' r].
    cbn [snd] in Hfull. rewrite Hfull; [eexists; reflexivity | rewrite Hsz2, Hmm2, <- HC; lia | rewrite Hsz2, Hmm, HC; widths; lia].
Qed.

End CrashTheorems.

Section CrashExamples.
Local Open Scope string_scope.

Lemma log_crash_reopen_witness :
  exists l2 d2, NewLog no_faults "log" cfg_log36 (crash log36_4 dir36_4) = (d2, Ok l2)
    /\ baseOffset <$> segments l2 = baseOffset <$> segments log36_4
    /\ forall d3, exists l3, Append no_faults l2 d3 (bytes_of "x") = (l3, d3, Err EOF).
Proof. apply log_crash_reopen with (lo := 0) (chunks := chunks4); [exact log36_4_inv | exact log36_4_dir | vm_compute; reflexivity]. Defined.

(** The crashed log of four records, none of them flushed from the
    stores' buffers: reopened, it still reports offsets up to 3 (the
    first index is full, the second counts three entries of zeros), yet
    every record is lost ([io.EOF] at offsets 0 and 3), and the next
    append fails with [io.EOF]. *)
Example log36_crash :
  match (NewLog no_faults "log" cfg_log36 (crash log36_4 dir36_4)).2 with
  | Ok l2 => HighestOffset l2 = Some 3 /\ snd (Read l2 0) = Err EOF /\ snd (Read l2 3) = Err EOF
             /\ (Append no_faults l2 ∅ (bytes_of "x")).2 = Err EOF
  | Err _ => False
  end.
Proof. vm_compute. split_and!; reflexivity. Qed.

End CrashExamples.
