(* ===== verification/Reader.v ===== *)
(** * Reader: the log's sequential reader and decoding its stream

    The segmented log's [reader()] (spec, section 4.4) yields the bytes
    of every segment's store from position 0, in offset order, each store
    flushed before it is read.  A consumer of that stream (a snapshot or
    a replica) splits it back into records by their 8-byte big-endian
    length headers: [decode_records], a loop bounded by fuel.  The
    theorems: the stream is the layout of the log's records
    ([Reader_layout]); decoding with fuel one more than the stream's
    length returns the records ([decode_Reader]); more fuel changes
    nothing ([decode_records_fuel]). *)

From stdpp Require Import base list strings.
From Stdlib Require Import ZArith Lia.
From Stdlib Require Import Strings.Byte.
From S2P Require Import Prelude Encoding Index Store Segment CommitLog.
Import BigEndian Store Segment CommitLog.

Open Scope Z_scope.
Open Scope monolog_scope.

Module LogReader.

(** [reader()]: every store's bytes, flushed, in the order of the
    segments. *)
Definition Reader (l : Log) : list byte :=
  concat ((fun s => disk (store s) ++ buf (store s)) <$> segments l).

(** Split a stream into records: an 8-byte header, then that many bytes;
    [None] on a truncated header or payload, or when the fuel runs out. *)
Fixpoint decode_records (fuel : nat) (bs : list byte) : option (list (list byte)) :=
  match fuel with
  | O => None
  | S fuel' =>
      match bs with
      | [] => Some []
      | _ =>
          if (length bs <? 8)%nat then None else
          let n := Z.to_nat (be_combine (take 8 bs)) in
          let rest := drop 8 bs in
          if (length rest <? n)%nat then None else
          ps ← decode_records fuel' (drop n rest); Some (take n rest :: ps)
      end
  end.

End LogReader.

Import LogReader.

Section ReaderTheorems.
Implicit Types (ps : list (list byte)) (chunks : list (list (list byte))).

Lemma layout_concat chunks : layout (concat chunks) = concat (layout <$> chunks).
Proof. induction chunks as [|c cs IH]; [reflexivity|]. cbn [concat fmap list_fmap]. rewrite layout_app, IH. reflexivity. Qed.

(** A record frame is at least its 8-byte header. *)
Lemma length_layout_cons p ps :
  length (layout (p :: ps)) = (8 + length p + length (layout ps))%nat.
Proof. unfold layout. cbn [fmap list_fmap concat]. rewrite length_app, length_frame. lia. Qed.

(** Enough fuel: one step per record, and the stream has at least eight
    bytes per record. *)
Lemma decode_layout_fuel ps fuel :
  Forall (fun p => Z.of_nat (length p) < 2 ^ 64) ps -> (length ps < fuel)%nat ->
  decode_records fuel (layout ps) = Some ps.
Proof.
  revert fuel. induction ps as [|p ps IH]; intros fuel Hps Hf; (destruct fuel as [|fuel]; [lia|]).
  - reflexivity.
  - apply Forall_cons in Hps as [Hp Hps].
    assert (Hl : layout (p :: ps) = be_split 8 (Z.of_nat (length p)) ++ p ++ layout ps)
      by (unfold layout; cbn [fmap list_fmap concat]; unfold frame; rewrite <- app_assoc; reflexivity).
    cbn [decode_records]. rewrite Hl.
    destruct (be_split 8 (Z.of_nat (length p)) ++ p ++ layout ps) as [|b bs] eqn:E;
      [apply (f_equal length) in E; rewrite length_app, length_be_split in E; discriminate|].
    rewrite <- E. clear E Hl.
    rewrite take_app_length' by (rewrite length_be_split; reflexivity).
    rewrite drop_app_length' by (rewrite length_be_split; reflexivity).
    rewrite be_combine_split, Z.mod_small by lia. rewrite Nat2Z.id.
    rewrite length_app, length_be_split.
    destruct (Nat.ltb_spec (8 + length (p ++ layout ps)) 8); [lia|].
    destruct (Nat.ltb_spec (length (p ++ layout ps)) (length p)); [rewrite length_app in *; lia|].
    cbn [length] in Hf. rewrite drop_app_length, take_app_length, IH by (assumption || lia). reflexivity.
Qed.

(** Fuel beyond the stream's length does not change the result: the loop
    has ended by then. *)
Lemma decode_records_fuel bs fuel1 fuel2 :
  (length bs < fuel1)%nat -> (length bs < fuel2)%nat ->
  decode_records fuel1 bs = decode_records fuel2 bs.
Proof.
  revert bs fuel2. induction fuel1 as [|f1 IH]; intros bs [|f2] H1 H2; try lia.
  cbn [decode_records]. destruct bs as [|b bs']; [reflexivity|].
  destruct (Nat.ltb_spec (length (b :: bs')) 8); [reflexivity|].
  destruct (Nat.ltb_spec (length (drop 8 (b :: bs'))) (Z.to_nat (be_combine (take 8 (b :: bs'))))); [reflexivity|].
  rewrite (IH _ f2) by (rewrite !length_drop; cbn [length] in *; lia). reflexivity.
Qed.

(** The reader of a log holding [chunks] yields the frames of all its
    records, in offset order. *)
Theorem Reader_layout l lo chunks : log_holds l lo chunks -> Reader l = layout (concat chunks).
Proof.
  intros Hl. pose proof Hl as (_ & Hlen & _ & Hall). rewrite layout_concat. unfold Reader.
  f_equal. apply list_eq. intros i. rewrite !list_lookup_fmap.
  destruct (segments l !! i) as [s|] eqn:Hs.
  - destruct (log_chunk l lo chunks i s Hl Hs) as [rs Hrs]. rewrite Hrs. cbn.
    destruct (Hall i s rs Hs Hrs) as ((Hh & _ & _) & _). f_equal. exact (proj1 Hh).
  - rewrite (lookup_ge_None_2 chunks i); [reflexivity|].
    apply lookup_ge_None_1 in Hs. lia.
Qed.

(** Decoding the reader's stream of a log gives back its records, with
    fuel one more than the stream's length. *)
Theorem decode_Reader l lo chunks :
  log_holds l lo chunks ->
  decode_records (S (length (Reader l))) (Reader l) = Some (concat chunks).
Proof.
  intros Hl. rewrite (Reader_layout l lo chunks Hl). apply decode_layout_fuel.
  - apply Forall_lookup. intros k p Hk.
    destruct (lookup_concat_split _ _ _ Hk) as (i & rs & k' & Hi & Hk' & _).
    pose proof Hl as (_ & Hlen & _ & Hall).
    destruct (lookup_lt_is_Some_2 (segments l) i) as [s Hs];
      [rewrite Hlen; eapply lookup_lt_Some; exact Hi|].
    destruct (Hall i s rs Hs Hi) as ((Hh & _) & _). pose proof Hh as (_ & _ & Hb).
    pose proof (layout_split rs k' p Hk') as E. apply (f_equal length) in E.
    rewrite !length_app, length_frame in E. lia.
  - clear Hl. induction (concat chunks) as [|p ps IH]; [cbn; lia|].
    rewrite length_layout_cons. cbn [length]. lia.
Qed.

End ReaderTheorems.

Section ReaderExamples.

(** The reader of the log after four appends decodes to the four
    records across its two segments. *)
Example Reader_log36_4 :
  decode_records (S (length (Reader log36_4))) (Reader log36_4)
  = Some (concat chunks4).
Proof. vm_compute. reflexivity. Qed.

End ReaderExamples.
