(* ===== verification/ServerLog.v ===== *)
(** * ServerLog: the in-memory log of src/internal/server/log.go

    The server keeps its records in a slice behind a [sync.Mutex].
    [Append] stamps the record with the slice length as its offset and
    appends it; [Read] returns the record at an offset or
    [ErrOffsetNotFound].  The sequential operations are [Append] and
    [Read] on [Log]; the mutex is modelled by a step relation over many
    goroutines ([step]) in which a goroutine takes the lock, runs its
    method body one statement at a time on the shared slice
    ([body_step]: the stamp, the [append], the return of [Append]; the
    bounds check and index of [Read]) and returns, releasing the lock
    (the [defer c.mu.Unlock()]).  The theorems show that every
    interleaving is linearizable against the sequential [run_seq] of the
    atomic [run], that concurrent appends get distinct offsets naming
    their own records, and that no interleaving deadlocks. *)

From stdpp Require Import base list relations.
From stdpp Require Import strings.
From Stdlib Require Import ZArith Lia.
From Stdlib Require Import Strings.Byte.
From S2P Require Import Prelude.

Open Scope Z_scope.
Open Scope monolog_scope.

Module ServerLog.

(** [type Record struct { Value []byte; Offset uint64 }]. *)
Record Record := { Value : list byte; Offset : Z }.

(** [type Log struct { mu sync.Mutex; records []Record }]: the mutex is
    free between method calls, so the sequential state is the slice. *)
Record Log := { records : list Record }.

Definition NewLog : Log := {| records := [] |}.

Definition with_offset (r : Record) (off : Z) : Record :=
  {| Value := Value r; Offset := off |}.

(** [Append(record) (uint64, error)]: [record.Offset = uint64(len(...))]
    on the caller's copy, then [append]; the error is always nil. *)
Definition Append (c : Log) (record : Record) : Log * result Z :=
  let off := Z.of_nat (length (records c)) in
  let record := with_offset record off in
  ({| records := records c ++ [record] |}, Ok off).

(** [Read(offset uint64) (Record, error)]. *)
Definition Read (c : Log) (offset : Z) : result Record :=
  if offset >=? Z.of_nat (length (records c)) then Err ErrOffsetNotFound else
  match records c !! Z.to_nat offset with
  | Some r => Ok r
  | None => Err Panic   (* index out of range: unreachable, see Read_never_panics *)
  end.

(** The log's invariant: every record carries its own position. *)
Definition log_wf (c : Log) : Prop :=
  forall k r, records c !! k = Some r -> Offset r = Z.of_nat k.

(** Appending a list of records in order, collecting the offsets. *)
Fixpoint append_all (c : Log) (rs : list Record) : Log * list Z :=
  match rs with
  | [] => (c, [])
  | r :: rs' =>
      let '(c1, res) := Append c r in
      let '(c2, offs) := append_all c1 rs' in
      (c2, match res with Ok off => off :: offs | Err _ => offs end)
  end.

End ServerLog.

Import ServerLog.

(** Goroutines calling the log concurrently, one step per statement of
    the method bodies: [c.mu.Lock()] is [step_lock]; the statements
    between it and the return are [step_body]; the return with its
    deferred [c.mu.Unlock()] is [step_unlock].  Only [step_lock] looks
    at [mu]: the body's statements read and write the shared slice
    whoever runs them. *)
Module LogMutex.

Inductive op := OpAppend (r : Record) | OpRead (off : Z).

Inductive response := RAppend (res : result Z) | RRead (res : result Record).

(** The method a goroutine called, as one atomic step: the sequential
    [Append] and [Read]. *)
Definition run (o : op) (c : Log) : Log * response :=
  match o with
  | OpAppend r => (fst (Append c r), RAppend (snd (Append c r)))
  | OpRead off => (c, RRead (Read c off))
  end.

(** Where a goroutine holding [mu] is in its method's body. *)
Inductive pc :=
| BStart                     (* after c.mu.Lock() *)
| BStamped (record : Record) (* Append: after record.Offset = uint64(len(c.records)) *)
| BRet (resp : response).    (* at the return, before the deferred c.mu.Unlock() *)

(** One statement of a body on the shared log; [None] at the return.
    [Append]: [record.Offset = uint64(len(c.records))] on the caller's
    copy, then [c.records = append(c.records, record)], then [return
    record.Offset, nil].  [Read]: the bounds check and the index. *)
Definition body_step (o : op) (p : pc) (c : Log) : option (Log * pc) :=
  match o, p with
  | OpAppend r, BStart => Some (c, BStamped (with_offset r (Z.of_nat (length (records c)))))
  | OpAppend _, BStamped record =>
      Some ({| records := records c ++ [record] |}, BRet (RAppend (Ok (Offset record))))
  | OpRead off, BStart => Some (c, BRet (RRead (Read c off)))
  | _, _ => None
  end.

(** A goroutine before [Lock], inside its method holding [mu], or
    returned. *)
Inductive gstate := Idle (o : op) | Running (o : op) (p : pc) | Done (o : op) (resp : response).

(** The shared log, the goroutine holding [mu], and every goroutine. *)
Record World := { wlog : Log; holder : option nat; gs : list gstate }.

Inductive step : World -> World -> Prop :=
| step_lock w t o :
    gs w !! t = Some (Idle o) -> holder w = None ->
    step w {| wlog := wlog w; holder := Some t; gs := <[t := Running o BStart]> (gs w) |}
| step_body w t o p c' p' :
    gs w !! t = Some (Running o p) -> body_step o p (wlog w) = Some (c', p') ->
    step w {| wlog := c'; holder := holder w; gs := <[t := Running o p']> (gs w) |}
| step_unlock w t o resp :
    gs w !! t = Some (Running o (BRet resp)) ->
    step w {| wlog := wlog w; holder := None; gs := <[t := Done o resp]> (gs w) |}.

(** A new [Log] and goroutines about to call it. *)
Definition init (ops : list op) : World :=
  {| wlog := NewLog; holder := None; gs := Idle <$> ops |}.

Definition reachable (ops : list op) (w : World) : Prop := rtc step (init ops) w.

(** The reference: the method bodies run one after the other. *)
Fixpoint run_seq (os : list op) (c : Log) : Log * list response :=
  match os with
  | [] => (c, [])
  | o :: os' => let r := run o c in
                let rest := run_seq os' (fst r) in (fst rest, snd r :: snd rest)
  end.

(** The steps a goroutine has left. *)
Definition body_weight (o : op) (p : pc) : nat :=
  match p with
  | BStart => match o with OpAppend _ => 3 | OpRead _ => 2 end
  | BStamped _ => 2
  | BRet _ => 1
  end.

Definition weight (g : gstate) : nat :=
  match g with Idle o => S (body_weight o BStart) | Running o p => body_weight o p | Done _ _ => 0 end.

Definition pending (w : World) : nat := sum_list_with weight (gs w).

Definition returned (g : gstate) : bool :=
  match g with Done _ _ => true | _ => false end.

Definition is_idle (g : gstate) : bool :=
  match g with Idle _ => true | _ => false end.

Definition appended (w : World) (t : nat) (r : Record) (off : Z) : Prop :=
  gs w !! t = Some (Done (OpAppend r) (RAppend (Ok off))).

(** A history of returned calls: goroutine, operation, response. *)
Definition history_of (l : list gstate) (hist : list (nat * (op * response))) : Prop :=
  forall t o r, l !! t = Some (Done o r) <-> (t, (o, r)) ∈ hist.

(** How far the body of a call that found the log [c0] has got: the
    log [c] it has left and what it has computed. *)
Definition body_inv (o : op) (p : pc) (c0 c : Log) : Prop :=
  match p with
  | BStart => c = c0
  | BStamped record =>
      exists r, o = OpAppend r /\ c = c0 /\ record = with_offset r (Z.of_nat (length (records c0)))
  | BRet resp => run o c0 = (c, resp)
  end.

(** The holder of [mu], if any, is part way through its body from the
    log [c0]; with [mu] free the log is [c0]. *)
Definition holder_view (w : World) (c0 : Log) : Prop :=
  match holder w with
  | None => wlog w = c0
  | Some t => exists o p, gs w !! t = Some (Running o p) /\ body_inv o p c0 (wlog w)
  end.

(** The linearization: the calls that returned, in the order they
    released [mu], run one after the other from a new log, give their
    responses and the log [c0] the holder started from; and a goroutine
    inside its body holds [mu]. *)
Record lin_inv (w : World) (hist : list (nat * (op * response))) (c0 : Log) : Prop := {
  li_locked : forall t o p, gs w !! t = Some (Running o p) -> holder w = Some t;
  li_nodup : NoDup hist.*1;
  li_hist : history_of (gs w) hist;
  li_run : run_seq hist.*2.*1 NewLog = (c0, hist.*2.*2);
  li_view : holder_view w c0
}.

(** The interleaving invariant: the world has a linearization. *)
Definition inv (w : World) : Prop := exists hist c0, lin_inv w hist c0.

End LogMutex.

Section ServerLogLemmas.
Implicit Types (c : Log) (r : Record).

Lemma Append_records c r :
  records (fst (Append c r)) = records c ++ [with_offset r (Z.of_nat (length (records c)))].
Proof. reflexivity. Qed.

Lemma length_Append c r :
  length (records (fst (Append c r))) = S (length (records c)).
Proof. rewrite Append_records, length_app. simpl. lia. Qed.

Lemma Read_in_range c off r :
  0 <= off -> records c !! Z.to_nat off = Some r -> Read c off = Ok r.
Proof.
  intros H Hr. unfold Read. pose proof (lookup_lt_Some _ _ _ Hr).
  destruct (Z.geb_spec off (Z.of_nat (length (records c)))); [lia|]. rewrite Hr. reflexivity.
Qed.

Lemma lookup_Append_new c r :
  records (fst (Append c r)) !! length (records c)
  = Some (with_offset r (Z.of_nat (length (records c)))).
Proof. rewrite Append_records, lookup_app_r, Nat.sub_diag by lia. reflexivity. Qed.

Lemma Read_out_of_range c off :
  Z.of_nat (length (records c)) <= off -> Read c off = Err ErrOffsetNotFound.
Proof.
  intros H. unfold Read. destruct (Z.geb_spec off (Z.of_nat (length (records c)))); [reflexivity|lia].
Qed.

(** A [uint64] offset is either in the log or not found. *)
Lemma Read_cases c off :
  0 <= off ->
  (off < Z.of_nat (length (records c)) /\ exists r, Read c off = Ok r)
  \/ (Z.of_nat (length (records c)) <= off /\ Read c off = Err ErrOffsetNotFound).
Proof.
  intros H0. destruct (Z.lt_ge_cases off (Z.of_nat (length (records c)))) as [Hlt|Hge].
  - left. split; [exact Hlt|].
    destruct (lookup_lt_is_Some_2 (records c) (Z.to_nat off)) as [x Hx]; [lia|].
    exists x. apply Read_in_range; assumption.
  - right. split; [exact Hge|]. apply Read_out_of_range, Hge.
Qed.

End ServerLogLemmas.

#[export] Hint Rewrite Append_records length_Append : monolog_rw.

Section ServerLogTheorems.
Implicit Types (c : Log) (r : Record).

(** C5. [Append] returns the offset it stamped and [Read] at that offset
    returns the appended value stamped with it: the server's
    produce/consume round trip. *)
Theorem Read_Append c r off :
  snd (Append c r) = Ok off ->
  Read (fst (Append c r)) off = Ok {| Value := Value r; Offset := off |}.
Proof.
  intros H. injection H as <-. apply Read_in_range; [lia|].
  rewrite Nat2Z.id. apply lookup_Append_new.
Qed.

(** C19. [Append] changes no earlier offset: a [Read] of any other offset of
    the [uint64] range answers as before. *)
Theorem Read_Append_other c r off :
  0 <= off -> off <> Z.of_nat (length (records c)) ->
  Read (fst (Append c r)) off = Read c off.
Proof.
  intros H0 Hne. destruct (Z.lt_ge_cases off (Z.of_nat (length (records c)))) as [Hlt|Hge].
  - destruct (lookup_lt_is_Some_2 (records c) (Z.to_nat off)) as [x Hx]; [lia|].
    rewrite (Read_in_range c off x), (Read_in_range _ off x); try assumption.
    + reflexivity.
    + rewrite Append_records, lookup_app_l by lia. exact Hx.
  - rewrite !Read_out_of_range; [reflexivity | lia |].
    rewrite length_Append. lia.
Qed.

(** C6. Appending records one after the other to a log of [n] records
    returns the offsets [n, n+1, ...], and the log then holds each record
    stamped with its offset. *)
Theorem append_all_offsets c rs :
  append_all c rs =
  ({| records := records c ++ zip_with with_offset rs
                   (seqZ (Z.of_nat (length (records c))) (Z.of_nat (length rs))) |},
   seqZ (Z.of_nat (length (records c))) (Z.of_nat (length rs))).
Proof.
  revert c. induction rs as [|r rs IH]; intros c; simpl.
  - rewrite seqZ_nil by lia. rewrite app_nil_r. destruct c; reflexivity.
  - rewrite IH. cbn [records]. rewrite length_app. cbn [length].
    replace (Z.of_nat (S (length rs))) with (Z.succ (Z.of_nat (length rs))) by lia.
    rewrite (seqZ_cons _ (Z.succ _)) by lia. rewrite Z.pred_succ.
    replace (Z.of_nat (length (records c) + 1)) with (Z.of_nat (length (records c)) + 1) by lia.
    cbn [zip_with]. rewrite <- app_assoc. reflexivity.
Qed.

(** C10. [Read] of a [uint64] offset fails only with [ErrOffsetNotFound], and
    only at or past the end of the log: it never panics. *)
Theorem Read_error c off e :
  0 <= off -> Read c off = Err e ->
  e = ErrOffsetNotFound /\ Z.of_nat (length (records c)) <= off.
Proof.
  intros H0 H. destruct (Read_cases c off H0) as [[_ [x Hx]] | [Hge Hx]]; rewrite Hx in H.
  - discriminate.
  - injection H as <-. auto.
Qed.

Lemma NewLog_wf : log_wf NewLog.
Proof. intros k r H. destruct k; discriminate. Qed.

(** C18. [Append] keeps every record stamped with its own position. *)
Theorem Append_wf c r : log_wf c -> log_wf (fst (Append c r)).
Proof.
  intros Hwf k x Hk. rewrite Append_records in Hk.
  apply lookup_app_Some in Hk as [Hk | [Hlen Hk]].
  - exact (Hwf k x Hk).
  - apply list_lookup_singleton_Some in Hk as [Hk <-]. simpl. lia.
Qed.

End ServerLogTheorems.

Import LogMutex.

Section LogMutexProofs.
Implicit Types (w : World) (ops : list op).

Lemma run_extends o c k x :
  records c !! k = Some x -> records (fst (run o c)) !! k = Some x.
Proof.
  intros H. destruct o; cbn [run fst]; [|exact H].
  rewrite Append_records. apply lookup_app_l_Some, H.
Qed.

(** The record a returning [Append] finds at its offset. *)
Lemma run_append_at c r :
  records (fst (run (OpAppend r) c)) !! length (records c)
  = Some (with_offset r (Z.of_nat (length (records c)))).
Proof. apply lookup_Append_new. Qed.

Lemma run_append_resp c r off :
  snd (run (OpAppend r) c) = RAppend (Ok off) -> off = Z.of_nat (length (records c)).
Proof. cbn. intros [= <-]. reflexivity. Qed.

Lemma lookup_insert_cases (l : list gstate) (t : nat) g (t' : nat) x :
  (t < length l)%nat -> <[t := g]> l !! t' = Some x ->
  (t = t' /\ x = g) \/ (t <> t' /\ l !! t' = Some x).
Proof.
  intros Hlt H. destruct (decide (t = t')) as [<-|Hne].
  - rewrite list_lookup_insert_eq in H by exact Hlt. injection H as <-. auto.
  - right. split; [exact Hne|]. rewrite list_lookup_insert_ne in H by exact Hne. exact H.
Qed.

(** The statement-level body refines the atomic [run]: each statement
    keeps [body_inv], so the body returns what [run] returns, leaving
    the log [run] leaves; and a body can always go on until its return. *)
Lemma body_inv_step o p c0 c c' p' :
  body_inv o p c0 c -> body_step o p c = Some (c', p') -> body_inv o p' c0 c'.
Proof.
  destruct o as [r|off], p as [|record|resp]; cbn; intros Hb Hs; try discriminate.
  - injection Hs as <- <-. subst c. cbn [body_inv]. eauto.
  - destruct Hb as (r' & [= <-] & -> & ->). injection Hs as <- <-. reflexivity.
  - injection Hs as <- <-. subst c. reflexivity.
Qed.

Lemma body_progress o p c0 c :
  body_inv o p c0 c -> (exists c' p', body_step o p c = Some (c', p')) \/ exists resp, p = BRet resp.
Proof. destruct o as [r|off], p as [|record|resp]; cbn; eauto. intros (r & [=] & _). Qed.

Lemma body_weight_step o p c c' p' :
  body_step o p c = Some (c', p') -> S (body_weight o p') = body_weight o p.
Proof. destruct o, p; cbn; intros H; try discriminate; injection H as <- <-; reflexivity. Qed.

(** The histories: a goroutine that moves without returning keeps the
    history, one that returns is appended to it. *)
Lemma history_of_pending l hist t g g' :
  history_of l hist -> l !! t = Some g -> returned g = false -> returned g' = false ->
  history_of (<[t := g']> l) hist.
Proof.
  intros Hh Ht Hg Hg' t' o r. destruct (decide (t = t')) as [<-|Hne].
  - rewrite list_lookup_insert_eq by (eapply lookup_lt_Some; exact Ht). split.
    + intros [= ->]. discriminate Hg'.
    + intros Hin. apply Hh in Hin. rewrite Ht in Hin. injection Hin as ->. discriminate Hg.
  - rewrite list_lookup_insert_ne by exact Hne. apply Hh.
Qed.

Lemma history_of_done l hist t g o r :
  history_of l hist -> l !! t = Some g -> returned g = false ->
  history_of (<[t := Done o r]> l) (hist ++ [(t, (o, r))]).
Proof.
  intros Hh Ht Hg t' o' r'. rewrite elem_of_app, list_elem_of_singleton.
  destruct (decide (t = t')) as [<-|Hne].
  - rewrite list_lookup_insert_eq by (eapply lookup_lt_Some; exact Ht). split.
    + intros [= <- <-]. right. reflexivity.
    + intros [Hin | [= <- <-]]; [|reflexivity]. exfalso.
      apply Hh in Hin. rewrite Ht in Hin. injection Hin as ->. discriminate Hg.
  - rewrite list_lookup_insert_ne by exact Hne. rewrite (Hh t' o' r').
    split; [auto|]. intros [Hin | [= Heq _ _]]; [exact Hin | congruence].
Qed.

Lemma history_not_in l hist t g :
  history_of l hist -> l !! t = Some g -> returned g = false -> t ∉ hist.*1.
Proof.
  intros Hh Ht Hg Hin. apply list_elem_of_fmap in Hin as [[t' [o r]] [Heq Hin]].
  cbn in Heq. subst t'. apply Hh in Hin. rewrite Ht in Hin. injection Hin as ->. discriminate.
Qed.

Lemma nodup_snoc (hist : list (nat * (op * response))) t x :
  NoDup hist.*1 -> t ∉ hist.*1 -> NoDup (hist ++ [(t, x)]).*1.
Proof.
  intros Hnd Hnot. rewrite fmap_app. apply NoDup_app. split_and!; [exact Hnd | | apply NoDup_singleton].
  intros y Hy Hy'. apply list_elem_of_singleton in Hy'. subst y. contradiction.
Qed.

Lemma run_seq_snoc os o c :
  run_seq (os ++ [o]) c
  = (fst (run o (fst (run_seq os c))), snd (run_seq os c) ++ [snd (run o (fst (run_seq os c)))]).
Proof. revert c. induction os as [|o' os IH]; intros c; cbn; [reflexivity|]. rewrite IH. reflexivity. Qed.

Lemma view_locked w c0 t :
  holder_view w c0 -> holder w = Some t ->
  exists o p, gs w !! t = Some (Running o p) /\ body_inv o p c0 (wlog w).
Proof. unfold holder_view. intros H Hh. rewrite Hh in H. exact H. Qed.

(** The shared log extends the log the holder started from. *)
Lemma view_extends w c0 k x :
  holder_view w c0 -> records c0 !! k = Some x -> records (wlog w) !! k = Some x.
Proof.
  unfold holder_view. destruct (holder w) as [t|]; [intros (o & p & _ & Hb) Hk | intros -> Hk; exact Hk].
  destruct p as [|record|resp]; cbn [body_inv] in Hb.
  - subst c0. exact Hk.
  - destruct Hb as (_ & _ & -> & _). exact Hk.
  - replace (wlog w) with (fst (run o c0)) by (rewrite Hb; reflexivity). apply run_extends, Hk.
Qed.

Lemma lin_init ops : lin_inv (init ops) [] NewLog.
Proof.
  unfold init; split; cbn [gs holder wlog]; [| constructor | | reflexivity | reflexivity].
  - intros t o p H. rewrite list_lookup_fmap in H. destruct (ops !! t); discriminate.
  - intros t o r. rewrite list_lookup_fmap, elem_of_nil.
    destruct (ops !! t); cbn; (split; [congruence | intros []]).
Qed.

Lemma lin_step_lock w hist c0 t o :
  lin_inv w hist c0 -> gs w !! t = Some (Idle o) -> holder w = None ->
  lin_inv {| wlog := wlog w; holder := Some t; gs := <[t := Running o BStart]> (gs w) |} hist c0.
Proof.
  intros [Hl Hnd Hh Hrun Hv] Ht Hnone. pose proof (lookup_lt_Some _ _ _ Ht) as Hlt.
  unfold holder_view in Hv. rewrite Hnone in Hv.
  split; cbn [gs wlog holder]; [| exact Hnd | | exact Hrun |].
  - intros t' o' p' H. destruct (lookup_insert_cases _ _ _ _ _ Hlt H) as [[-> _]|[_ H']]; [reflexivity|].
    rewrite (Hl t' o' p' H') in Hnone. discriminate.
  - eapply history_of_pending; [exact Hh | exact Ht | reflexivity | reflexivity].
  - exists o, BStart. split; [apply list_lookup_insert_eq, Hlt | exact Hv].
Qed.

Lemma lin_step_body w hist c0 t o p c' p' :
  lin_inv w hist c0 -> gs w !! t = Some (Running o p) -> body_step o p (wlog w) = Some (c', p') ->
  lin_inv {| wlog := c'; holder := holder w; gs := <[t := Running o p']> (gs w) |} hist c0.
Proof.
  intros [Hl Hnd Hh Hrun Hv] Ht Hs. pose proof (lookup_lt_Some _ _ _ Ht) as Hlt.
  pose proof (Hl t o p Ht) as Hhd.
  destruct (view_locked w c0 t Hv Hhd) as (o1 & p1 & Ht1 & Hb). rewrite Ht in Ht1. injection Ht1 as <- <-.
  split; cbn [gs wlog holder]; [| exact Hnd | | exact Hrun |].
  - intros t' o' p'' H. destruct (lookup_insert_cases _ _ _ _ _ Hlt H) as [[<- _]|[_ H']];
      [exact Hhd | exact (Hl t' o' p'' H')].
  - eapply history_of_pending; [exact Hh | exact Ht | reflexivity | reflexivity].
  - unfold holder_view. cbn [holder wlog gs]. rewrite Hhd. exists o, p'.
    split; [apply list_lookup_insert_eq, Hlt | exact (body_inv_step _ _ _ _ _ _ Hb Hs)].
Qed.

(** At [Unlock] the holder's call joins the linearization: [body_inv]
    at the return says it did what [run] does on [c0]. *)
Lemma lin_step_unlock w hist c0 t o resp :
  lin_inv w hist c0 -> gs w !! t = Some (Running o (BRet resp)) ->
  lin_inv {| wlog := wlog w; holder := None; gs := <[t := Done o resp]> (gs w) |}
          (hist ++ [(t, (o, resp))]) (wlog w).
Proof.
  intros [Hl Hnd Hh Hrun Hv] Ht. pose proof (lookup_lt_Some _ _ _ Ht) as Hlt.
  pose proof (Hl t o _ Ht) as Hhd.
  destruct (view_locked w c0 t Hv Hhd) as (o1 & p1 & Ht1 & Hb). rewrite Ht in Ht1. injection Ht1 as <- <-.
  cbn [body_inv] in Hb.
  split; cbn [gs wlog holder]; [| | | | reflexivity].
  - intros t' o' p' H. destruct (lookup_insert_cases _ _ _ _ _ Hlt H) as [[_ [=]]|[Hne H']].
    rewrite (Hl t' o' p' H') in Hhd. congruence.
  - exact (nodup_snoc _ _ _ Hnd (history_not_in _ _ _ _ Hh Ht eq_refl)).
  - exact (history_of_done _ _ _ _ _ _ Hh Ht eq_refl).
  - rewrite !fmap_app. cbn. rewrite run_seq_snoc, Hrun. cbn [fst snd]. rewrite Hb. reflexivity.
Qed.

(** Every step extends the linearization by the calls it returns. *)
Lemma lin_step w w' hist c0 :
  lin_inv w hist c0 -> step w w' -> exists x c0', lin_inv w' (hist ++ x) c0'.
Proof.
  intros Hli Hs. destruct Hs as [w t o Ht Hh | w t o p c' p' Ht Hs | w t o resp Ht].
  - exists [], c0. rewrite app_nil_r. exact (lin_step_lock w hist c0 t o Hli Ht Hh).
  - exists [], c0. rewrite app_nil_r. exact (lin_step_body w hist c0 t o p c' p' Hli Ht Hs).
  - eexists _, _. exact (lin_step_unlock w hist c0 t o resp Hli Ht).
Qed.

Lemma lin_rtc w w' hist c0 :
  lin_inv w hist c0 -> rtc step w w' -> exists x c0', lin_inv w' (hist ++ x) c0'.
Proof.
  intros Hli Hr. revert hist c0 Hli. induction Hr as [w|x y z Hs _ IH]; intros hist c0 Hli.
  - exists [], c0. rewrite app_nil_r. exact Hli.
  - destruct (lin_step x y hist c0 Hli Hs) as (h1 & c1 & H1).
    destruct (IH _ _ H1) as (h2 & c2 & H2). exists (h1 ++ h2), c2. rewrite app_assoc. exact H2.
Qed.

Lemma inv_step w w' : inv w -> step w w' -> inv w'.
Proof. intros (hist & c0 & Hli) Hs. destruct (lin_step w w' hist c0 Hli Hs) as (x & c0' & H). exists (hist ++ x), c0'. exact H. Qed.

Lemma reachable_inv ops w : reachable ops w -> inv w.
Proof. intros Hr. destruct (lin_rtc _ _ _ _ (lin_init ops) Hr) as (x & c0 & H). exists ([] ++ x), c0. exact H. Qed.

(** Every step takes one goroutine one statement closer to returning. *)
Lemma pending_step w w' : step w w' -> S (pending w') = pending w.
Proof.
  destruct 1 as [w t o Ht Hh | w t o p c' p' Ht Hs | w t o resp Ht]; unfold pending; cbn [gs].
  - pose proof (sum_list_with_insert weight (gs w) t (Running o BStart) _ Ht). cbn [weight] in *. lia.
  - pose proof (sum_list_with_insert weight (gs w) t (Running o p') _ Ht).
    pose proof (body_weight_step _ _ _ _ _ Hs). cbn [weight] in *. lia.
  - pose proof (sum_list_with_insert weight (gs w) t (Done o resp) _ Ht).
    cbn [weight body_weight] in *. lia.
Qed.

(** No infinite interleaving: the step relation is strongly normalizing. *)
Lemma step_sn w : sn step w.
Proof. apply (sn_measure step pending). intros x y Hs. pose proof (pending_step x y Hs). lia. Qed.

(** Progress: either every goroutine has returned, or one can move:
    the holder runs its next statement or returns, or with [mu] free an
    idle goroutine takes it. *)
Lemma progress w :
  inv w -> Forall (fun g => returned g = true) (gs w) \/ exists w', step w w'.
Proof.
  intros (hist & c0 & Hli). destruct (holder w) as [t|] eqn:Hh.
  - right. destruct (view_locked w c0 t (li_view _ _ _ Hli) Hh) as (o & p & Ht & Hb).
    destruct (body_progress o p c0 (wlog w) Hb) as [(c' & p' & Hs) | [resp ->]].
    + eexists. exact (step_body w t o p c' p' Ht Hs).
    + eexists. exact (step_unlock w t o resp Ht).
  - destruct (list_find (fun g => is_idle g = true) (gs w)) as [[t g]|] eqn:Hf.
    + apply list_find_Some in Hf as (Ht & Hg & _). destruct g as [o| |]; try discriminate.
      right. eexists. exact (step_lock w t o Ht Hh).
    + left. apply list_find_None in Hf. rewrite Forall_lookup in Hf |- *. intros t g Ht.
      specialize (Hf t g Ht). destruct g as [o|o p|o r]; [done | | reflexivity].
      rewrite (li_locked _ _ _ Hli t o p Ht) in Hh. discriminate.
Qed.

(** In the sequential run, each [Append] finds its record stamped with
    its offset at that offset, and no two [Append]s get one offset. *)
Lemma run_seq_appends (hist : list (nat * (op * response))) c0 :
  run_seq hist.*2.*1 NewLog = (c0, hist.*2.*2) ->
  forall t r off, (t, (OpAppend r, RAppend (Ok off))) ∈ hist ->
    0 <= off /\ records c0 !! Z.to_nat off = Some (with_offset r off)
    /\ forall t' r', (t', (OpAppend r', RAppend (Ok off))) ∈ hist -> t' = t.
Proof.
  revert c0. induction hist as [|[tn [o resp]] hist IH] using rev_ind; intros c0 Hrun t r off Hin.
  { apply elem_of_nil in Hin as []. }
  rewrite !fmap_app in Hrun. cbn [fmap list_fmap fst snd] in Hrun. rewrite run_seq_snoc in Hrun.
  destruct (run_seq hist.*2.*1 NewLog) as [c1 rs1] eqn:E. cbn [fst snd] in Hrun.
  injection Hrun as Hc0 Hrs. apply app_inj_tail in Hrs as [-> Hresp]. subst c0.
  specialize (IH c1 eq_refl).
  rewrite elem_of_app, list_elem_of_singleton in Hin.
  destruct Hin as [Hin | Heq].
  - destruct (IH t r off Hin) as (H0 & Hr & Hd). split_and!; [exact H0 | apply run_extends, Hr |].
    intros t' r' Hin'. rewrite elem_of_app, list_elem_of_singleton in Hin'.
    destruct Hin' as [Hin' | Heq]; [exact (Hd t' r' Hin')|]. injection Heq as <- <- <-.
    apply run_append_resp in Hresp. apply lookup_lt_Some in Hr. lia.
  - injection Heq as <- <- <-. apply run_append_resp in Hresp as ->.
    split_and!; [lia | rewrite Nat2Z.id; apply run_append_at |].
    intros t' r' Hin'. rewrite elem_of_app, list_elem_of_singleton in Hin'.
    destruct Hin' as [Hin' | Heq]; [|congruence].
    destruct (IH t' r' _ Hin') as (_ & Hr & _). apply lookup_lt_Some in Hr. lia.
Qed.

End LogMutexProofs.

Section LogMutexTheorems.

(** C7. In every interleaving, each [Append] that returned finds its record
    stamped with its offset at that offset of the log, and two
    goroutines never get the same offset. *)
Theorem concurrent_appends ops w t1 t2 r1 r2 off1 off2 :
  reachable ops w -> appended w t1 r1 off1 -> appended w t2 r2 off2 ->
  Read (wlog w) off1 = Ok (with_offset r1 off1) /\ (off1 = off2 -> t1 = t2).
Proof.
  unfold appended. intros Hr H1 H2.
  destruct (reachable_inv ops w Hr) as (hist & c0 & [_ _ Hh Hrun Hv]).
  apply Hh in H1, H2. destruct (run_seq_appends hist c0 Hrun t1 r1 off1 H1) as (H0 & Hl & Hd).
  split; [apply Read_in_range; [exact H0 | exact (view_extends w c0 _ _ Hv Hl)]|].
  intros <-. symmetry. exact (Hd t2 r2 H2).
Qed.

(** C29. No interleaving deadlocks: from every world the goroutines can
    reach, there is an execution in which every goroutine returns from its
    call. *)
Theorem all_return ops w :
  reachable ops w -> exists w', rtc step w w' /\ Forall (fun g => returned g = true) (gs w').
Proof.
  intros Hr. pose proof (reachable_inv ops w Hr) as Hinv. clear Hr. revert Hinv.
  induction (step_sn w) as [w _ IH]. intros Hinv.
  destruct (progress w Hinv) as [Hd | [w' Hs]]; [exists w; split; [apply rtc_refl | exact Hd]|].
  destruct (IH w' Hs (inv_step w w' Hinv Hs)) as (w'' & Hr'' & Hd).
  exists w''. split; [eapply rtc_l; eassumption | exact Hd].
Qed.

(** C8. Linearizability: for a world [w] the goroutines reach and any
    later world [w'] where [mu] is free, the calls returned by [w'] have
    an order in which, run one after the other from a new log, they give
    each call's response and the shared log of [w']; and the calls
    returned by [w] come first, so a call that returned before another
    was made precedes it. *)
Theorem linearizable ops w w' :
  reachable ops w -> rtc step w w' -> holder w' = None ->
  exists hist hist',
    NoDup (hist ++ hist').*1 /\ history_of (gs w) hist /\ history_of (gs w') (hist ++ hist')
    /\ run_seq (hist ++ hist').*2.*1 NewLog = (wlog w', (hist ++ hist').*2.*2).
Proof.
  intros Hr Hs Hfree. destruct (reachable_inv ops w Hr) as (hist & c0 & Hli).
  destruct (lin_rtc _ _ _ _ Hli Hs) as (hist' & c0' & [_ Hnd Hh' Hrun Hv]).
  unfold holder_view in Hv. rewrite Hfree in Hv. subst c0'.
  exists hist, hist'. split_and!; [exact Hnd | exact (li_hist _ _ _ Hli) | exact Hh' | exact Hrun].
Qed.

End LogMutexTheorems.


(** ** Concrete runs: the scenario of the server tests *)

Section ServerLogExamples.
Local Open Scope string_scope.

Definition rec_of (v : String.string) : Record :=
  {| Value := String.list_byte_of_string v; Offset := 0 |}.

(** [Append("hi")] then [Append("hello")] on a new log return offsets 0
    and 1; [Read(1)] is ["hello"] and [Read(2)] is [ErrOffsetNotFound]. *)
Example produce_consume_scenario :
  append_all NewLog [rec_of "hi"; rec_of "hello"] =
    ({| records := [with_offset (rec_of "hi") 0; with_offset (rec_of "hello") 1] |}, [0; 1])
  /\ Read (fst (append_all NewLog [rec_of "hi"; rec_of "hello"])) 1
     = Ok (with_offset (rec_of "hello") 1)
  /\ Read (fst (append_all NewLog [rec_of "hi"; rec_of "hello"])) 2 = Err ErrOffsetNotFound.
Proof. vm_compute. split_and!; reflexivity. Qed.

Definition log1 : Log := fst (Append NewLog (rec_of "hi")).

Lemma Read_Append_witness :
  Read (fst (Append log1 (rec_of "hello"))) 1 = Ok {| Value := Value (rec_of "hello"); Offset := 1 |}.
Proof. apply (Read_Append log1 (rec_of "hello") 1). reflexivity. Defined.

Lemma Read_Append_other_witness :
  Read (fst (Append log1 (rec_of "hello"))) 0 = Read log1 0.
Proof. apply (Read_Append_other log1 (rec_of "hello") 0); [lia | vm_compute; congruence]. Defined.

Lemma Read_error_witness :
  Read log1 5 = Err ErrOffsetNotFound
  /\ (ErrOffsetNotFound = ErrOffsetNotFound /\ Z.of_nat (length (records log1)) <= 5).
Proof.
  split; [reflexivity|]. apply (Read_error log1 5 ErrOffsetNotFound); [lia | reflexivity].
Defined.

Lemma Append_wf_witness : log_wf (fst (Append log1 (rec_of "hello"))).
Proof. apply (Append_wf log1 (rec_of "hello")). apply (Append_wf NewLog), NewLog_wf. Defined.

(** Two goroutines appending ["hi"] and ["hello"]; goroutine 1 takes the
    lock first. *)
Definition ops2 : list op := [OpAppend (rec_of "hi"); OpAppend (rec_of "hello")].

Definition w_final : World :=
  {| wlog := {| records := [with_offset (rec_of "hello") 0; with_offset (rec_of "hi") 1] |};
     holder := None;
     gs := [Done (OpAppend (rec_of "hi")) (RAppend (Ok 1));
            Done (OpAppend (rec_of "hello")) (RAppend (Ok 0))] |}.

(** The interleaving in which the second goroutine takes the lock first:
    each takes [mu], stamps, stores and returns. *)
Lemma w_final_nsteps : nsteps step 8 (init ops2) w_final.
Proof.
  eapply nsteps_l; [apply (step_lock _ 1 (OpAppend (rec_of "hello"))); reflexivity|].
  do 2 (eapply nsteps_l; [eapply (step_body _ 1 (OpAppend (rec_of "hello"))); reflexivity|]).
  eapply nsteps_l; [eapply (step_unlock _ 1 (OpAppend (rec_of "hello"))); reflexivity|].
  eapply nsteps_l; [apply (step_lock _ 0 (OpAppend (rec_of "hi"))); reflexivity|].
  do 2 (eapply nsteps_l; [eapply (step_body _ 0 (OpAppend (rec_of "hi"))); reflexivity|]).
  eapply nsteps_l; [eapply (step_unlock _ 0 (OpAppend (rec_of "hi"))); reflexivity|].
  apply nsteps_O.
Qed.

Lemma w_final_reachable : reachable ops2 w_final.
Proof. exact (rtc_nsteps_2 _ _ _ w_final_nsteps). Qed.

(** That interleaving is the sequential run of "hello" then "hi". *)
Example w_final_sequential :
  run_seq [OpAppend (rec_of "hello"); OpAppend (rec_of "hi")] NewLog
  = (wlog w_final, [RAppend (Ok 0); RAppend (Ok 1)]).
Proof. reflexivity. Qed.

Lemma all_return_witness :
  exists w', rtc step (init ops2) w' /\ Forall (fun g => returned g = true) (gs w').
Proof. apply (all_return ops2 (init ops2)). apply rtc_refl. Defined.

Lemma linearizable_witness :
  exists hist hist' : list (nat * (op * response)),
    NoDup (hist ++ hist')%list.*1 /\ history_of (gs (init ops2)) hist
    /\ history_of (gs w_final) (hist ++ hist')%list
    /\ run_seq (hist ++ hist')%list.*2.*1 NewLog = (wlog w_final, (hist ++ hist')%list.*2.*2).
Proof.
  apply (linearizable ops2 (init ops2) w_final); [apply rtc_refl | exact w_final_reachable | reflexivity].
Defined.

Lemma concurrent_appends_witness :
  Read (wlog w_final) 1 = Ok (with_offset (rec_of "hi") 1) /\ (1 = 0 -> 0%nat = 1%nat).
Proof.
  apply (concurrent_appends ops2 w_final 0 1 (rec_of "hi") (rec_of "hello") 1 0);
    [exact w_final_reachable | reflexivity | reflexivity].
Defined.

End ServerLogExamples.
