(* ===== verification/HTTP.v ===== *)
(** * HTTP: the produce/consume handlers of src/internal/server/http.go

    [NewHTTPServer] routes [GET /] to [handleConsume] and [POST /] to
    [handleProduce]; both decode a JSON request body, call the server's
    [Log], and write to the [http.ResponseWriter].  The writer is modelled
    as the list of writes a handler makes ([wevent]): an [http.Error], a
    JSON body, or a JSON body whose write failed.  The status the client
    sees is the first write's: net/http's [response.write] calls
    [WriteHeader(StatusOK)] before it writes a byte, so an [Encode] that
    fails has already committed 200, and the [WriteHeader(500)] of the
    [http.Error] after it is superfluous.  JSON
    decoding is the library's and is an input ([payload]): a well-formed
    body of either request type, or a malformed one.  Go's decoder ignores
    unknown fields, so a body of the other request type decodes to the
    zero value, as [decode_produce]/[decode_consume] write out.  Whether
    encoding the response to the connection succeeds is an input too.
    [main] (src/cmd/server/main.go) builds the server on :8080 and serves
    it; [ListenAndServe] answers a given sequence of requests in order. *)

From stdpp Require Import base list strings.
From Stdlib Require Import ZArith Lia.
From Stdlib Require Import Strings.Byte.
From S2P Require Import Prelude ServerLog.
Import ServerLog.

Open Scope Z_scope.
Open Scope monolog_scope.

Module HTTP.

Record ProduceRequest := { PRecord : Record }.
Record ConsumeRequest := { COffset : Z }.

(** The JSON bodies the handlers write. *)
Inductive body :=
| ProduceResponse (offset : Z)
| ConsumeResponse (record : Record).

(** One write to the [http.ResponseWriter]. *)
Inductive wevent :=
| WError (msg : string) (code : Z)   (* http.Error(w, msg, code) *)
| WBody (b : body)                   (* json.NewEncoder(w).Encode(b) *)
| WBodyFailed (b : body).            (* the same, its write returning an error *)

(** A request body as the JSON library sees it. *)
Inductive payload :=
| PProduce (r : ProduceRequest)
| PConsume (c : ConsumeRequest)
| PMalformed (msg : string).

Definition zero_record : Record := {| Value := []; Offset := 0 |}.

Inductive decoded (A : Type) := Decoded (a : A) | DecodeError (msg : string).
Arguments Decoded {A} a.
Arguments DecodeError {A} msg.

Definition decode_produce (p : payload) : decoded ProduceRequest :=
  match p with
  | PProduce r => Decoded r
  | PConsume _ => Decoded {| PRecord := zero_record |}
  | PMalformed m => DecodeError m
  end.

Definition decode_consume (p : payload) : decoded ConsumeRequest :=
  match p with
  | PConsume c => Decoded c
  | PProduce _ => Decoded {| COffset := 0 |}
  | PMalformed m => DecodeError m
  end.

(** The text of an error value ([err.Error()]). *)
Definition err_msg (e : goerr) : string :=
  match e with
  | ErrOffsetNotFound => "offset not found"
  | _ => "internal error"
  end.

Definition encode_error_msg : string := "write error".

(** [type httpServer struct { Log *Log }]. *)
Record httpServer := { Log_ : Log }.

Definition newHTTPServer : httpServer := {| Log_ := NewLog |}.

(** [err = json.NewEncoder(w).Encode(b); if err != nil { http.Error(w,
    err.Error(), 500) }]: a failed [Encode] is a write that committed
    the header, followed by the [http.Error]. *)
Definition encode (enc_ok : bool) (b : body) : list wevent :=
  if enc_ok then [WBody b] else [WBodyFailed b; WError encode_error_msg 500].

(** [handleProduce]: a decode error is 400 and returns; an [Append]
    error writes 500 and goes on (no return); then the response body. *)
Definition handleProduce (s : httpServer) (p : payload) (enc_ok : bool)
  : httpServer * list wevent :=
  match decode_produce p with
  | DecodeError m => (s, [WError m 400])
  | Decoded req =>
      let '(l', res) := Append (Log_ s) (PRecord req) in
      let offset := match res with Ok o => o | Err _ => 0 end in
      let evs := match res with Ok _ => [] | Err e => [WError (err_msg e) 500] end in
      ({| Log_ := l' |}, evs ++ encode enc_ok (ProduceResponse offset))
  end.

(** [handleConsume]: a decode error is 400; [ErrOffsetNotFound] is 404
    and returns; another error writes 500 and goes on; then the body. *)
Definition handleConsume (s : httpServer) (p : payload) (enc_ok : bool) : list wevent :=
  match decode_consume p with
  | DecodeError m => [WError m 400]
  | Decoded req =>
      match Read (Log_ s) (COffset req) with
      | Err ErrOffsetNotFound => [WError (err_msg ErrOffsetNotFound) 404]
      | Err e => WError (err_msg e) 500 :: encode enc_ok (ConsumeResponse zero_record)
      | Ok r => encode enc_ok (ConsumeResponse r)
      end
  end.

Inductive method := GET | POST | PUT | DELETE.
Inductive route := RouteConsume | RouteProduce | NotAllowed | NotFound.

(** The chi router of [NewHTTPServer]: [/] answers GET and POST, other
    methods on [/] are 405, other paths 404. *)
Definition NewHTTPServer_route (m : method) (path : string) : route :=
  if String.eqb path "/" then
    match m with GET => RouteConsume | POST => RouteProduce | _ => NotAllowed end
  else NotFound.

(** One request to the server: the route, then the handler. *)
Definition serve (s : httpServer) (m : method) (path : string) (p : payload) (enc_ok : bool)
  : httpServer * list wevent :=
  match NewHTTPServer_route m path with
  | RouteConsume => (s, handleConsume s p enc_ok)
  | RouteProduce => handleProduce s p enc_ok
  | NotAllowed => (s, [WError "method not allowed" 405])
  | NotFound => (s, [WError "404 page not found" 404])
  end.

(** The status line the client receives: the first write's, 200 for a
    body (the implicit [WriteHeader(StatusOK)] of [response.write]),
    later [WriteHeader] calls being superfluous. *)
Definition status (evs : list wevent) : Z :=
  match evs with
  | WError _ c :: _ => c
  | _ => 200
  end.

(** [&http.Server{Addr: addr, Handler: r}]: the address, and the router
    of [NewHTTPServer_route] over the handlers' shared [httpServer]. *)
Record Server := { Addr : string; Handler : httpServer }.

(** [NewHTTPServer(addr)]: a new [httpServer] behind the router. *)
Definition NewHTTPServer (addr : string) : Server := {| Addr := addr; Handler := newHTTPServer |}.

(** A request as the server receives it: method, path, the body as the
    JSON library decodes it, and whether writing the response succeeds. *)
Record request := { rmethod : method; rpath : string; rbody : payload; renc_ok : bool }.

(** [srv.ListenAndServe()] on a sequence of requests, answered in order
    (the log's mutex serializes the handlers' calls; [LogMutex] covers
    their interleavings).  It returns only on a listener error, which the
    model does not have. *)
Fixpoint ListenAndServe (srv : Server) (reqs : list request) : Server * list (list wevent) :=
  match reqs with
  | [] => (srv, [])
  | q :: qs =>
      let r := serve (Handler srv) (rmethod q) (rpath q) (rbody q) (renc_ok q) in
      let rest := ListenAndServe {| Addr := Addr srv; Handler := fst r |} qs in
      (fst rest, snd r :: snd rest)
  end.

(** [main]: [server.NewHTTPServer(":8080")], then [ListenAndServe]. *)
Definition main_server : Server := NewHTTPServer ":8080".

(** A client's [POST /] of a record and [GET /] of an offset. *)
Definition produce_req (r : Record) : request :=
  {| rmethod := POST; rpath := "/"; rbody := PProduce {| PRecord := r |}; renc_ok := true |}.
Definition consume_req (off : Z) : request :=
  {| rmethod := GET; rpath := "/"; rbody := PConsume {| COffset := off |}; renc_ok := true |}.

End HTTP.

Import HTTP.

Section HTTPTheorems.
Implicit Types (s : httpServer) (enc_ok : bool).

(** C11. A [GET /] for an offset at or past the end of the log is answered
    with 404 and nothing else, whatever happens to the connection: the
    not-found status the spec asks the transport to give
    [ErrOffsetNotFound]. *)
Theorem consume_past_end s off enc_ok :
  Z.of_nat (length (records (Log_ s))) <= off ->
  serve s GET "/" (PConsume {| COffset := off |}) enc_ok
  = (s, [WError "offset not found" 404]).
Proof. intros H. cbn -[Read]. rewrite Read_out_of_range by exact H. reflexivity. Qed.

(** C12. Producing a record and consuming the offset the response carries
    gives the record back, stamped with that offset, both with status
    200. *)
Theorem produce_consume s r :
  exists s' off,
    serve s POST "/" (PProduce {| PRecord := r |}) true = (s', [WBody (ProduceResponse off)])
    /\ serve s' GET "/" (PConsume {| COffset := off |}) true
       = (s', [WBody (ConsumeResponse {| Value := Value r; Offset := off |})]).
Proof.
  do 2 eexists. split; [reflexivity|]. cbn -[Read Append].
  rewrite (Read_in_range _ _ (with_offset r (Z.of_nat (length (records (Log_ s))))));
    [reflexivity | lia | rewrite Nat2Z.id; apply lookup_Append_new].
Qed.


(** A malformed body is 400 and leaves the log as it was. *)
Theorem produce_malformed s m enc_ok :
  serve s POST "/" (PMalformed m) enc_ok = (s, [WError m 400]).
Proof. reflexivity. Qed.

(** C20. [handleConsume]'s 500 branch, which writes a body after the error
    because it does not return, is never taken: on a [uint64] offset the
    status is 200 or 404, and a 404 is the only write. *)
Theorem consume_status s c :
  0 <= COffset c ->
  (status (handleConsume s (PConsume c) true) = 200
   /\ exists r, handleConsume s (PConsume c) true = [WBody (ConsumeResponse r)])
  \/ handleConsume s (PConsume c) true = [WError "offset not found" 404].
Proof.
  intros H. cbn -[Read].
  destruct (Read_cases (Log_ s) (COffset c) H) as [[_ [r ->]] | [_ ->]].
  - left. split; [reflexivity | eauto].
  - right. reflexivity.
Qed.

Lemma ListenAndServe_app srv qs1 qs2 :
  ListenAndServe srv (qs1 ++ qs2)
  = (fst (ListenAndServe (fst (ListenAndServe srv qs1)) qs2),
     snd (ListenAndServe srv qs1) ++ snd (ListenAndServe (fst (ListenAndServe srv qs1)) qs2)).
Proof.
  revert srv. induction qs1 as [|q qs IH]; intros srv; [cbn; destruct (ListenAndServe srv qs2); reflexivity|].
  cbn. rewrite IH. reflexivity.
Qed.

(** Producing records one after another: each is appended at the next
    offset, and each answer carries it. *)
Lemma ListenAndServe_produces a c rs :
  ListenAndServe {| Addr := a; Handler := {| Log_ := c |} |} (produce_req <$> rs)
  = ({| Addr := a; Handler := {| Log_ := {| records := records c
          ++ imap (fun k r => with_offset r (Z.of_nat (length (records c) + k))) rs |} |} |},
     imap (fun k _ => [WBody (ProduceResponse (Z.of_nat (length (records c) + k)))]) rs).
Proof.
  revert c. induction rs as [|r rs IH]; intros c; cbn [fmap list_fmap ListenAndServe].
  - rewrite app_nil_r. destruct c. reflexivity.
  - change (serve _ _ _ _ _) with (({| Log_ := fst (Append c r) |} : httpServer),
                                    [WBody (ProduceResponse (Z.of_nat (length (records c))))]).
    cbn [fst snd Handler Addr]. rewrite IH, Append_records, length_app, imap_cons, <- app_assoc.
    cbn [length imap app fst snd].
    repeat first [reflexivity | lia | (apply imap_ext; intros ? ? _; cbn [compose]) | progress f_equal].
Qed.

(** Consuming does not change the server; each answer is its handler's. *)
Lemma ListenAndServe_consumes srv offs :
  ListenAndServe srv (consume_req <$> offs)
  = (srv, (fun off => handleConsume (Handler srv) (PConsume {| COffset := off |}) true) <$> offs).
Proof.
  revert srv. induction offs as [|o offs IH]; intros [a h]; [reflexivity|].
  cbn [fmap list_fmap ListenAndServe]. cbn -[handleConsume]. rewrite IH. reflexivity.
Qed.

(** C31. End to end through [main]'s server on :8080: POSTing the records
    [rs] and then GETting every offset from 0 answers each POST with the
    record's offset, each GET with the record stamped with that offset,
    and the GET one past the end with 404. *)
Theorem main_produce_consume rs :
  Addr main_server = ":8080"
  /\ snd (ListenAndServe main_server
            ((produce_req <$> rs) ++ (consume_req <$> (Z.of_nat <$> seq 0 (S (length rs))))))
     = imap (fun k _ => [WBody (ProduceResponse (Z.of_nat k))]) rs
       ++ imap (fun k r => [WBody (ConsumeResponse (with_offset r (Z.of_nat k)))]) rs
       ++ [[WError "offset not found" 404]].
Proof.
  split; [reflexivity|]. rewrite ListenAndServe_app. unfold main_server, NewHTTPServer, newHTTPServer.
  rewrite ListenAndServe_produces. cbn [fst snd NewLog records length app Handler Log_].
  rewrite ListenAndServe_consumes. f_equal. cbn [Handler Log_].
  apply list_eq. intros i. cbn [snd]. rewrite !list_lookup_fmap.
  destruct (decide (i < length rs)%nat) as [Hi|Hi].
  - rewrite lookup_seq_lt by lia. rewrite lookup_app_l by (rewrite length_imap; lia).
    destruct (lookup_lt_is_Some_2 rs i Hi) as [r Hr].
    rewrite list_lookup_imap, Hr. cbn [fmap option_fmap option_map Nat.add].
    cbn -[Read]. rewrite (Read_in_range _ _ (with_offset r (Z.of_nat i))); [reflexivity | lia |].
    cbn [records]. rewrite Nat2Z.id, list_lookup_imap, Hr. reflexivity.
  - rewrite lookup_app_r by (rewrite length_imap; lia). rewrite length_imap.
    destruct (decide (i = length rs)) as [->|Hne].
    + rewrite lookup_seq_lt by lia. rewrite Nat.sub_diag. cbn -[Read].
      rewrite Read_out_of_range by (cbn [records]; rewrite length_imap; lia). reflexivity.
    + rewrite lookup_seq_ge by lia. rewrite lookup_ge_None_2 by (cbn; lia). reflexivity.
Qed.

End HTTPTheorems.

Section HTTPExamples.

Definition srv1 : httpServer :=
  fst (handleProduce newHTTPServer
         (PProduce {| PRecord := {| Value := [Byte.x68; Byte.x69]; Offset := 7 |} |}) true).

(** A new server answers [GET /] for offset 0 with 404. *)
Lemma consume_past_end_witness :
  serve newHTTPServer GET "/" (PConsume {| COffset := 0 |}) true
  = (newHTTPServer, [WError "offset not found" 404]).
Proof. apply (consume_past_end newHTTPServer 0 true). simpl. lia. Defined.

Lemma consume_status_witness :
  (status (handleConsume srv1 (PConsume {| COffset := 0 |}) true) = 200
   /\ exists r, handleConsume srv1 (PConsume {| COffset := 0 |}) true = [WBody (ConsumeResponse r)])
  \/ handleConsume srv1 (PConsume {| COffset := 0 |}) true = [WError "offset not found" 404].
Proof. apply (consume_status srv1 {| COffset := 0 |}). simpl. lia. Defined.

(** The client's [Offset] is overwritten by the log's: the record comes
    back with offset 0. *)
Example produce_overwrites_offset :
  handleConsume srv1 (PConsume {| COffset := 0 |}) true
  = [WBody (ConsumeResponse {| Value := [Byte.x68; Byte.x69]; Offset := 0 |})].
Proof. reflexivity. Qed.

End HTTPExamples.
